(** * RequestKit: shallow embedding of the retry engine, the interceptor
    pipeline, the interceptor manager, header merging, URL composition and
    response decoding, with the properties stated in the specification. *)

From Stdlib Require Import String Ascii List ZArith Bool Lia Sorted.
Import ListNotations.
Open Scope Z_scope.

(** ** Shared data model (src/types.ts, src/core/error.ts) *)

(** [HttpMethod] of src/types.ts. *)
Inductive HttpMethod := GET | POST | PUT | PATCH | DELETE | HEAD | OPTIONS.
Scheme Equality for HttpMethod.

(** [ErrorCode] of src/types.ts. *)
Inductive ErrorCode :=
  ERR_NETWORK | ERR_TIMEOUT | ERR_CANCELED | ERR_BAD_REQUEST | ERR_BAD_RESPONSE.
Scheme Equality for ErrorCode.

(** The part of [InternalRequestConfig] the modelled code reads.  Query
    parameters are not modelled: [buildFullURL] below is the no-[params]
    path. *)
Record InternalRequestConfig := mkConfig {
  url : string;
  method : HttpMethod;
  baseURL : option string
}.

(** The fields of a [RequestError] (src/types.ts). *)
Record RequestError := mkRequestError {
  err_message : string;
  err_code : option ErrorCode;
  err_status : option Z;
  err_config : InternalRequestConfig
}.

(** A value thrown in JavaScript, as far as the guards of src/core/error.ts
    can tell values apart:
    - [TReq]: a [RequestErrorImpl] instance (built by [createError]);
    - [TRecord]: a plain object literal carrying the [RequestError] fields
      (what [createInterceptorError] of src/interceptors/request.ts builds);
      it is not an [Error] instance;
    - [TError name msg]: any other [Error] instance;
    - [TNull] and [TUndefined]: [null] and [undefined];
    - [TOther]: any other thrown value. *)
Inductive Thrown :=
| TReq (e : RequestError)
| TRecord (e : RequestError)
| TError (name msg : string)
| TNull
| TUndefined
| TOther.

(** [isRequestError] (src/core/error.ts).  A [TError] never carries a
    [config] property, so the second disjunct of the source never holds. *)
Definition isRequestError (e : Thrown) : bool :=
  match e with TReq _ => true | _ => false end.

Definition is_error_instance (e : Thrown) : bool :=
  match e with TReq _ | TError _ _ => true | _ => false end.

Definition error_name (e : Thrown) : string :=
  match e with
  | TReq _ | TRecord _ => "RequestError"
  | TError n _ => n
  | TNull | TUndefined | TOther => ""
  end.

Definition error_code (e : Thrown) : option ErrorCode :=
  match e with TReq r | TRecord r => err_code r | _ => None end.

(** [error.status] as read by [shouldRetry]. *)
Definition error_status (e : Thrown) : option Z :=
  match e with TReq r | TRecord r => err_status r | _ => None end.

Definition code_is (c : option ErrorCode) (k : ErrorCode) : bool :=
  match c with Some c' => ErrorCode_beq c' k | None => false end.

(** [isCancelError] (src/core/error.ts). *)
Definition isCancelError (e : Thrown) : bool :=
  if isRequestError e then code_is (error_code e) ERR_CANCELED
  else is_error_instance e && String.eqb (error_name e) "AbortError".

(** Outcome of an awaited call: a value or a thrown exception. *)
Inductive Outcome (A : Type) := Ok (a : A) | Err (e : Thrown).
Arguments Ok {A} a.
Arguments Err {A} e.

(** Reading [error.status]: a [TypeError] on [null] and [undefined]. *)
Definition read_status (e : Thrown) : Outcome (option Z) :=
  match e with
  | TNull => Err (TError "TypeError" "Cannot read properties of null (reading 'status')")
  | TUndefined => Err (TError "TypeError" "Cannot read properties of undefined (reading 'status')")
  | _ => Ok (error_status e)
  end.

(** ** JavaScript numbers *)

(** A JavaScript number, an IEEE 754 binary64 value: [DNaN], the infinity
    of sign [neg], or the finite value [(-1)^neg * m * 2^e] ([m = 0] is a
    zero of sign [neg]).  A value has several representations: the
    comparisons below read values only, and the results of arithmetic are
    built by [double_round], in the canonical one. *)
Inductive Double := DNaN | DInf (neg : bool) | DFin (neg : bool) (m : N) (e : Z).

(** [X / 2^s] rounded to the nearest integer, ties to even ([X >= 0],
    [s >= 0]). *)
Definition rne (X s : Z) : Z :=
  let q := X / 2 ^ s in
  let r := X mod 2 ^ s in
  if (2 ^ s <? 2 * r) || ((2 * r =? 2 ^ s) && Z.odd q) then q + 1 else q.

(** The exponent of the last place kept when [m * 2^e] ([m > 0]) is
    rounded: 53 significant bits, and never below the subnormal unit
    [2^-1074]. *)
Definition round_unit (m e : Z) : Z := Z.max (e + Z.log2 m - 52) (-1074).

(** The number [(-1)^neg * q * 2^u] for a rounded [q <= 2^53]: a zero, an
    infinity from [2^1024] on, or a finite value with a 53-bit
    significand. *)
Definition double_finish (neg : bool) (q u : Z) : Double :=
  let '(q', u') := if q =? 2 ^ 53 then (2 ^ 52, u + 1) else (q, u) in
  if q' =? 0 then DFin neg 0 0
  else if 1024 <=? u' + Z.log2 q' then DInf neg
  else DFin neg (Z.to_N q') u'.

(** The number nearest to [(-1)^neg * m * 2^e] ([m >= 0]), ties to even:
    the rounding of every arithmetic operation. *)
Definition double_round (neg : bool) (m e : Z) : Double :=
  if m <=? 0 then DFin neg 0 0
  else
    let u := round_unit m e in
    double_finish neg (if u <=? e then m * 2 ^ (e - u) else rne m (u - e)) u.


(** The number value of an integer. *)
Definition double_of_Z (z : Z) : Double := double_round (z <? 0) (Z.abs z) 0.

(** The finite value [(-1)^neg * m * 2^e] as an integer multiple of
    [2^E] ([E <= e]). *)
Definition fin_value_at (neg : bool) (m : N) (e E : Z) : Z :=
  (if neg then - Z.of_N m else Z.of_N m) * 2 ^ (e - E).

(** Numeric comparison: [None] when one side is NaN, which makes [<],
    [<=], [>], [>=] and [===] all false; [+0] and [-0] are equal. *)
Definition d_compare (x y : Double) : option comparison :=
  match x, y with
  | DNaN, _ | _, DNaN => None
  | DInf a, DInf b => Some (if Bool.eqb a b then Eq else if a then Lt else Gt)
  | DInf a, DFin _ _ _ => Some (if a then Lt else Gt)
  | DFin _ _ _, DInf b => Some (if b then Gt else Lt)
  | DFin a m e, DFin b n f =>
      let E := Z.min e f in
      Some (Z.compare (fin_value_at a m e E) (fin_value_at b n f E))
  end.

(** [x < y], [x <= y], [x >= y] and [x === y] on numbers. *)
Definition d_lt (x y : Double) : bool :=
  match d_compare x y with Some Lt => true | _ => false end.
Definition d_le (x y : Double) : bool :=
  match d_compare x y with Some Lt | Some Eq => true | _ => false end.
Definition d_ge (x y : Double) : bool :=
  match d_compare x y with Some Gt | Some Eq => true | _ => false end.
Definition d_eqb (x y : Double) : bool :=
  match d_compare x y with Some Eq => true | _ => false end.

(** [x * y]. *)
Definition d_mul (x y : Double) : Double :=
  match x, y with
  | DNaN, _ | _, DNaN => DNaN
  | DInf a, DInf b => DInf (xorb a b)
  | DInf a, DFin b m _ | DFin b m _, DInf a =>
      if (m =? 0)%N then DNaN else DInf (xorb a b)
  | DFin a m e, DFin b n f => double_round (xorb a b) (Z.of_N m * Z.of_N n) (e + f)
  end.

(** [Math.pow(2, k)] for an integer [k]: the power of two, rounded like
    any other value ([Infinity] from [2^1024] on). *)
Definition Math_pow2 (k : Z) : Double := double_round false 1 k.

Definition is_neg_zero (x : Double) : bool :=
  match x with DFin true m _ => (m =? 0)%N | _ => false end.

(** [Math.min(a, b)]: NaN if either is NaN; [-0] is below [+0]; of two
    equal values, the first. *)
Definition Math_min (a b : Double) : Double :=
  match a, b with
  | DNaN, _ | _, DNaN => DNaN
  | _, _ =>
      match d_compare b a with
      | Some Lt => b
      | Some Eq => if is_neg_zero b then b else a
      | _ => a
      end
  end.

(** ** Retry engine (src/features/cancel.ts, retry part) *)

Inductive Backoff := Linear | Exponential.

(** A property of an object literal: absent, present with the value
    [undefined], or present with a value. *)
Inductive Field (A : Type) := Absent | Undefined | Given (a : A).
Arguments Absent {A}.
Arguments Undefined {A}.
Arguments Given {A} a.

(** The [TypeError] thrown when [config.name(...)] is called on a
    property that is not a function. *)
Definition not_a_function (name : string) : Thrown :=
  TError "TypeError" (name ++ " is not a function").

(** [Required<RetryConfig>] as [normalizeRetryConfig] builds it.
    - [limit], [delay] and [maxDelay] are read only by [===], [>=], [<=],
      [*] and [Math.min], which all treat [undefined] as NaN: a property
      given as [undefined] is stored as [DNaN].
    - [backoff] is [None] when the property is [undefined].
    - The callbacks return an outcome, since they may throw; a callback
      given as [undefined] is one that throws the [TypeError] of calling
      [undefined].
    - [statusCodes] holds integers: [includes] compares them with the
      integer [error.status], which no other number equals. *)
Record RetryConfig := mkRetryConfig {
  limit : Double;
  methods : list HttpMethod;
  statusCodes : list Z;
  delay : Double;
  backoff : option Backoff;
  maxDelay : Double;
  retryCondition : Thrown -> Outcome bool;
  onRetry : Z -> Thrown -> InternalRequestConfig -> Outcome unit
}.

(** A user-supplied [RetryConfig] object: every property may be absent
    or [undefined]. *)
Record RetryOptions := mkRetryOptions {
  o_limit : Field Double;
  o_methods : Field (list HttpMethod);
  o_statusCodes : Field (list Z);
  o_delay : Field Double;
  o_backoff : Field Backoff;
  o_maxDelay : Field Double;
  o_retryCondition : Field (Thrown -> Outcome bool);
  o_onRetry : Field (Z -> Thrown -> InternalRequestConfig -> Outcome unit)
}.

(** The argument [number | RetryConfig | undefined]. *)
Inductive RetryArg :=
| RetryUndefined
| RetryNumber (n : Double)
| RetryObject (o : RetryOptions).

Definition DEFAULT_RETRY_CONFIG : RetryConfig := {|
  limit := double_of_Z 0;
  methods := [GET; HEAD; OPTIONS; PUT; DELETE];
  statusCodes := [408; 429; 500; 502; 503; 504];
  delay := double_of_Z 1000;
  backoff := Some Exponential;
  maxDelay := double_of_Z 30000;
  retryCondition := fun _ => Ok true;
  onRetry := fun _ _ _ => Ok tt
|}.

Definition with_limit (c : RetryConfig) (n : Double) : RetryConfig :=
  {| limit := n; methods := methods c; statusCodes := statusCodes c;
     delay := delay c; backoff := backoff c; maxDelay := maxDelay c;
     retryCondition := retryCondition c; onRetry := onRetry c |}.

(** A property of [{...DEFAULT_RETRY_CONFIG, ...config}]: the one of
    [config] when [config] has it, [undefined] included. *)
Definition spread {A} (f : Field A) (default undef : A) : A :=
  match f with Absent => default | Undefined => undef | Given a => a end.

Definition or_default {A} (o : option A) (d : A) : A :=
  match o with Some a => a | None => d end.

(** [config.p ?? default]. *)
Definition nullish_or {A} (f : Field A) (default : A) : A :=
  match f with Given a => a | _ => default end.

(** [normalizeRetryConfig]. *)
Definition normalizeRetryConfig (config : RetryArg) : RetryConfig :=
  match config with
  | RetryUndefined => with_limit DEFAULT_RETRY_CONFIG (double_of_Z 0)
  | RetryNumber n =>
      if d_eqb n (double_of_Z 0) then with_limit DEFAULT_RETRY_CONFIG (double_of_Z 0)
      else with_limit DEFAULT_RETRY_CONFIG n
  | RetryObject o =>
      let d := DEFAULT_RETRY_CONFIG in
      {| limit := spread (o_limit o) (limit d) DNaN;
         methods := nullish_or (o_methods o) (methods d);
         statusCodes := nullish_or (o_statusCodes o) (statusCodes d);
         delay := spread (o_delay o) (delay d) DNaN;
         backoff := match o_backoff o with
                    | Absent => backoff d
                    | Undefined => None
                    | Given b => Some b
                    end;
         maxDelay := spread (o_maxDelay o) (maxDelay d) DNaN;
         retryCondition := spread (o_retryCondition o) (retryCondition d)
                             (fun _ => Err (not_a_function "config.retryCondition"));
         onRetry := spread (o_onRetry o) (onRetry d)
                      (fun _ _ _ => Err (not_a_function "config.onRetry")) |}
  end.

(** [calculateDelay].  [attempt] is the integer that [withRetry] counts
    from 1, so [attempt - 1] is exact. *)
Definition calculateDelay (attempt : Z) (config : RetryConfig) : Double :=
  let calculatedDelay :=
    match backoff config with
    | Some Linear => d_mul (delay config) (double_of_Z attempt)
    | _ => d_mul (delay config) (Math_pow2 (attempt - 1))
    end in
  Math_min calculatedDelay (maxDelay config).

Definition includes_method (l : list HttpMethod) (m : HttpMethod) : bool :=
  existsb (HttpMethod_beq m) l.

Definition includes_Z (l : list Z) (s : Z) : bool :=
  existsb (Z.eqb s) l.

(** [shouldRetry]; it throws what reading [error.status] or calling
    [config.retryCondition] throws.  The result of [retryCondition] is
    used only through [!]: it is modelled by its truth value. *)
Definition shouldRetry (error : Thrown) (attempt : Z) (config : RetryConfig)
    (m : HttpMethod) : Outcome bool :=
  if d_ge (double_of_Z attempt) (limit config) then Ok false
  else if isCancelError error then Ok false
  else if negb (includes_method (methods config) m) then Ok false
  else match read_status error with
  | Err e => Err e
  | Ok status =>
      if (match status with
          | Some s => negb (includes_Z (statusCodes config) s)
          | None => false
          end) then Ok false
      else match retryCondition config error with
           | Ok b => if negb b then Ok false else Ok true
           | Err e => Err e
           end
  end.

(** What one call of [withRetry] does: its result, how many times it
    invoked [fn], and the delays it waited, in order. *)
Record RetryRun (A : Type) := mkRetryRun {
  rr_result : Outcome A;
  rr_calls : nat;
  rr_delays : list Double
}.
Arguments mkRetryRun {A}.
Arguments rr_result {A}.
Arguments rr_calls {A}.
Arguments rr_delays {A}.

(** [lastError ?? new Error('Retry failed')]; [None] is [lastError]
    never assigned. *)
Definition retry_failed (lastError : option Thrown) : Thrown :=
  match lastError with
  | None | Some TNull | Some TUndefined => TError "Error" "Retry failed"
  | Some e => e
  end.

Section WithRetry.
Context {A : Type}.
(** [fn k] is the outcome of the [k]-th invocation of [fn] (from 0). *)
Variable fn : nat -> Outcome A.
Variable config : RetryConfig.
Variable requestConfig : InternalRequestConfig.
(** [aborted k]: [requestConfig.signal?.aborted] as read after the delay
    that precedes retry number [k]. *)
Variable aborted : nat -> bool.

(** The [while (attempt <= config.limit)] loop.  [attempt] is a
    JavaScript number counted up from 0 by [attempt++]: an integer, exact
    as long as fewer than 2^53 attempts are made.  [fuel] bounds the
    number of invocations of [fn]; [None] is a loop that has not
    finished within them (with an infinite [limit] it may run forever). *)
Fixpoint retry_loop (fuel : nat) (attempt : Z) (calls : nat)
    (lastError : option Thrown) : option (RetryRun A) :=
  if d_le (double_of_Z attempt) (limit config) then
    match fuel with
    | O => None
    | S fuel' =>
        match fn calls with
        | Ok v => Some (mkRetryRun (Ok v) (S calls) [])
        | Err requestError =>
            let attempt' := attempt + 1 in
            match shouldRetry requestError attempt' config (method requestConfig) with
            | Err e => Some (mkRetryRun (Err e) (S calls) [])
            | Ok false => Some (mkRetryRun (Err requestError) (S calls) [])
            | Ok true =>
                let retryDelay := calculateDelay attempt' config in
                match onRetry config attempt' requestError requestConfig with
                | Err e => Some (mkRetryRun (Err e) (S calls) [])
                | Ok _ =>
                    if aborted (Z.to_nat attempt')
                    then Some (mkRetryRun (Err requestError) (S calls) [retryDelay])
                    else option_map
                           (fun r => mkRetryRun (rr_result r) (rr_calls r)
                                       (retryDelay :: rr_delays r))
                           (retry_loop fuel' attempt' (S calls) (Some requestError))
                end
            end
        end
    end
  else Some (mkRetryRun (Err (retry_failed lastError)) calls []).
End WithRetry.

(** [withRetry], with at most [fuel] invocations of [fn] in the loop:
    [Some r] is the call settling as [r]. *)
Definition withRetry {A} (fuel : nat) (fn : nat -> Outcome A) (retryConfig : RetryArg)
    (requestConfig : InternalRequestConfig) (aborted : nat -> bool)
    : option (RetryRun A) :=
  let config := normalizeRetryConfig retryConfig in
  if d_eqb (limit config) (double_of_Z 0) then Some (mkRetryRun (fn O) 1%nat [])
  else retry_loop fn config requestConfig aborted fuel 0 0 None.

(** ** Header container and header merging (src/serializers/headers.ts) *)

Definition is_alpha (c : ascii) : bool :=
  let n := nat_of_ascii c in
  ((65 <=? n)%nat && (n <=? 90)%nat) || ((97 <=? n)%nat && (n <=? 122)%nat).

Definition is_digit (c : ascii) : bool :=
  let n := nat_of_ascii c in (48 <=? n)%nat && (n <=? 57)%nat.

Definition lower_ascii (c : ascii) : ascii :=
  let n := nat_of_ascii c in
  if (65 <=? n)%nat && (n <=? 90)%nat then ascii_of_nat (n + 32) else c.

(** Byte lower-casing: header names are compared after it. *)
Fixpoint lower (s : string) : string :=
  match s with
  | EmptyString => EmptyString
  | String c rest => String (lower_ascii c) (lower rest)
  end.

(** HTTP whitespace bytes: tab, line feed, carriage return and space. *)
Definition is_http_ws (c : ascii) : bool :=
  existsb (Ascii.eqb c) [ascii_of_nat 9; ascii_of_nat 10; ascii_of_nat 13; " "%char].

Fixpoint strip_leading_ws (s : string) : string :=
  match s with
  | String c rest => if is_http_ws c then strip_leading_ws rest else s
  | EmptyString => EmptyString
  end.

Fixpoint strip_trailing_ws (s : string) : string :=
  match s with
  | EmptyString => EmptyString
  | String c rest =>
      let rest' := strip_trailing_ws rest in
      if is_http_ws c && String.eqb rest' "" then EmptyString else String c rest'
  end.

(** Normalizing a header value (Fetch): removing its leading and trailing
    HTTP whitespace. *)
Definition normalize_value (v : string) : string :=
  strip_trailing_ws (strip_leading_ws v).

(** The bytes of a [token] (RFC 9110), of which header names are made. *)
Definition is_token_char (c : ascii) : bool :=
  is_alpha c || is_digit c ||
  existsb (Ascii.eqb c)
    ["!"; "#"; "$"; "%"; "&"; "'"; "*"; "+"; "-"; "."; "^"; "_"; "`"; "|"; "~"]%char.

(** A valid header name: a non-empty token.  A name with a code point
    above U+007F is not one (and one above U+00FF is no ByteString). *)
Definition valid_name (name : string) : bool :=
  negb (String.eqb name "") && forallb is_token_char (list_ascii_of_string name).

(** A valid normalized header value: no byte 0x00, 0x0A or 0x0D, and a
    ByteString.  Strings are their UTF-8 bytes, and a string has a code
    point above U+00FF exactly when its encoding has a byte of 0xC4 or
    more. *)
Definition valid_value (v : string) : bool :=
  forallb (fun c => let n := nat_of_ascii c in
                    negb (n =? 0)%nat && negb (n =? 10)%nat && negb (n =? 13)%nat
                    && (n <? 196)%nat)
    (list_ascii_of_string v).

(** The platform [Headers] container: its header list, in order, names
    lower-cased (every operation compares names byte-case-insensitively
    and iteration lower-cases them, so the case a name was given in is not
    observable). *)
Definition Headers := list (string * string).

(** The values listed under the (lower-cased) name [k], in order. *)
Definition header_values (k : string) (h : Headers) : list string :=
  map snd (filter (fun p => String.eqb (fst p) k) h).

(** A name's values combined with [", "]. *)
Definition combine_values (vs : list string) : option string :=
  match vs with
  | [] => None
  | v :: rest => Some (fold_left (fun acc x => acc ++ ", " ++ x) rest v)%string
  end.

(** [headers.get(key)] for a valid name [key] (the library's own calls
    pass literal names); [None] is [null]. *)
Definition headers_get (key : string) (h : Headers) : option string :=
  combine_values (header_values (lower key) h).

(** The [TypeError] the platform [Headers] methods throw on an invalid
    name or value (its message is the platform's). *)
Definition header_type_error : Thrown := TError "TypeError" "Invalid header name or value".

(** [headers.get(key)]. *)
Definition Headers_get (key : string) (h : Headers) : Outcome (option string) :=
  if valid_name key then Ok (headers_get key h) else Err header_type_error.


(** Setting [k] in a header list: the first header named [k] gets the
    value, the others are removed; without one, the header is appended. *)
Fixpoint headers_set_lc (k v : string) (h : Headers) : Headers :=
  match h with
  | [] => [(k, v)]
  | (k', v') :: rest =>
      if String.eqb k' k
      then (k, v) :: filter (fun p => negb (String.eqb (fst p) k)) rest
      else (k', v') :: headers_set_lc k v rest
  end.

(** [headers.set(key, value)]. *)
Definition Headers_set (key value : string) (h : Headers) : Outcome Headers :=
  let v := normalize_value value in
  if valid_name key && valid_value v then Ok (headers_set_lc (lower key) v h)
  else Err header_type_error.

(** [headers.append(key, value)]. *)
Definition Headers_append (key value : string) (h : Headers) : Outcome Headers :=
  let v := normalize_value value in
  if valid_name key && valid_value v then Ok (h ++ [(lower key, v)])
  else Err header_type_error.

(** [headers.delete(key)]. *)
Definition Headers_delete (key : string) (h : Headers) : Outcome Headers :=
  if valid_name key
  then Ok (filter (fun p => negb (String.eqb (fst p) (lower key))) h)
  else Err header_type_error.

(** Inserting a name into a list of distinct names sorted by bytes. *)
Fixpoint insert_name (n : string) (l : list string) : list string :=
  match l with
  | [] => [n]
  | m :: rest =>
      match String.compare n m with
      | Lt => n :: l
      | Eq => l
      | Gt => m :: insert_name n rest
      end
  end.

(** The pairs [headers.forEach] visits ("sort and combine"): the names in
    byte order, each with its combined value, except that each
    [set-cookie] value is visited on its own. *)
Definition sort_and_combine (h : Headers) : list (string * string) :=
  flat_map (fun n =>
              if String.eqb n "set-cookie"
              then map (fun v => (n, v)) (header_values n h)
              else match combine_values (header_values n h) with
                   | Some v => [(n, v)]
                   | None => []
                   end)
    (fold_right insert_name [] (map fst h)).

(** Sequencing a step that may throw. *)
Definition obind {A B : Type} (o : Outcome A) (f : A -> Outcome B) : Outcome B :=
  match o with Ok a => f a | Err e => Err e end.

(** A loop [for (const x of l) acc = step(acc, x)] that stops at the first
    exception. *)
Fixpoint fold_outcome {A B : Type} (step : A -> B -> Outcome A) (l : list B) (acc : A)
    : Outcome A :=
  match l with
  | [] => Ok acc
  | x :: rest => obind (step acc x) (fold_outcome step rest)
  end.

(** A header source: [undefined]; a plain [Record<string, string>]
    (entries in property order; [None] for an [undefined] or [null]
    value); an array of name/value pairs; or a platform [Headers]
    instance. *)
Inductive HeaderSource :=
| HUndefined
| HRecord (entries : list (string * option string))
| HArray (pairs : list (string * string))
| HHeaders (h : Headers).

(** [normalizeHeaders]: a [Headers] instance is copied with [forEach] and
    [set]; an array goes through [new Headers(array)], which appends its
    pairs; a record's defined values are [set]. *)
Definition normalizeHeaders (headers : HeaderSource) : Outcome Headers :=
  match headers with
  | HUndefined => Ok []
  | HHeaders h =>
      fold_outcome (fun r '(key, value) => Headers_set key value r) (sort_and_combine h) []
  | HArray pairs =>
      fold_outcome (fun r '(key, value) => Headers_append key value r) pairs []
  | HRecord entries =>
      fold_outcome (fun r '(key, value) =>
                      match value with
                      | Some v => Headers_set key v r
                      | None => Ok r
                      end) entries []
  end.

(** The [normalized.forEach] callback of [mergeHeaders]. *)
Definition merge_entry (result : Headers) (entry : string * string) : Outcome Headers :=
  let '(key, value) := entry in
  if String.eqb value "" then Headers_delete key result
  else Headers_set key value result.

(** [mergeHeaders(...sources)]. *)
Definition mergeHeaders (sources : list HeaderSource) : Outcome Headers :=
  fold_outcome (fun result source =>
                  match source with
                  | HUndefined => Ok result
                  | _ => obind (normalizeHeaders source)
                           (fun normalized =>
                              fold_outcome merge_entry (sort_and_combine normalized) result)
                  end) sources [].
(** ** URL composition (src/utils/url.ts, src/core/request.ts) *)

Definition slash : ascii := "/"%char.

(** Characters of [[a-z\d+\-.]] under the [i] flag. *)
Definition is_scheme_char (c : ascii) : bool :=
  is_alpha c || is_digit c || Ascii.eqb c "+" || Ascii.eqb c "-" || Ascii.eqb c ".".

Definition starts_with_2slash (s : string) : bool :=
  match s with
  | String a (String b _) => Ascii.eqb a slash && Ascii.eqb b slash
  | _ => false
  end.

(** After the first letter of a scheme: [[a-z\d+\-.]*:\/\/]. *)
Fixpoint scheme_tail (s : string) : bool :=
  match s with
  | EmptyString => false
  | String c rest =>
      if Ascii.eqb c ":" then starts_with_2slash rest
      else if is_scheme_char c then scheme_tail rest
      else false
  end.

(** [isAbsoluteURL]: [/^(?:[a-z][a-z\d+\-.]*:)?\/\//i]. *)
Definition isAbsoluteURL (u : string) : bool :=
  starts_with_2slash u ||
  match u with
  | String c rest => is_alpha c && scheme_tail rest
  | EmptyString => false
  end.

(** [s.replace(/\/+$/, '')]. *)
Fixpoint strip_trailing_slashes (s : string) : string :=
  match s with
  | EmptyString => EmptyString
  | String c rest =>
      let r := strip_trailing_slashes rest in
      if Ascii.eqb c slash && String.eqb r "" then "" else String c r
  end.

(** [s.replace(/^\/+/, '')]. *)
Fixpoint strip_leading_slashes (s : string) : string :=
  match s with
  | String c rest => if Ascii.eqb c slash then strip_leading_slashes rest else s
  | EmptyString => EmptyString
  end.

(** [combineURLs]. *)
Definition combineURLs (base_URL relativeURL : string) : string :=
  if String.eqb base_URL "" then relativeURL
  else if String.eqb relativeURL "" then base_URL
  else if isAbsoluteURL relativeURL then relativeURL
  else strip_trailing_slashes base_URL ++ "/" ++ strip_leading_slashes relativeURL.

(** [buildFullURL] without query parameters. *)
Definition buildFullURL (config : InternalRequestConfig) : string :=
  match baseURL config with
  | Some b => if negb (String.eqb b "") && negb (isAbsoluteURL (url config))
              then combineURLs b (url config) else url config
  | None => url config
  end.

(** ** Responses and response decoding (src/core/response.ts) *)

(** The part of a platform [Response] the modelled code reads; [r_body] is
    the body text. *)
Record Resp := mkResp {
  r_status : Z;
  r_headers : Headers;
  r_body : string
}.

Fixpoint includes (sub s : string) : bool :=
  prefix sub s || match s with String _ rest => includes sub rest | EmptyString => false end.

(** [isJSONContentType]. *)
Definition isJSONContentType (contentType : option string) : bool :=
  match contentType with
  | None => false
  | Some ct => if String.eqb ct "" then false
               else includes "application/json" ct || includes "+json" ct
  end.

(** [ResponseType]; [RT_unknown] is any other string (the [default]
    branch). *)
Inductive ResponseType :=
  RT_text | RT_blob | RT_arrayBuffer | RT_stream | RT_raw | RT_json | RT_unknown.

Section ParseResponse.
Context {Json : Type}.
(** [JSON.parse]: [None] when it throws. *)
Variable JSON_parse : string -> option Json.

Inductive Decoded :=
| DUndefined
| DText (s : string)
| DJson (j : Json)
| DBlob (s : string)
| DArrayBuffer (s : string)
| DStream (s : string)
| DRaw (r : Resp).

Definition json_or_text (text : string) : Decoded :=
  match JSON_parse text with Some j => DJson j | None => DText text end.

(** [parseResponse(response, responseType = 'json')]; [None] is an
    omitted argument. *)
Definition parseResponse (response : Resp) (responseType : option ResponseType)
    : Outcome Decoded :=
  match or_default responseType RT_json with
  | RT_text => Ok (DText (r_body response))
  | RT_blob => Ok (DBlob (r_body response))
  | RT_arrayBuffer => Ok (DArrayBuffer (r_body response))
  | RT_stream => Ok (DStream (r_body response))
  | RT_raw => Ok (DRaw response)
  | RT_json | RT_unknown =>
      let contentType := headers_get "content-type" (r_headers response) in
      let contentLength := headers_get "content-length" (r_headers response) in
      if match contentLength with Some l => String.eqb l "0" | None => false end
         || (r_status response =? 204) || (r_status response =? 205)
      then Ok DUndefined
      else if isJSONContentType contentType
      then Ok (json_or_text (r_body response))
      else
        let text := r_body response in
        if String.eqb text "" then Ok DUndefined
        else Ok (json_or_text text)
  end.
End ParseResponse.

(** ** Interceptor manager (src/interceptors/manager.ts) *)

(** A value returned by a reject function, as far as the pipeline tells
    values apart: [JTarget t] is a value the phase recognises (an object
    with a [url] property for the request phase, a [Response] instance for
    the response phase); [JOther] is any other non-promise value; promises
    settle to a value or reject. *)
Inductive JsVal (T : Type) :=
| JTarget (t : T)
| JOther
| JPromiseOk (v : JsVal T)
| JPromiseErr (e : Thrown).
Arguments JTarget {T} t.
Arguments JOther {T}.
Arguments JPromiseOk {T} v.
Arguments JPromiseErr {T} e.

(** [await v]: promises are flattened. *)
Fixpoint await_val {T} (v : JsVal T) : Outcome (JsVal T) :=
  match v with
  | JPromiseOk v' => await_val v'
  | JPromiseErr e => Err e
  | _ => Ok v
  end.

(** [InterceptorHandler<T>]: [fulfilled] returns the awaited result of
    [handler.fulfilled] (a throw or a rejected promise is [Err]);
    [rejected] returns what [handler.rejected] returns, or [Err] when it
    throws synchronously. *)
Record InterceptorHandler (T : Type) := mkHandler {
  fulfilled : option (T -> Outcome T);
  rejected : option (Thrown -> Outcome (JsVal T))
}.
Arguments mkHandler {T}.
Arguments fulfilled {T}.
Arguments rejected {T}.

(** [InterceptorManagerImpl<T>]: the [Map<number, handler>] as its entries
    in insertion order, and [nextId]. *)
Record InterceptorManagerImpl (T : Type) := mkManager {
  handlers : list (nat * InterceptorHandler T);
  nextId : nat
}.
Arguments mkManager {T}.
Arguments handlers {T}.
Arguments nextId {T}.

Section Manager.
Context {T : Type}.

(** [Map.prototype.set]: overwrite in place, or append a new key. *)
Fixpoint map_set (k : nat) (v : InterceptorHandler T)
    (m : list (nat * InterceptorHandler T)) : list (nat * InterceptorHandler T) :=
  match m with
  | [] => [(k, v)]
  | (k', v') :: rest =>
      if Nat.eqb k' k then (k, v) :: rest else (k', v') :: map_set k v rest
  end.

(** [Map.prototype.delete]. *)
Definition map_delete (k : nat) (m : list (nat * InterceptorHandler T))
    : list (nat * InterceptorHandler T) :=
  filter (fun p => negb (Nat.eqb (fst p) k)) m.

(** [new InterceptorManagerImpl()]. *)
Definition newManager : InterceptorManagerImpl T := mkManager [] 0.

(** [use(onFulfilled, onRejected)]: the new manager and the returned id. *)
Definition use (onFulfilled : option (T -> Outcome T))
    (onRejected : option (Thrown -> Outcome (JsVal T)))
    (self : InterceptorManagerImpl T) : InterceptorManagerImpl T * nat :=
  let id := nextId self in
  (mkManager (map_set id (mkHandler onFulfilled onRejected) (handlers self)) (S id), id).

(** [eject(id)]. *)
Definition eject (id : nat) (self : InterceptorManagerImpl T) : InterceptorManagerImpl T :=
  mkManager (map_delete id (handlers self)) (nextId self).

(** [clear()]. *)
Definition clear (self : InterceptorManagerImpl T) : InterceptorManagerImpl T :=
  mkManager [] (nextId self).

(** [getHandlers()]. *)
Definition getHandlers (self : InterceptorManagerImpl T) : list (InterceptorHandler T) :=
  map snd (handlers self).

(** [size]. *)
Definition size (self : InterceptorManagerImpl T) : nat := length (handlers self).

(** A call on a manager. *)
Inductive ManagerOp :=
| OpUse (onFulfilled : option (T -> Outcome T))
        (onRejected : option (Thrown -> Outcome (JsVal T)))
| OpEject (id : nat)
| OpClear.

(** Runs calls in order; collects the ids [use] returned and the
    registrations [(id, handler)] in the order they were made. *)
Fixpoint run_ops (ops : list ManagerOp) (self : InterceptorManagerImpl T)
    : InterceptorManagerImpl T * list nat * list (nat * InterceptorHandler T) :=
  match ops with
  | [] => (self, [], [])
  | OpUse f r :: rest =>
      let '(self', id) := use f r self in
      let '(final, ids, regs) := run_ops rest self' in
      (final, id :: ids, (id, mkHandler f r) :: regs)
  | OpEject id :: rest => run_ops rest (eject id self)
  | OpClear :: rest => run_ops rest (clear self)
  end.
End Manager.
Arguments ManagerOp : clear implicits.

(** ** Interceptor pipeline (src/interceptors/request.ts, response.ts) *)

(** [error.message] as read by the two [createInterceptorError]. *)
Definition thrown_message (e : Thrown) (dflt : string) : string :=
  match e with
  | TReq r => err_message r
  | TError _ m => m
  | _ => dflt
  end.

(** [createInterceptorError] of src/interceptors/request.ts: a plain
    object literal. *)
Definition createRequestInterceptorError (error : Thrown)
    (config : InternalRequestConfig) : Thrown :=
  TRecord (mkRequestError (thrown_message error "Request interceptor error")
             (Some ERR_BAD_REQUEST) None config).

(** [createInterceptorError] of src/interceptors/response.ts, always called
    with the current response: [createError(...)] builds a
    [RequestErrorImpl] whose status is the response's. *)
Definition createResponseInterceptorError (error : Thrown)
    (config : InternalRequestConfig) (response : Resp) : Thrown :=
  TReq (mkRequestError (thrown_message error "Response interceptor error")
          (Some (if r_status response >=? 500 then ERR_BAD_RESPONSE else ERR_BAD_REQUEST))
          (Some (r_status response)) config).

(** The recovery step of both loops: a recognised value (directly, or after
    awaiting a promise) is [Ok (Some t)]; a thrown or rejected recovery is
    [Err]; anything else is [Ok None] (fall through to rethrow). *)
Definition recover_value {T} (recovered : Outcome (JsVal T)) : Outcome (option T) :=
  match recovered with
  | Err rejectedError => Err rejectedError
  | Ok (JTarget t) => Ok (Some t)
  | Ok JOther => Ok None
  | Ok v =>
      match await_val v with
      | Ok (JTarget t) => Ok (Some t)
      | Ok _ => Ok None
      | Err rejectedError => Err rejectedError
      end
  end.

(** Handlers are paired with their index in [getHandlers()]; the second
    component of the result lists, in call order, the indices of the
    handlers whose [fulfilled] function was invoked. *)
Definition index_handlers {T} (hs : list (InterceptorHandler T))
    : list (nat * InterceptorHandler T) :=
  combine (seq 0 (length hs)) hs.

(** The [for] loop of [applyRequestInterceptors]. *)
Fixpoint request_loop (hs : list (nat * InterceptorHandler InternalRequestConfig))
    (currentConfig : InternalRequestConfig) (log : list nat)
    : Outcome InternalRequestConfig * list nat :=
  match hs with
  | [] => (Ok currentConfig, log)
  | (i, handler) :: rest =>
      match fulfilled handler with
      | None => request_loop rest currentConfig log
      | Some f =>
          let log' := log ++ [i] in
          match f currentConfig with
          | Ok result => request_loop rest result log'
          | Err error =>
              let normalized :=
                if isRequestError error then error
                else createRequestInterceptorError error currentConfig in
              match rejected handler with
              | None => (Err normalized, log')
              | Some rej =>
                  match recover_value (rej normalized) with
                  | Ok (Some recovered) => request_loop rest recovered log'
                  | Ok None => (Err normalized, log')
                  | Err rejectedError =>
                      (Err (if isRequestError rejectedError then rejectedError
                            else createRequestInterceptorError rejectedError currentConfig),
                       log')
                  end
              end
          end
      end
  end.

(** [applyRequestInterceptors(config, manager)]. *)
Definition applyRequestInterceptors (config : InternalRequestConfig)
    (manager : InterceptorManagerImpl InternalRequestConfig)
    : Outcome InternalRequestConfig * list nat :=
  request_loop (index_handlers (getHandlers manager)) config [].

(** The [for] loop of [applyResponseInterceptors]. *)
Fixpoint response_loop (config : InternalRequestConfig)
    (hs : list (nat * InterceptorHandler Resp))
    (currentResponse : Resp) (log : list nat) : Outcome Resp * list nat :=
  match hs with
  | [] => (Ok currentResponse, log)
  | (i, handler) :: rest =>
      match fulfilled handler with
      | None => response_loop config rest currentResponse log
      | Some f =>
          let log' := log ++ [i] in
          match f currentResponse with
          | Ok result => response_loop config rest result log'
          | Err error =>
              let normalized :=
                if isRequestError error then error
                else createResponseInterceptorError error config currentResponse in
              match rejected handler with
              | None => (Err normalized, log')
              | Some rej =>
                  match recover_value (rej normalized) with
                  | Ok (Some recovered) => response_loop config rest recovered log'
                  | Ok None => (Err normalized, log')
                  | Err rejectedError =>
                      (Err (if isRequestError rejectedError then rejectedError
                            else createResponseInterceptorError rejectedError config
                                   currentResponse),
                       log')
                  end
              end
          end
      end
  end.

(** [applyResponseInterceptors(response, manager, config)]: the handlers
    are taken in reverse ([getHandlers().slice().reverse()]). *)
Definition applyResponseInterceptors (response : Resp)
    (manager : InterceptorManagerImpl Resp) (config : InternalRequestConfig)
    : Outcome Resp * list nat :=
  response_loop config (rev (index_handlers (getHandlers manager))) response [].

(** ** Concrete scenarios used by the properties *)

Definition cfgGET : InternalRequestConfig := mkConfig "/test" GET None.

(** The Error Record [createResponseError] builds for a 500 response. *)
Definition error500 : Thrown :=
  TReq (mkRequestError "Request failed with status 500" (Some ERR_BAD_RESPONSE)
          (Some 500) cfgGET).


(** An execution function failing with a 500 twice, then returning the
    decoded body of the 200 response. *)
Definition fail500_twice_then_200 (k : nat) : Outcome string :=
  match k with
  | O | 1%nat => Err error500
  | _ => Ok "body of the 200 response"%string
  end.


Definition neverAborted (k : nat) : bool := false.

(** [{limit: 2, delay: 100}]. *)
Definition retry_limit2_delay100 : RetryArg :=
  RetryObject (mkRetryOptions (Given (double_of_Z 2)) Absent Absent
                 (Given (double_of_Z 100)) Absent Absent Absent Absent).




Definition has_fulfilled {T} (h : InterceptorHandler T) : bool :=
  match fulfilled h with Some _ => true | None => false end.

(** Whether the handler at position [i] of a handler list has a
    [fulfilled] function. *)
Definition fulfilled_at {T} (hs : list (InterceptorHandler T)) (i : nat) : bool :=
  match nth_error hs i with Some h => has_fulfilled h | None => false end.

(** Thrown values of the Error Record shape. *)
Definition is_error_record (e : Thrown) : bool :=
  match e with TReq _ | TRecord _ => true | _ => false end.

(** The request interceptor of the specification's scenario:
    [fulfill: () => { throw new Error('boom') }],
    [reject: (e) => ({...e.config, url: '/recovered'})]. *)
Definition boom : Thrown := TError "Error" "boom".

Definition throwing_fulfilled (c : InternalRequestConfig) : Outcome InternalRequestConfig :=
  Err boom.

Definition patch_url (e : Thrown) : Outcome (JsVal InternalRequestConfig) :=
  match e with
  | TReq r | TRecord r =>
      Ok (JTarget (mkConfig "/recovered" (method (err_config r)) (baseURL (err_config r))))
  | _ => Err e
  end.

Definition recovering_handler : InterceptorHandler InternalRequestConfig :=
  mkHandler (Some throwing_fulfilled) (Some patch_url).

(** The specification's reading of header merging, to be compared with
    [mergeHeaders].  Names are compared lower-cased and values are trimmed
    of HTTP whitespace.  The values a source gives the lower-cased name
    [n]: a record, its last defined value under that name; an array, each
    of its values under that name; a [Headers] instance, its value (for
    [set-cookie], its last value). *)
Definition last_value (vs : list string) : option string :=
  fold_left (fun _ v => Some v) vs None.

Definition record_last (n : string) (entries : list (string * option string))
    : option string :=
  fold_left (fun acc '(k, v) =>
               match v with
               | Some v' => if String.eqb (lower k) n then Some v' else acc
               | None => acc
               end) entries None.

Definition opt_list (o : option string) : list string :=
  match o with Some v => [v] | None => [] end.

Definition given_values (source : HeaderSource) (n : string) : list string :=
  match source with
  | HUndefined => []
  | HRecord entries => opt_list (option_map normalize_value (record_last n entries))
  | HArray pairs =>
      map (fun p => normalize_value (snd p))
        (filter (fun p => String.eqb (lower (fst p)) n) pairs)
  | HHeaders h =>
      opt_list (option_map normalize_value
                  (if String.eqb n "set-cookie" then last_value (header_values n h)
                   else combine_values (header_values n h)))
  end.

(** What a source then writes to the name: its values joined with [", "],
    except for [set-cookie], whose values are written one by one. *)
Definition source_writes (source : HeaderSource) (n : string) : list string :=
  let vs := given_values source n in
  if String.eqb n "set-cookie" then vs else opt_list (combine_values vs).

(** Writing a value: an empty one deletes the name, any other sets it to
    the value trimmed. *)
Definition write_spec (acc : option string) (v : string) : option string :=
  if String.eqb v "" then None else Some (normalize_value v).

(** Sources folded left to right, each writing over the previous ones. *)
Definition merge_spec (sources : list HeaderSource) (k : string) : option string :=
  fold_left (fun acc source => fold_left write_spec (source_writes source (lower k)) acc)
    sources None.

(** A record or an array source throws when one of its (defined) entries
    has an invalid name or an invalid trimmed value. *)
Definition source_ok (source : HeaderSource) : bool :=
  match source with
  | HRecord entries =>
      forallb (fun '(k, v) =>
                 match v with
                 | Some v' => valid_name k && valid_value (normalize_value v')
                 | None => true
                 end) entries
  | HArray pairs =>
      forallb (fun '(k, v) => valid_name k && valid_value (normalize_value v)) pairs
  | _ => true
  end.

(** What holds of every platform [Headers] instance: valid lower-cased
    names and valid values. *)
Definition entry_wf (p : string * string) : bool :=
  valid_name (fst p) && String.eqb (lower (fst p)) (fst p) && valid_value (snd p).

Definition headers_wf (h : Headers) : bool := forallb entry_wf h.

(** The block [sort_and_combine] gives a name. *)
Definition name_block (h : Headers) (n : string) : list (string * string) :=
  if String.eqb n "set-cookie"
  then map (fun v => (n, v)) (header_values n h)
  else match combine_values (header_values n h) with
       | Some v => [(n, v)]
       | None => []
       end.

(** [n] slashes. *)
Fixpoint slashes (n : nat) : string :=
  match n with O => EmptyString | S n' => String slash (slashes n') end.

Definition ends_with_slash (s : string) : Prop := exists s', s = (s' ++ "/")%string.

Definition starts_with_slash (s : string) : Prop := exists s', s = String slash s'.

(** A 204 response declaring a JSON content type, and a [JSON.parse] that
    always throws. *)
Definition response204 : Resp :=
  mkResp 204 [("content-type", "application/json")%string] "".

Definition parse_nothing (s : string) : option unit := None.

(** [l1] is [l2] with some elements left out, the others in the same
    order. *)
Inductive ordered_sublist {A : Type} : list A -> list A -> Prop :=
| osl_nil : ordered_sublist [] []
| osl_skip x l1 l2 : ordered_sublist l1 l2 -> ordered_sublist l1 (x :: l2)
| osl_keep x l1 l2 : ordered_sublist l1 l2 -> ordered_sublist (x :: l1) (x :: l2).

(** A manager's keys are distinct and below [nextId]. *)
Definition manager_inv {T : Type} (s : InterceptorManagerImpl T) : Prop :=
  NoDup (map fst (handlers s)) /\ (forall k, In k (map fst (handlers s)) -> (k < nextId s)%nat).

(** The indices of the handlers with a [fulfilled] function, in list order. *)
Definition fulfilled_indices {T} (L : list (nat * InterceptorHandler T)) : list nat :=
  map fst (filter (fun p => has_fulfilled (snd p)) L).

(** ** Error construction and classification (src/core/error.ts) *)

(** The decimal digits of an integer [n]: [String(n)] when [|n| < 10^21]
    (beyond, [String] switches to exponent notation, and [n] may not be
    a double).  It is applied to HTTP status codes. *)
Fixpoint digits_aux (fuel : nat) (n : Z) (acc : string) : string :=
  match fuel with
  | O => acc
  | S f =>
      let acc' := String (ascii_of_nat (48 + Z.to_nat (n mod 10))) acc in
      if n <? 10 then acc' else digits_aux f (n / 10) acc'
  end.

Definition Z_to_string (n : Z) : string :=
  if n <? 0 then "-" ++ digits_aux (S (Z.to_nat (Z.log2 (- n)))) (- n) ""
  else digits_aux (S (Z.to_nat (Z.log2 n))) n "".

(** [s || d] for a string [s]. *)
Definition or_if_empty (s d : string) : string :=
  if String.eqb s "" then d else s.

(** [createError(message, config, code, request, response)]: a
    [RequestErrorImpl]; its [status] is the response's when a response is
    given.  [request] and [data] are not modelled. *)
Definition createError (message : string) (config : InternalRequestConfig)
    (code : option ErrorCode) (response : option Resp) : Thrown :=
  TReq (mkRequestError message code
          (match response with Some r => Some (r_status r) | None => None end) config).

(** [createNetworkError(error, config, request)] for an [Error] with the
    given [name] and [message]. *)
Definition createNetworkError (name message : string) (config : InternalRequestConfig)
    : Thrown :=
  if String.eqb name "AbortError" then
    createError (or_if_empty message "Request aborted") config (Some ERR_CANCELED) None
  else if String.eqb name "TimeoutError" || includes "timeout" message then
    createError (or_if_empty message "Request timeout") config (Some ERR_TIMEOUT) None
  else
    createError (or_if_empty message "Network error") config (Some ERR_NETWORK) None.

(** [createResponseError(response, config, request)]; [statusText] is the
    response's [statusText] (not part of [Resp]).  The parsed body stored
    in [data] is not modelled. *)
Definition createResponseError (response : Resp) (statusText : string)
    (config : InternalRequestConfig) : Thrown :=
  let status := r_status response in
  let code := if status >=? 500 then ERR_BAD_RESPONSE else ERR_BAD_REQUEST in
  let message := ("Request failed with status " ++ Z_to_string status ++
                  (if String.eqb statusText "" then "" else ": " ++ statusText))%string in
  createError message config (Some code) (Some response).

(** [isNetworkError]. *)
Definition isNetworkError (error : Thrown) : bool :=
  isRequestError error && code_is (error_code error) ERR_NETWORK.

(** [isTimeoutError]. *)
Definition isTimeoutError (error : Thrown) : bool :=
  isRequestError error && code_is (error_code error) ERR_TIMEOUT.

(** [isClientError]. *)
Definition isClientError (error : Thrown) : bool :=
  isRequestError error && code_is (error_code error) ERR_BAD_REQUEST.

(** [isServerError]. *)
Definition isServerError (error : Thrown) : bool :=
  isRequestError error && code_is (error_code error) ERR_BAD_RESPONSE.

(** [getErrorStatus]. *)
Definition getErrorStatus (error : Thrown) : option Z :=
  if isRequestError error then error_status error else None.

(** ** Error interceptors (src/unnamed/part_011) *)

(** [createInterceptorError(error, config)] of the response interceptors,
    called without a response: the code is [ERR_BAD_REQUEST] and there is
    no status. *)
Definition createErrorInterceptorError (error : Thrown) (config : InternalRequestConfig)
    : Thrown :=
  createError (thrown_message error "Response interceptor error") config
    (Some ERR_BAD_REQUEST) None.

(** The [for] loop of [applyErrorInterceptors]. *)
Fixpoint error_loop (config : InternalRequestConfig) (hs : list (InterceptorHandler Resp))
    (error : Thrown) : Outcome Resp :=
  match hs with
  | [] => Err error
  | handler :: rest =>
      match rejected handler with
      | None => error_loop config rest error
      | Some rej =>
          match recover_value (rej error) with
          | Ok (Some recovered) => Ok recovered
          | Ok None => error_loop config rest error
          | Err rejectedError =>
              error_loop config rest
                (if isRequestError rejectedError then rejectedError
                 else createErrorInterceptorError rejectedError config)
          end
      end
  end.

(** [applyErrorInterceptors(error, manager, config)]: the handlers are
    taken in reverse ([getHandlers().slice().reverse()]). *)
Definition applyErrorInterceptors (error : Thrown) (manager : InterceptorManagerImpl Resp)
    (config : InternalRequestConfig) : Outcome Resp :=
  error_loop config (rev (getHandlers manager)) error.

(** Running only the [fulfilled] functions, in list order, stopping at the
    first one that throws: the pipelines' behaviour when nothing throws. *)
Fixpoint run_fulfilled {T} (hs : list (InterceptorHandler T)) (x : T) : Outcome T :=
  match hs with
  | [] => Ok x
  | h :: rest =>
      match fulfilled h with
      | None => run_fulfilled rest x
      | Some f =>
          match f x with
          | Ok y => run_fulfilled rest y
          | Err e => Err e
          end
      end
  end.

(** Copying interceptors as [extend()] and [clone()] of the client do
    (src/core/error.ts): [forEach] over the source manager, [use] on the
    target. *)
Definition copy_interceptors {T} (src dst : InterceptorManagerImpl T)
    : InterceptorManagerImpl T :=
  fold_left (fun d handler => fst (use (fulfilled handler) (rejected handler) d))
    (getHandlers src) dst.

(** ** Cancellation (src/features/cancel.ts, cancel part) *)

(** [CancelImpl]: its [message]. *)
Record Cancel := mkCancel { cancel_message : option string }.

(** [CancelImpl.prototype.toString]. *)
Definition Cancel_toString (c : Cancel) : string :=
  or_default (cancel_message c) "Request canceled"%string.

(** A value [isCancel] and [isCancellationError] may be given: a
    [CancelImpl] or any other thrown value.  A [DOMException] is an
    [Error] instance, a [TError] here. *)
Inductive JsValue :=
| VCancel (c : Cancel)
| VThrown (t : Thrown).

(** [isCancel]. *)
Definition isCancel (value : JsValue) : bool :=
  match value with VCancel _ => true | VThrown _ => false end.

(** [isCancellationError]: the [DOMException] and the [Error] test coincide
    on this model. *)
Definition isCancellationError (error : JsValue) : bool :=
  if isCancel error then true
  else match error with
       | VThrown t => is_error_instance t && String.eqb (error_name t) "AbortError"
       | VCancel _ => false
       end.

(** A [CancelTokenImpl] together with the [AbortController]s that
    [cancelTokenToAbortController] made from it:
    - [reason] is the token's [reason];
    - [resolutions] lists the values [resolvePromise] was called with;
    - [controllers] holds each controller's abort reason ([None]: not
      aborted), in creation order;
    - [reactions] lists the controllers whose [abort] is registered with
      [token.promise.then].  Promise reactions run once the microtask queue
      drains; the model shows the state after that. *)
Record CancelWorld := mkCancelWorld {
  reason : option Cancel;
  resolutions : list Cancel;
  controllers : list (option Cancel);
  reactions : list nat
}.

(** [CancelToken.source()]: a token nobody has canceled yet. *)
Definition cancel_source : CancelWorld := mkCancelWorld None [] [] [].

(** [controller.abort(r)] on the [i]-th controller: the first reason
    sticks. *)
Fixpoint abort_controller (r : Cancel) (i : nat) (cs : list (option Cancel))
    : list (option Cancel) :=
  match cs, i with
  | [], _ => []
  | c :: rest, O => match c with Some _ => c | None => Some r end :: rest
  | c :: rest, S i' => c :: abort_controller r i' rest
  end.

(** [token.throwIfRequested()]: [inr reason] when it throws. *)
Definition throwIfRequested (w : CancelWorld) : unit + Cancel :=
  match reason w with Some r => inr r | None => inl tt end.

(** [token._cancel(message)] (the [cancel] function of the source), then
    the promise reactions. *)
Definition cancel_token (message : option string) (w : CancelWorld) : CancelWorld :=
  match reason w with
  | Some _ => w
  | None =>
      let r := mkCancel message in
      mkCancelWorld (Some r) (resolutions w ++ [r])
        (fold_left (fun cs i => abort_controller r i cs) (reactions w) (controllers w))
        (reactions w)
  end.

(** [cancelTokenToAbortController(token)]. *)
Definition cancelTokenToAbortController (w : CancelWorld) : CancelWorld :=
  let i := length (controllers w) in
  match reason w with
  | Some r => mkCancelWorld (reason w) (resolutions w) (controllers w ++ [Some r]) (reactions w)
  | None => mkCancelWorld (reason w) (resolutions w) (controllers w ++ [None]) (reactions w ++ [i])
  end.

Inductive CancelOp := CCancel (message : option string) | CBridge.

Definition run_cancel_ops (ops : list CancelOp) (w : CancelWorld) : CancelWorld :=
  fold_left (fun w op => match op with
                         | CCancel m => cancel_token m w
                         | CBridge => cancelTokenToAbortController w
                         end) ops w.

(** The message of the first [cancel] call of a sequence, if any. *)
Fixpoint first_cancel (ops : list CancelOp) : option (option string) :=
  match ops with
  | [] => None
  | CCancel m :: _ => Some m
  | CBridge :: rest => first_cancel rest
  end.

(** The state a token and its controllers are always in. *)
Definition cancel_inv (w : CancelWorld) : Prop :=
  match reason w with
  | None => controllers w = repeat None (length (controllers w))
            /\ reactions w = seq 0 (length (controllers w)) /\ resolutions w = []
  | Some r => controllers w = repeat (Some r) (length (controllers w))
              /\ resolutions w = [r]
  end.

(** A response handler that always throws. *)
Definition throwing_response_fulfilled (r : Resp) : Outcome Resp := Err boom.

(** ** Header lookup helpers (src/serializers/headers.ts) *)

(** Strings whose bytes are all ASCII: on them [toLowerCase] is [lower]. *)
Definition ascii_string (s : string) : bool :=
  forallb (fun c => (nat_of_ascii c <? 128)%nat) (list_ascii_of_string s).


Section GetHeader.

(** [String.prototype.toLowerCase]. *)
Variable toLowerCase : string -> string.

(** [getHeader(headers, key)].  [None] is [undefined]; a record value that
    is [undefined] is returned as such. *)
Definition getHeader (headers : HeaderSource) (key : string) : Outcome (option string) :=
  match headers with
  | HUndefined => Ok None
  | HHeaders h => Headers_get key h
  | HArray pairs =>
      let lowerKey := toLowerCase key in
      match find (fun e => String.eqb (toLowerCase (fst e)) lowerKey) pairs with
      | Some (_, v) => Ok (Some v)
      | None => Ok None
      end
  | HRecord entries =>
      let lowerKey := toLowerCase key in
      match find (fun e => String.eqb (toLowerCase (fst e)) lowerKey) entries with
      | Some (_, v) => Ok v
      | None => Ok None
      end
  end.

End GetHeader.

(** ** Query strings (src/utils/url.ts, buildURL) *)

(** Strings are their UTF-8 bytes.  [encodeURIComponent] keeps the ASCII
    letters and digits and [- _ . ! ~ * ' ( )], and writes every other byte
    as [%XX] with upper-case hexadecimal digits. *)
Definition uri_unreserved (c : ascii) : bool :=
  is_alpha c || is_digit c ||
  existsb (Ascii.eqb c) ["-"; "_"; "."; "!"; "~"; "*"; "'"; "("; ")"]%char.

Definition hex_digit (n : nat) : ascii :=
  if (n <? 10)%nat then ascii_of_nat (48 + n) else ascii_of_nat (55 + n).

Fixpoint encodeURIComponent (s : string) : string :=
  match s with
  | EmptyString => EmptyString
  | String c rest =>
      if uri_unreserved c then String c (encodeURIComponent rest)
      else String "%" (String (hex_digit (nat_of_ascii c / 16))
             (String (hex_digit (nat_of_ascii c mod 16)) (encodeURIComponent rest)))
  end.

(** A parameter value, by the branch of the loop it takes, with what the
    conversions that branch calls return or throw:
    - [PNullish]: [null] or [undefined], skipped;
    - [PArray items]: an array; [None] for a [null] or [undefined] item,
      skipped, and [Some s] for any other item, [s] being [String(item)]
      (which throws when the item's [toString] does);
    - [PDate iso]: a [Date]; [iso] is [value.toISOString()], a [RangeError]
      for an invalid date;
    - [PObject json]: any other object; [json] is [JSON.stringify(value)],
      which throws on a cycle or a BigInt, and is [None] when it returns
      [undefined] (then [encodeURIComponent] gets ['undefined']);
    - [PPrimitive s]: any other value; [s] is [String(value)].
    Strings are their UTF-8 bytes: they hold no lone surrogate, the one
    input on which [encodeURIComponent] throws. *)
Inductive ParamValue :=
| PNullish
| PArray (items : list (option (Outcome string)))
| PDate (iso : Outcome string)
| PObject (json : Outcome (option string))
| PPrimitive (s : Outcome string).

(** The [params] argument: absent, a string, a [URLSearchParams] (given by
    the text its [toString()] returns), or a record (entries in property
    order). *)
Inductive URLParams :=
| PUndefined
| PString (s : string)
| PSearchParams (serialized : string)
| PRecord (entries : list (string * ParamValue)).

(** [`${encodeURIComponent(key)}=${encodeURIComponent(value)}`]. *)
Definition param_pair (key value : string) : string :=
  (encodeURIComponent key ++ "=" ++ encodeURIComponent value)%string.

(** The pushes of the inner loop over an array, in order, or the first
    exception. *)
Fixpoint array_entries (key : string) (items : list (option (Outcome string)))
    : Outcome (list string) :=
  match items with
  | [] => Ok []
  | None :: rest => array_entries key rest
  | Some item :: rest =>
      obind item (fun s => obind (array_entries key rest) (fun l => Ok (param_pair key s :: l)))
  end.

(** The pushes for one entry of the record. *)
Definition value_entries (key : string) (value : ParamValue) : Outcome (list string) :=
  match value with
  | PNullish => Ok []
  | PArray items => array_entries key items
  | PDate iso => obind iso (fun s => Ok [param_pair key s])
  | PObject json =>
      obind json (fun j => Ok [param_pair key (match j with Some s => s | None => "undefined" end)])
  | PPrimitive v => obind v (fun s => Ok [param_pair key s])
  end.

(** The [entries] array built by the loop over [Object.entries(params)],
    or the exception of the first conversion that throws. *)
Fixpoint param_entries (params : list (string * ParamValue)) : Outcome (list string) :=
  match params with
  | [] => Ok []
  | (key, value) :: rest =>
      obind (value_entries key value)
        (fun l => obind (param_entries rest) (fun l' => Ok (l ++ l')))
  end.

(** [Array.prototype.join]. *)
Fixpoint join (sep : string) (l : list string) : string :=
  match l with
  | [] => ""%string
  | [x] => x
  | x :: rest => (x ++ sep ++ join sep rest)%string
  end.

(** [(url.slice(0, hashIndex), url.slice(hashIndex))] with
    [hashIndex = url.indexOf('#')], or [(url, '')] without a ['#']. *)
Fixpoint split_at_hash (s : string) : string * string :=
  match s with
  | EmptyString => (EmptyString, EmptyString)
  | String c rest =>
      if Ascii.eqb c "#" then (EmptyString, s)
      else let '(b, h) := split_at_hash rest in (String c b, h)
  end.

(** [buildURL(url, params)]: the URL, or the exception a conversion of a
    parameter value throws. *)
Definition buildURL (url : string) (params : URLParams) : Outcome string :=
  match params with
  | PUndefined => Ok url
  | _ =>
      obind (match params with
             | PString s => Ok s
             | PSearchParams s => Ok s
             | PRecord es => obind (param_entries es) (fun entries => Ok (join "&" entries))
             | PUndefined => Ok ""%string
             end) (fun serializedParams =>
      if String.eqb serializedParams "" then Ok url
      else
        let '(baseUrl, hash) := split_at_hash url in
        let separator := if includes "?" baseUrl then "&"%string else "?"%string in
        Ok (baseUrl ++ separator ++ serializedParams ++ hash)%string)
  end.

(** Whether a string contains the character [c]. *)
Fixpoint has_char (c : ascii) (s : string) : bool :=
  match s with
  | EmptyString => false
  | String c' rest => Ascii.eqb c' c || has_char c rest
  end.

(** ** Integer parsing (parseInt(s, 10); src/core/response.ts, src/features/cancel.ts) *)

Definition bytes (l : list nat) : string := string_of_list_ascii (map ascii_of_nat l).

(** The code points [parseInt] skips before the number (WhiteSpace and
    LineTerminator), as UTF-8 byte sequences. *)
Definition js_white_space : list string :=
  map bytes
    ([[9]; [10]; [11]; [12]; [13]; [32]; [194; 160]; [225; 154; 128]]
     ++ map (fun k => [226; 128; k]) (seq 128 11)
     ++ [[226; 128; 168]; [226; 128; 169]; [226; 128; 175]; [226; 129; 159];
         [227; 128; 128]; [239; 187; 191]])%nat.

(** [TrimString(s, start)]; [fuel] bounds the number of code points
    removed. *)
Fixpoint trim_start (fuel : nat) (s : string) : string :=
  match fuel with
  | O => s
  | S f =>
      match find (fun w => prefix w s) js_white_space with
      | Some w => trim_start f (substring (String.length w) (String.length s) s)
      | None => s
      end
  end.

(** The longest prefix of decimal digits. *)
Fixpoint digit_prefix (s : string) : string :=
  match s with
  | String c rest => if is_digit c then String c (digit_prefix rest) else EmptyString
  | EmptyString => EmptyString
  end.

(** The value of a string of decimal digits, after [acc]. *)
Fixpoint digits_value_acc (s : string) (acc : Z) : Z :=
  match s with
  | EmptyString => acc
  | String c rest => digits_value_acc rest (10 * acc + (Z.of_nat (nat_of_ascii c) - 48))
  end.

(** A JavaScript number, as far as the code computes them here: [NaN],
    the infinities, [-0], and the other values, all of which are integers
    in this code ([JInt 0] is [+0]).  The retry engine, whose numbers come
    from the user and may be fractions, uses the full [Double] instead. *)
Inductive JsNumber := JNaN | JPosInf | JNegInf | JNegZero | JInt (z : Z).

(** Rounding a positive integer above [2^53] to 53 significant bits, to
    nearest with ties to even; [None] when the result is [2^1024] or more,
    out of the range of doubles. *)
Definition round_magnitude (m : Z) : option Z :=
  let shift := Z.log2 m - 52 in
  let q := m / 2 ^ shift in
  let r := m mod 2 ^ shift in
  let half := 2 ^ (shift - 1) in
  let q' := if (r >? half) || ((r =? half) && Z.odd q) then q + 1 else q in
  let v := q' * 2 ^ shift in
  if v >=? 2 ^ 1024 then None else Some v.

(** The Number value for an integer (IEEE 754 round to nearest, ties to
    even); every integer of magnitude up to [2^53] is a double. *)
Definition Number_value (z : Z) : JsNumber :=
  if Z.abs z <=? 2 ^ 53 then JInt z
  else match round_magnitude (Z.abs z) with
       | Some v => JInt (Z.sgn z * v)
       | None => if z <? 0 then JNegInf else JPosInf
       end.

(** [parseInt(input, 10)].  It returns [-0] for a zero with a minus sign,
    and rounds the exact value of the digits (ECMA-262 lets an
    implementation approximate beyond the 20th significant digit). *)
Definition parseInt10 (input : string) : JsNumber :=
  let S := trim_start (String.length input) input in
  let '(sign, rest) :=
    match S with
    | String c r =>
        if Ascii.eqb c "-" then (-1, r)
        else if Ascii.eqb c "+" then (1, r)
        else (1, S)
    | EmptyString => (1, S)
    end in
  let Z := digit_prefix rest in
  if String.eqb Z "" then JNaN
  else if digits_value_acc Z 0 =? 0 then (if sign =? -1 then JNegZero else JInt 0)
  else Number_value (sign * digits_value_acc Z 0).

(** [getResponseSize(response)]. *)
Definition getResponseSize (response : Resp) : JsNumber :=
  match headers_get "content-length" (r_headers response) with
  | Some contentLength =>
      if String.eqb contentLength "" then JInt 0 else parseInt10 contentLength
  | None => JInt 0
  end.

(** [x * 1000] for a number [x]. *)
Definition times_1000 (x : JsNumber) : JsNumber :=
  match x with
  | JInt z => Number_value (z * 1000)
  | other => other
  end.

(** [x > 0] for a number [x]. *)
Definition js_positive (x : JsNumber) : bool :=
  match x with
  | JInt z => z >? 0
  | JPosInf => true
  | _ => false
  end.

Section RetryAfter.

(** [new Date(s).getTime()] ([None] for [NaN]) and [Date.now()]: time
    values, which are integers. *)
Variable Date_parse : string -> option Z.
Variable now : Z.

(** [getRetryAfterDelay(response)]; [None] is [undefined]. *)
Definition getRetryAfterDelay (response : Resp) : option JsNumber :=
  match headers_get "Retry-After" (r_headers response) with
  | None => None
  | Some retryAfter =>
      if String.eqb retryAfter "" then None
      else
        match parseInt10 retryAfter with
        | JNaN =>
            match Date_parse retryAfter with
            | Some t =>
                let delay := Number_value (t - now) in
                if js_positive delay then Some delay else None
            | None => None
            end
        | seconds => Some (times_1000 seconds)
        end
  end.

End RetryAfter.

(** ** Request configuration (src/core/request.ts, mergeConfig) *)

(** The fields of [ClientConfig] and [RequestOptions] that [mergeConfig]
    reads by name; the others go through [deepMerge] into fields the model
    does not keep. *)
Record ClientConfig := mkClientConfig {
  cc_baseURL : option string;
  cc_headers : HeaderSource
}.

Record RequestOptions := mkRequestOptions {
  ro_url : option string;
  ro_method : option string;
  ro_baseURL : option string;
  ro_headers : HeaderSource
}.

(** The fields of the [InternalRequestConfig] that [mergeConfig] sets by
    name; the others come from [deepMerge] and are not kept. *)
Record MergedConfig := mkMergedConfig {
  mc_url : string;
  mc_method : string;
  mc_headers : Headers;
  mc_baseURL : option string
}.

Section MergeConfig.

(** [String.prototype.toUpperCase]. *)
Variable toUpperCase : string -> string.

(** [deepMerge(DEFAULT_CONFIG, defaults, options)] (src/utils/merge.ts,
    not part of the sources): whether it returns or what it throws; the
    fields it merges are not kept. *)
Variable deepMerge : ClientConfig -> RequestOptions -> Outcome unit.

(** [mergeConfig(defaults, options)]: the fields it sets, or the exception
    [deepMerge] or [mergeHeaders] throws.  The upper-cased method is cast
    to [HttpMethod] unchecked, so it is kept as a string. *)
Definition mergeConfig (defaults : ClientConfig) (options : RequestOptions)
    : Outcome MergedConfig :=
  obind (deepMerge defaults options) (fun _ =>
  obind (mergeHeaders [cc_headers defaults; ro_headers options]) (fun headers =>
  Ok (mkMergedConfig (or_default (ro_url options) ""%string)
                     (toUpperCase (or_default (ro_method options) "GET"%string))
                     headers
                     (cc_baseURL defaults)))).

End MergeConfig.

(** ** Properties *)

(** *** JavaScript numbers *)

Lemma pow2_pos (s : Z) : 0 <= s -> 0 < 2 ^ s.
Proof. intros; apply Z.pow_pos_nonneg; lia. Qed.


Lemma rne_scale (X s j : Z) : 0 <= s -> 0 <= j ->
  rne (X * 2 ^ j) (s + j) = rne X s.
Proof.
  intros Hs Hj; unfold rne.
  assert (P : 2 ^ (s + j) = 2 ^ s * 2 ^ j) by (apply Z.pow_add_r; lia).
  assert (Hs' := pow2_pos s Hs); assert (Hj' := pow2_pos j Hj).
  rewrite P.
  rewrite Z.div_mul_cancel_r by lia.
  rewrite Z.mul_mod_distr_r by lia.
  replace (2 ^ s * 2 ^ j <? 2 * (X mod 2 ^ s * 2 ^ j)) with (2 ^ s <? 2 * (X mod 2 ^ s)).
  2:{ destruct (Z.ltb_spec (2 ^ s) (2 * (X mod 2 ^ s)));
      destruct (Z.ltb_spec (2 ^ s * 2 ^ j) (2 * (X mod 2 ^ s * 2 ^ j))); nia. }
  replace (2 * (X mod 2 ^ s * 2 ^ j) =? 2 ^ s * 2 ^ j) with (2 * (X mod 2 ^ s) =? 2 ^ s).
  2:{ destruct (Z.eqb_spec (2 * (X mod 2 ^ s)) (2 ^ s));
      destruct (Z.eqb_spec (2 * (X mod 2 ^ s * 2 ^ j)) (2 ^ s * 2 ^ j)); nia. }
  reflexivity.
Qed.

Lemma rne_exact (X s : Z) : 0 <= s -> rne (X * 2 ^ s) s = X.
Proof.
  intros Hs; unfold rne.
  assert (Hs' := pow2_pos s Hs).
  rewrite Z.div_mul by lia; rewrite Z.mod_mul by lia.
  replace (2 ^ s <? 2 * 0) with false by (symmetry; apply Z.ltb_ge; lia).
  replace (2 * 0 =? 2 ^ s) with false by (symmetry; apply Z.eqb_neq; lia).
  reflexivity.
Qed.





Lemma round_unit_scale (m e j : Z) : 0 < m -> 0 <= j ->
  round_unit (m * 2 ^ j) (e - j) = round_unit m e.
Proof.
  intros Hm Hj; unfold round_unit.
  rewrite Z.log2_mul_pow2 by lia. f_equal; lia.
Qed.

Lemma double_round_scale (neg : bool) (m e j : Z) : 0 <= m -> 0 <= j ->
  double_round neg (m * 2 ^ j) (e - j) = double_round neg m e.
Proof.
  intros Hm Hj; unfold double_round.
  assert (Hj' := pow2_pos j Hj).
  destruct (Z.leb_spec m 0) as [H0|H0].
  - replace m with 0 by lia; reflexivity.
  - replace (m * 2 ^ j <=? 0) with false by (symmetry; apply Z.leb_gt; nia).
    rewrite round_unit_scale by lia.
    set (u := round_unit m e).
    f_equal.
    destruct (Z.leb_spec u (e - j)); destruct (Z.leb_spec u e); try lia.
    + rewrite <- Z.mul_assoc, <- Z.pow_add_r by lia. f_equal; f_equal; lia.
    + replace (m * 2 ^ j) with (m * 2 ^ (e - u) * 2 ^ (u - (e - j))).
      * apply rne_exact; lia.
      * rewrite <- Z.mul_assoc, <- Z.pow_add_r by lia. f_equal; f_equal; lia.
    + replace (u - (e - j)) with ((u - e) + j) by lia.
      apply rne_scale; lia.
Qed.


Lemma fin_value_at_lower (neg : bool) (m : N) (e E F : Z) : F <= E -> E <= e ->
  fin_value_at neg m e F = fin_value_at neg m e E * 2 ^ (E - F).
Proof.
  intros H1 H2; unfold fin_value_at.
  rewrite <- Z.mul_assoc, <- Z.pow_add_r by lia. f_equal; f_equal; lia.
Qed.

Lemma d_compare_fin_at (a : bool) (m : N) (e : Z) (b : bool) (n : N) (f F : Z) :
  F <= Z.min e f ->
  d_compare (DFin a m e) (DFin b n f)
  = Some (Z.compare (fin_value_at a m e F) (fin_value_at b n f F)).
Proof.
  intros HF; simpl; f_equal.
  rewrite (fin_value_at_lower a m e (Z.min e f) F), (fin_value_at_lower b n f (Z.min e f) F)
    by lia.
  apply Zmult_compare_compat_r.
  apply Z.lt_gt, pow2_pos; lia.
Qed.














Lemma d_compare_sym (x y : Double) :
  d_compare y x = option_map CompOpp (d_compare x y).
Proof.
  destruct x as [|a|a m e], y as [|b|b n f]; try reflexivity.
  - destruct a, b; reflexivity.
  - destruct a; reflexivity.
  - destruct b; reflexivity.
  - rewrite (d_compare_fin_at b n f a m e (Z.min e f)) by lia.
    simpl; f_equal. apply Z.compare_antisym.
Qed.

Lemma d_compare_some (x y : Double) : x <> DNaN -> y <> DNaN ->
  exists c, d_compare x y = Some c.
Proof.
  intros Hx Hy; destruct x, y; try congruence; cbn [d_compare]; eauto.
Qed.




Lemma d_lt_le (x y : Double) : d_lt x y = true -> d_le x y = true.
Proof. unfold d_lt, d_le; destruct (d_compare x y) as [[]|]; auto. Qed.

Lemma d_le_iff_not_lt (x y : Double) : x <> DNaN -> y <> DNaN ->
  d_le y x = negb (d_lt x y).
Proof.
  intros Hx Hy; destruct (d_compare_some x y Hx Hy) as [c Hc].
  unfold d_le, d_lt; rewrite (d_compare_sym x y), Hc; destruct c; reflexivity.
Qed.

Lemma d_le_total (x y : Double) : x <> DNaN -> y <> DNaN ->
  d_le x y = true \/ d_le y x = true.
Proof.
  intros Hx Hy; rewrite (d_le_iff_not_lt x y Hx Hy).
  destruct (d_lt x y) eqn:E; [left; apply d_lt_le|right]; auto.
Qed.
















Lemma d_lt_irrefl (x : Double) : d_lt x x = false.
Proof.
  destruct x as [|[]|s m e]; try reflexivity.
  unfold d_lt; simpl; rewrite Z.compare_refl; reflexivity.
Qed.



Lemma double_of_Z_nonneg_eq (z : Z) : 0 <= z -> double_of_Z z = double_round false z 0.
Proof.
  intros H; unfold double_of_Z.
  rewrite (proj2 (Z.ltb_ge z 0) H), Z.abs_eq by exact H; reflexivity.
Qed.





(** *** Retry engine *)

Lemma HttpMethod_beq_true (a b : HttpMethod) : HttpMethod_beq a b = true <-> a = b.
Proof. destruct a, b; simpl; split; congruence. Qed.

Lemma includes_method_In (l : list HttpMethod) (m : HttpMethod) :
  includes_method l m = true <-> In m l.
Proof.
  unfold includes_method; rewrite existsb_exists; split.
  - intros (x & Hx & Heq); apply HttpMethod_beq_true in Heq; subst; exact Hx.
  - intros H; exists m; split; [exact H | apply HttpMethod_beq_true; reflexivity].
Qed.

Lemma includes_Z_In (l : list Z) (s : Z) : includes_Z l s = true <-> In s l.
Proof.
  unfold includes_Z; rewrite existsb_exists; split.
  - intros (x & Hx & Heq); apply Z.eqb_eq in Heq; subst; exact Hx.
  - intros H; exists s; split; [exact H | apply Z.eqb_refl].
Qed.

Lemma code_is_canceled (c : option ErrorCode) :
  code_is c ERR_CANCELED = true <-> c = Some ERR_CANCELED.
Proof. destruct c as [[]|]; simpl; split; congruence. Qed.

Lemma status_check_false (st : option Z) (codes : list Z) :
  match st with Some s => negb (includes_Z codes s) | None => false end = true
  <-> exists s, st = Some s /\ ~ In s codes.
Proof.
  destruct st as [s|]; split.
  - intros H; exists s; split; [reflexivity|].
    rewrite <- includes_Z_In; destruct (includes_Z codes s); [discriminate|congruence].
  - intros (s' & Hs & Hn); injection Hs as <-.
    rewrite <- includes_Z_In in Hn; destruct (includes_Z codes s); [contradiction|reflexivity].
  - discriminate.
  - intros (s' & Hs & _); discriminate.
Qed.






Lemma d_eqb_le (x y : Double) : d_eqb x y = true -> d_le y x = true.
Proof.
  unfold d_eqb, d_le; rewrite (d_compare_sym x y).
  destruct (d_compare x y) as [[]|]; simpl; congruence.
Qed.















(** [double_of_Z (2 ^ k)] is [Math.pow(2, k)]. *)
Lemma double_of_Z_pow2 (k : Z) : 0 <= k -> double_of_Z (2 ^ k) = Math_pow2 k.
Proof.
  intros Hk.
  rewrite double_of_Z_nonneg_eq by (apply Z.pow_nonneg; lia).
  unfold Math_pow2.
  rewrite <- (double_round_scale false 1 k k) by lia.
  rewrite Z.mul_1_l, Z.sub_diag; reflexivity.
Qed.




Lemma shouldRetry_TReq (r : RequestError) (n : Z) (P : RetryConfig) (m : HttpMethod) :
  shouldRetry (TReq r) n P m
  = if d_ge (double_of_Z n) (limit P) then Ok false
    else if code_is (err_code r) ERR_CANCELED then Ok false
    else if negb (includes_method (methods P) m) then Ok false
    else if (match err_status r with
             | Some s => negb (includes_Z (statusCodes P) s)
             | None => false
             end) then Ok false
    else retryCondition P (TReq r).
Proof.
  unfold shouldRetry; destruct (retryCondition P (TReq r)) as [[]|]; reflexivity.
Qed.


(** C1 (code_bug): with [{limit: 2, delay: 100}] and an execution function
    that fails with a retryable 500 twice and then returns the 200 body,
    [withRetry] does not reach the third invocation: [shouldRetry] sees
    attempt 2 >= limit 2 after the second failure, so the call rejects
    with the second 500 error after two invocations and one delay of 100.
    Whatever the bound on invocations: below 2 the loop has not settled,
    from 2 on it has settled that way. *)
Theorem withRetry_limit2_stops_after_two_calls :
  forall fuel,
    withRetry fuel fail500_twice_then_200 retry_limit2_delay100 cfgGET neverAborted
    = if (fuel <? 2)%nat then None
      else Some (mkRetryRun (Err error500) 2 [double_of_Z 100]).
Proof.
  intros [|[|fuel]]; vm_compute; reflexivity.
Qed.

(** C2: for every retry policy, failed-attempt count [n], method [m] and
    Error Record [e], [shouldRetry] returns false exactly when [n >= limit],
    or [e] is CANCELED, or [m] is not a retryable method, or [e] has a
    status outside the retryable status codes, or the custom predicate
    returns false for [e]; a CANCELED error is never retried, and an error
    without a status is not blocked by the status check: the checks run in
    this order and the custom predicate decides the rest. *)
Theorem shouldRetry_false_iff (P : RetryConfig) (n : Z) (m : HttpMethod)
    (r : RequestError) :
  (shouldRetry (TReq r) n P m = Ok false <->
     d_ge (double_of_Z n) (limit P) = true
     \/ err_code r = Some ERR_CANCELED
     \/ ~ In m (methods P)
     \/ (exists s, err_status r = Some s /\ ~ In s (statusCodes P))
     \/ retryCondition P (TReq r) = Ok false)
  /\ (err_code r = Some ERR_CANCELED -> shouldRetry (TReq r) n P m = Ok false)
  /\ (err_status r = None ->
      shouldRetry (TReq r) n P m
      = if d_ge (double_of_Z n) (limit P) || code_is (err_code r) ERR_CANCELED
           || negb (includes_method (methods P) m)
        then Ok false
        else retryCondition P (TReq r)).
Proof.
  rewrite shouldRetry_TReq.
  split; [|split].
  - rewrite <- code_is_canceled, <- includes_method_In, <- status_check_false.
    destruct (d_ge _ _);
      [split; [intros _; left; reflexivity | intros _; reflexivity]|].
    destruct (code_is _ _);
      [split; [intros _; right; left; reflexivity | intros _; reflexivity]|].
    destruct (includes_method _ _); cbn [negb];
      [|split; [intros _; right; right; left; discriminate | intros _; reflexivity]].
    destruct (match err_status r with Some s => _ | None => false end) eqn:Es.
    + split; [intros _; right; right; right; left; reflexivity | intros _; reflexivity].
    + split; [intros H; right; right; right; right; exact H|].
      intros [H|[H|[H|[H|H]]]]; [discriminate | discriminate | congruence | discriminate | exact H].
  - intros Hc; apply code_is_canceled in Hc; rewrite Hc.
    destruct (d_ge _ _); reflexivity.
  - intros Hs; rewrite Hs.
    destruct (d_ge _ _), (code_is _ _), (includes_method _ _); reflexivity.
Qed.

(** C5: for every retry policy with base delay [d], cap [M] and attempt
    number [n >= 1], [calculateDelay n] is [Math.min(d * n, M)] with linear
    backoff and [Math.min(d * 2^(n-1), M)] otherwise (exponential backoff,
    or [backoff] given as [undefined]), in JavaScript number arithmetic:
    [n] and [2^(n-1)] are the numbers of these integers. *)
Theorem calculateDelay_formula (P : RetryConfig) (n : Z) (Hn : 1 <= n) :
  (backoff P = Some Linear ->
     calculateDelay n P = Math_min (d_mul (delay P) (double_of_Z n)) (maxDelay P))
  /\ (backoff P <> Some Linear ->
     calculateDelay n P
     = Math_min (d_mul (delay P) (double_of_Z (2 ^ (n - 1)))) (maxDelay P)).
Proof.
  rewrite double_of_Z_pow2 by lia.
  unfold calculateDelay; split; intros Hb.
  - rewrite Hb; reflexivity.
  - destruct (backoff P) as [[|]|]; [congruence | reflexivity | reflexivity].
Qed.

Lemma calculateDelay_formula_witness :
  1 <= 3 /\
  ((backoff DEFAULT_RETRY_CONFIG = Some Linear ->
    calculateDelay 3 DEFAULT_RETRY_CONFIG
    = Math_min (d_mul (delay DEFAULT_RETRY_CONFIG) (double_of_Z 3))
               (maxDelay DEFAULT_RETRY_CONFIG))
   /\ (backoff DEFAULT_RETRY_CONFIG <> Some Linear ->
       calculateDelay 3 DEFAULT_RETRY_CONFIG
       = Math_min (d_mul (delay DEFAULT_RETRY_CONFIG) (double_of_Z (2 ^ (3 - 1))))
                  (maxDelay DEFAULT_RETRY_CONFIG))).
Proof. split; [lia | apply (calculateDelay_formula DEFAULT_RETRY_CONFIG 3); lia]. Defined.





(** *** Interceptor pipeline *)

Lemma request_loop_log (L : list (nat * InterceptorHandler InternalRequestConfig)) :
  forall cur log0, exists log1,
    snd (request_loop L cur log0) = log0 ++ log1
    /\ (exists rest, log1 ++ rest = fulfilled_indices L)
    /\ (forall c, fst (request_loop L cur log0) = Ok c -> log1 = fulfilled_indices L).
Proof.
  induction L as [|[i h] L IH]; intros cur log0; simpl.
  - exists []; split; [rewrite app_nil_r; reflexivity|].
    split; [exists []; reflexivity | reflexivity].
  - unfold fulfilled_indices; simpl.
    destruct (has_fulfilled h) eqn:Hh; unfold has_fulfilled in Hh;
      destruct (fulfilled h) as [f|]; try discriminate; [|apply IH].
    simpl; fold (fulfilled_indices L).
    assert (Hstop : exists log1, snd (Err (A:=InternalRequestConfig) TOther, log0 ++ [i])
                                 = log0 ++ log1
              /\ (exists rest, log1 ++ rest = i :: fulfilled_indices L)
              /\ (forall c, fst (Err (A:=InternalRequestConfig) TOther, log0 ++ [i]) = Ok c ->
                            log1 = i :: fulfilled_indices L)).
    { exists [i]; repeat split; [exists (fulfilled_indices L); reflexivity|discriminate]. }
    assert (Hcont : forall c, exists log1,
               snd (request_loop L c (log0 ++ [i])) = log0 ++ log1
               /\ (exists rest, log1 ++ rest = i :: fulfilled_indices L)
               /\ (forall c', fst (request_loop L c (log0 ++ [i])) = Ok c' ->
                              log1 = i :: fulfilled_indices L)).
    { intros c; destruct (IH c (log0 ++ [i])) as (l1 & H1 & (rest & H2) & H3).
      exists (i :: l1); rewrite H1, <- app_assoc; split; [reflexivity|].
      split; [exists rest; simpl; rewrite H2; reflexivity|].
      intros c' Hc'; rewrite (H3 c' Hc'); reflexivity. }
    destruct (f cur) as [c|e]; [apply Hcont|].
    destruct (rejected h) as [rej|];
      [|exists [i]; repeat split; [exists (fulfilled_indices L); reflexivity|discriminate]].
    destruct (recover_value _) as [[c|]|e'];
      [apply Hcont| |];
      exists [i]; repeat split; try (exists (fulfilled_indices L); reflexivity);
      discriminate.
Qed.

Lemma response_loop_log (config : InternalRequestConfig)
    (L : list (nat * InterceptorHandler Resp)) :
  forall cur log0, exists log1,
    snd (response_loop config L cur log0) = log0 ++ log1
    /\ (exists rest, log1 ++ rest = fulfilled_indices L)
    /\ (forall c, fst (response_loop config L cur log0) = Ok c -> log1 = fulfilled_indices L).
Proof.
  induction L as [|[i h] L IH]; intros cur log0; simpl.
  - exists []; split; [rewrite app_nil_r; reflexivity|].
    split; [exists []; reflexivity | reflexivity].
  - unfold fulfilled_indices; simpl.
    destruct (has_fulfilled h) eqn:Hh; unfold has_fulfilled in Hh;
      destruct (fulfilled h) as [f|]; try discriminate; [|apply IH].
    simpl; fold (fulfilled_indices L).
    assert (Hcont : forall c, exists log1,
               snd (response_loop config L c (log0 ++ [i])) = log0 ++ log1
               /\ (exists rest, log1 ++ rest = i :: fulfilled_indices L)
               /\ (forall c', fst (response_loop config L c (log0 ++ [i])) = Ok c' ->
                              log1 = i :: fulfilled_indices L)).
    { intros c; destruct (IH c (log0 ++ [i])) as (l1 & H1 & (rest & H2) & H3).
      exists (i :: l1); rewrite H1, <- app_assoc; split; [reflexivity|].
      split; [exists rest; simpl; rewrite H2; reflexivity|].
      intros c' Hc'; rewrite (H3 c' Hc'); reflexivity. }
    destruct (f cur) as [c|e]; [apply Hcont|].
    destruct (rejected h) as [rej|];
      [|exists [i]; repeat split; [exists (fulfilled_indices L); reflexivity|discriminate]].
    destruct (recover_value _) as [[c|]|e'];
      [apply Hcont| |];
      exists [i]; repeat split; try (exists (fulfilled_indices L); reflexivity);
      discriminate.
Qed.

Lemma fulfilled_indices_index {T} (hs : list (InterceptorHandler T)) (s : nat) :
  fulfilled_indices (combine (seq s (length hs)) hs)
  = filter (fun i => fulfilled_at hs (i - s)) (seq s (length hs)).
Proof.
  revert s; induction hs as [|h hs IH]; intros s; [reflexivity|].
  simpl length; rewrite <- cons_seq; simpl combine.
  unfold fulfilled_indices in *; simpl filter.
  rewrite Nat.sub_diag.
  change (fulfilled_at (h :: hs) 0) with (has_fulfilled h).
  assert (Hext : filter (fun i => fulfilled_at hs (i - S s)) (seq (S s) (length hs))
                 = filter (fun i => fulfilled_at (h :: hs) (i - s)) (seq (S s) (length hs))).
  { apply filter_ext_in; intros i Hi; apply in_seq in Hi.
    replace (i - s)%nat with (S (i - S s)) by lia; reflexivity. }
  destruct (has_fulfilled h); simpl map; rewrite IH, Hext; reflexivity.
Qed.

Lemma fulfilled_indices_handlers {T} (hs : list (InterceptorHandler T)) :
  fulfilled_indices (index_handlers hs) = filter (fulfilled_at hs) (seq 0 (length hs)).
Proof.
  unfold index_handlers; rewrite fulfilled_indices_index.
  apply filter_ext; intros i; rewrite Nat.sub_0_r; reflexivity.
Qed.

Lemma fulfilled_indices_rev {T} (L : list (nat * InterceptorHandler T)) :
  fulfilled_indices (rev L) = rev (fulfilled_indices L).
Proof. unfold fulfilled_indices; rewrite filter_rev, map_rev; reflexivity. Qed.

(** C3: request-phase [fulfilled] functions are invoked in registration
    order and response-phase ones in reverse registration order: the
    indices (in [getHandlers()]) of the invoked functions form a prefix of
    that order, and all of it when the phase succeeds. *)
Theorem interceptor_dispatch_order
    (mreq : InterceptorManagerImpl InternalRequestConfig) (cfg : InternalRequestConfig)
    (mres : InterceptorManagerImpl Resp) (resp : Resp) :
  let req_order := filter (fulfilled_at (getHandlers mreq))
                     (seq 0 (length (getHandlers mreq))) in
  let res_order := rev (filter (fulfilled_at (getHandlers mres))
                          (seq 0 (length (getHandlers mres)))) in
  (exists rest, snd (applyRequestInterceptors cfg mreq) ++ rest = req_order)
  /\ (forall c, fst (applyRequestInterceptors cfg mreq) = Ok c ->
               snd (applyRequestInterceptors cfg mreq) = req_order)
  /\ (exists rest, snd (applyResponseInterceptors resp mres cfg) ++ rest = res_order)
  /\ (forall r, fst (applyResponseInterceptors resp mres cfg) = Ok r ->
               snd (applyResponseInterceptors resp mres cfg) = res_order).
Proof.
  intros req_order res_order; unfold applyRequestInterceptors, applyResponseInterceptors.
  destruct (request_loop_log (index_handlers (getHandlers mreq)) cfg [])
    as (l1 & H1 & H2 & H3).
  destruct (response_loop_log cfg (rev (index_handlers (getHandlers mres))) resp [])
    as (l2 & H4 & H5 & H6).
  rewrite fulfilled_indices_handlers in H2, H3.
  rewrite fulfilled_indices_rev, fulfilled_indices_handlers in H5, H6.
  rewrite H1, H4; simpl.
  split; [exact H2|]. split; [exact H3|]. split; [exact H5|exact H6].
Qed.

(** The outcome of the request phase depends only on the handlers, not
    on the indices or the log. *)
Lemma request_loop_fst_eq (L L' : list (nat * InterceptorHandler InternalRequestConfig)) :
  map snd L = map snd L' ->
  forall cur log log', fst (request_loop L cur log) = fst (request_loop L' cur log').
Proof.
  revert L'; induction L as [|[i h] L IH]; intros [|[i' h'] L'] Heq cur log log';
    try discriminate; [reflexivity|].
  simpl in Heq; injection Heq as <- Heq; simpl.
  destruct (fulfilled h) as [f|]; [|apply IH; exact Heq].
  destruct (f cur) as [c|e]; [apply IH; exact Heq|].
  destruct (rejected h) as [rej|]; [|reflexivity].
  destruct (recover_value _) as [[c|]|e']; [apply IH; exact Heq|reflexivity|reflexivity].
Qed.

Lemma map_snd_index_handlers {T} (hs : list (InterceptorHandler T)) :
  map snd (index_handlers hs) = hs.
Proof.
  unfold index_handlers; generalize 0%nat.
  induction hs as [|h hs IH]; intros s; [reflexivity|].
  simpl; f_equal; apply IH.
Qed.

Lemma request_loop_app (L1 L2 : list (nat * InterceptorHandler InternalRequestConfig)) :
  forall cur log,
  request_loop (L1 ++ L2) cur log
  = match request_loop L1 cur log with
    | (Ok c, log') => request_loop L2 c log'
    | r => r
    end.
Proof.
  induction L1 as [|[i h] L1 IH]; intros cur log; [reflexivity|].
  simpl.
  destruct (fulfilled h) as [f|]; [|apply IH].
  destruct (f cur) as [c|e]; [apply IH|].
  destruct (rejected h) as [rej|]; [|reflexivity].
  destruct (recover_value _) as [[c|]|e']; [apply IH|reflexivity|reflexivity].
Qed.

(** The request phase on a manager whose map holds [entries]. *)
Lemma applyRequestInterceptors_fst (cfg : InternalRequestConfig)
    (entries : list (nat * InterceptorHandler InternalRequestConfig)) (n : nat) :
  fst (applyRequestInterceptors cfg (mkManager entries n))
  = fst (request_loop (map (fun h => (0%nat, h)) (map snd entries)) cfg []).
Proof.
  unfold applyRequestInterceptors, getHandlers; simpl.
  apply request_loop_fst_eq.
  rewrite map_snd_index_handlers, map_map; simpl; rewrite map_id; reflexivity.
Qed.

Lemma recover_value_settled {T} (v : JsVal T) (c : T) :
  await_val v = Ok (JTarget c) -> recover_value (Ok v) = Ok (Some c).
Proof.
  destruct v as [t| |v'|e]; simpl; intros H; try discriminate.
  - injection H as ->; reflexivity.
  - rewrite H; reflexivity.
Qed.

Lemma recover_value_fails {T} (r : Outcome (JsVal T)) :
  match r with
  | Err _ => True
  | Ok v => match await_val v with Ok (JTarget _) => False | _ => True end
  end ->
  exists e, recover_value r = Ok None \/ recover_value r = Err e.
Proof.
  destruct r as [v|e]; [|intros _; exists e; right; reflexivity].
  destruct v as [t| |v'|e]; simpl; intros H; try contradiction.
  - exists TOther; left; reflexivity.
  - destruct (await_val v') as [[]|e]; try contradiction;
      try (exists TOther; left; reflexivity); exists e; right; reflexivity.
  - exists e; right; reflexivity.
Qed.

(** C4: when the pipeline reaches a handler with current descriptor
    [cfg0], its [fulfilled] throws [err] and its [rejected] returns (or
    resolves to) a value with a [url] field [c], the pipeline continues
    with [c] as the current descriptor, so with no later handler it ends
    with [c] and the prepared URL is the one of [c]; when the handler has
    no [rejected], or [rejected] throws, rejects, or gives a value without
    a [url] field, the pipeline aborts with an Error Record. *)
Theorem request_interceptor_recovery
    (ps qs : list (nat * InterceptorHandler InternalRequestConfig))
    (id n : nat) (h : InterceptorHandler InternalRequestConfig)
    (cfg cfg0 : InternalRequestConfig) (f : InternalRequestConfig -> Outcome InternalRequestConfig)
    (err : Thrown)
    (Hpre : fst (applyRequestInterceptors cfg (mkManager ps n)) = Ok cfg0)
    (Hf : fulfilled h = Some f) (Hthrow : f cfg0 = Err err) :
  let e := if isRequestError err then err else createRequestInterceptorError err cfg0 in
  let m := mkManager (ps ++ (id, h) :: qs) n in
  (forall rej v c, rejected h = Some rej -> rej e = Ok v -> await_val v = Ok (JTarget c) ->
     fst (applyRequestInterceptors cfg m) = fst (applyRequestInterceptors c (mkManager qs n))
     /\ (qs = [] -> fst (applyRequestInterceptors cfg m) = Ok c))
  /\ ((rejected h = None
       \/ exists rej, rejected h = Some rej
          /\ match rej e with
             | Err _ => True
             | Ok v => match await_val v with Ok (JTarget _) => False | _ => True end
             end) ->
      exists r, fst (applyRequestInterceptors cfg m) = Err r /\ is_error_record r = true).
Proof.
  intros e m; unfold m.
  rewrite applyRequestInterceptors_fst in Hpre |- *.
  rewrite map_app, map_app, request_loop_app.
  destruct (request_loop (map (fun h0 => (0%nat, h0)) (map snd ps)) cfg []) as [res log] eqn:Hps.
  simpl in Hpre; subst res.
  simpl; rewrite Hf, Hthrow; fold e.
  split.
  - intros rej v c Hr Hv Hset; rewrite Hr, Hv, (recover_value_settled v c Hset).
    split.
    + rewrite applyRequestInterceptors_fst; apply request_loop_fst_eq; reflexivity.
    + intros ->; reflexivity.
  - assert (He : is_error_record e = true).
    { unfold e; destruct err; reflexivity. }
    intros [Hn | (rej & Hr & Hbad)].
    + rewrite Hn; exists e; split; [reflexivity | exact He].
    + rewrite Hr; destruct (recover_value_fails (rej e) Hbad) as (e' & [H | H]);
        rewrite H; simpl.
      * exists e; split; [reflexivity | exact He].
      * eexists; split; [reflexivity|].
        destruct e'; reflexivity.
Qed.

Lemma request_interceptor_recovery_witness :
  fst (applyRequestInterceptors cfgGET (mkManager [] 1)) = Ok cfgGET
  /\ fulfilled recovering_handler = Some throwing_fulfilled
  /\ throwing_fulfilled cfgGET = Err boom
  /\ (let e := if isRequestError boom then boom
              else createRequestInterceptorError boom cfgGET in
      let m := mkManager ([] ++ [(0%nat, recovering_handler)]) 1 in
      (forall rej v c, rejected recovering_handler = Some rej -> rej e = Ok v ->
         await_val v = Ok (JTarget c) ->
         fst (applyRequestInterceptors cfgGET m)
         = fst (applyRequestInterceptors c (mkManager [] 1))
         /\ ([] = @nil (nat * InterceptorHandler InternalRequestConfig) ->
             fst (applyRequestInterceptors cfgGET m) = Ok c))
      /\ ((rejected recovering_handler = None
           \/ exists rej, rejected recovering_handler = Some rej
              /\ match rej e with
                 | Err _ => True
                 | Ok v => match await_val v with Ok (JTarget _) => False | _ => True end
                 end) ->
          exists r, fst (applyRequestInterceptors cfgGET m) = Err r
                    /\ is_error_record r = true)).
Proof.
  split; [reflexivity|]. split; [reflexivity|]. split; [reflexivity|].
  exact (request_interceptor_recovery [] [] 0 1 recovering_handler cfgGET cfgGET
           throwing_fulfilled boom eq_refl eq_refl eq_refl).
Defined.

(** The scenario of the specification: the transport request prepared
    after the request phase targets [/recovered]. *)
Example recovered_url_observed :
  match fst (applyRequestInterceptors cfgGET (mkManager [(0%nat, recovering_handler)] 1)) with
  | Ok c => buildFullURL c = "/recovered"%string
  | Err _ => False
  end.
Proof. vm_compute; reflexivity. Qed.

(** *** Header merging *)

Lemma fold_outcome_ok {A B : Type} (step : A -> B -> Outcome A) (f : A -> B -> A)
    (ok : B -> bool) (l : list B) (acc : A) :
  (forall a x, In x l -> ok x = true -> step a x = Ok (f a x)) ->
  forallb ok l = true -> fold_outcome step l acc = Ok (fold_left f l acc).
Proof.
  revert acc; induction l as [|x l IH]; intros acc Hs Hok; [reflexivity|].
  simpl in Hok |- *; apply andb_prop in Hok as [Hx Hl].
  rewrite (Hs acc x (or_introl eq_refl) Hx); simpl.
  apply IH; [intros a y Hy; apply Hs; right; exact Hy | exact Hl].
Qed.

Lemma fold_outcome_err {A B : Type} (step : A -> B -> Outcome A) (ok : B -> bool)
    (e : Thrown) (l : list B) (acc : A) :
  (forall a x, In x l -> ok x = true -> exists a', step a x = Ok a') ->
  (forall a x, In x l -> ok x = false -> step a x = Err e) ->
  forallb ok l = false -> fold_outcome step l acc = Err e.
Proof.
  revert acc; induction l as [|x l IH]; intros acc Hs He Hok; [discriminate|].
  simpl in Hok |- *.
  destruct (ok x) eqn:Hx; simpl in Hok.
  - destruct (Hs acc x (or_introl eq_refl) Hx) as [a' E]; rewrite E; simpl.
    apply IH; [intros a y Hy; apply Hs; right; exact Hy
              | intros a y Hy; apply He; right; exact Hy | exact Hok].
  - rewrite (He acc x (or_introl eq_refl) Hx); reflexivity.
Qed.

Lemma header_values_cons (k v n : string) (h : Headers) :
  header_values n ((k, v) :: h)
  = if String.eqb k n then v :: header_values n h else header_values n h.
Proof. unfold header_values; simpl; destruct (String.eqb k n); reflexivity. Qed.

Lemma header_values_app (n : string) (h h' : Headers) :
  header_values n (h ++ h') = header_values n h ++ header_values n h'.
Proof. unfold header_values; rewrite filter_app, map_app; reflexivity. Qed.

Lemma header_values_filter_out (k n : string) (h : Headers) :
  header_values n (filter (fun p => negb (String.eqb (fst p) k)) h)
  = if String.eqb k n then [] else header_values n h.
Proof.
  induction h as [|[k' v'] h IH]; simpl; [destruct (String.eqb k n); reflexivity|].
  destruct (String.eqb k' k) eqn:E1; simpl.
  - apply String.eqb_eq in E1; subst k'.
    rewrite header_values_cons, IH.
    destruct (String.eqb k n); reflexivity.
  - rewrite !header_values_cons, IH.
    destruct (String.eqb k n) eqn:E2; [|reflexivity].
    apply String.eqb_eq in E2; subst n; rewrite E1; reflexivity.
Qed.

Lemma header_values_set (k v n : string) (h : Headers) :
  header_values n (headers_set_lc k v h)
  = if String.eqb k n then [v] else header_values n h.
Proof.
  induction h as [|[k' v'] h IH]; simpl.
  - rewrite header_values_cons; reflexivity.
  - destruct (String.eqb k' k) eqn:E1.
    + apply String.eqb_eq in E1; subst k'.
      rewrite !header_values_cons, header_values_filter_out.
      destruct (String.eqb k n); reflexivity.
    + rewrite !header_values_cons, IH.
      destruct (String.eqb k n) eqn:E2; [|reflexivity].
      apply String.eqb_eq in E2; subst n; rewrite E1; reflexivity.
Qed.

Lemma headers_set_lc_In (p : string * string) (k v : string) (h : Headers) :
  In p (headers_set_lc k v h) -> p = (k, v) \/ In p h.
Proof.
  induction h as [|[k' v'] h IH]; simpl; [intros [<-|[]]; left; reflexivity|].
  destruct (String.eqb k' k).
  - intros [<-|Hp]; [left; reflexivity|].
    apply filter_In in Hp; right; right; tauto.
  - intros [<-|Hp]; [right; left; reflexivity|].
    destruct (IH Hp); tauto.
Qed.

(** The per-name view of a loop whose steps each touch one name. *)
Lemma fold_view {B : Type} (f : Headers -> B -> Headers) (key : B -> string)
    (g : list string -> B -> list string) (n : string) (l : list B) (r : Headers) :
  (forall r x, In x l -> header_values n (f r x)
     = if String.eqb (key x) n then g (header_values n r) x else header_values n r) ->
  header_values n (fold_left f l r)
  = fold_left g (filter (fun x => String.eqb (key x) n) l) (header_values n r).
Proof.
  revert r; induction l as [|x l IH]; intros r Hf; [reflexivity|].
  simpl; rewrite IH by (intros r' y Hy; apply Hf; right; exact Hy).
  rewrite (Hf r x (or_introl eq_refl)).
  destruct (String.eqb (key x) n); reflexivity.
Qed.

Lemma string_compare_refl (s : string) : String.compare s s = Eq.
Proof.
  induction s as [|c s IH]; [reflexivity|]; simpl.
  unfold Ascii.compare; rewrite N.compare_refl; exact IH.
Qed.

Lemma string_compare_lt_trans (s1 s2 s3 : string) :
  String.compare s1 s2 = Lt -> String.compare s2 s3 = Lt -> String.compare s1 s3 = Lt.
Proof.
  revert s2 s3; induction s1 as [|c1 s1 IH]; intros [|c2 s2] [|c3 s3]; simpl;
    try discriminate; try reflexivity.
  unfold Ascii.compare.
  destruct (N.compare (N_of_ascii c1) (N_of_ascii c2)) eqn:E12; try discriminate;
  destruct (N.compare (N_of_ascii c2) (N_of_ascii c3)) eqn:E23; try discriminate;
  intros H1 H2.
  - apply N.compare_eq_iff in E12, E23; rewrite E12, E23, N.compare_refl.
    exact (IH _ _ H1 H2).
  - apply N.compare_eq_iff in E12; rewrite E12, E23; reflexivity.
  - apply N.compare_eq_iff in E23; rewrite <- E23, E12; reflexivity.
  - apply N.compare_lt_iff in E12, E23.
    assert (E : N.compare (N_of_ascii c1) (N_of_ascii c3) = Lt)
      by (apply N.compare_lt_iff; eapply N.lt_trans; eassumption).
    rewrite E; reflexivity.
Qed.

Lemma insert_name_In (x n : string) (l : list string) :
  In x (insert_name n l) <-> x = n \/ In x l.
Proof.
  induction l as [|m l IH]; simpl.
  - split; [intros [<-|[]]; left; reflexivity | intros [->|[]]; left; reflexivity].
  - destruct (String.compare n m) eqn:E; simpl.
    + apply String.compare_eq_iff in E; subst m.
      split; [intros H; right; exact H|intros [->|H]; [left; reflexivity|exact H]].
    + split; intros [H|H]; subst; auto.
    + rewrite IH; split; intros [H|H]; auto; destruct H; auto.
Qed.

Lemma insert_name_sorted (n : string) (l : list string) :
  StronglySorted (fun a b => String.compare a b = Lt) l ->
  StronglySorted (fun a b => String.compare a b = Lt) (insert_name n l).
Proof.
  induction l as [|m l IH]; intros Hs; simpl.
  - repeat constructor.
  - inversion Hs as [|? ? Hl Hm]; subst.
    destruct (String.compare n m) eqn:E.
    + exact Hs.
    + constructor; [exact Hs|].
      constructor; [exact E|].
      eapply Forall_impl; [|exact Hm].
      intros y Hy; exact (string_compare_lt_trans _ _ _ E Hy).
    + constructor; [apply IH; exact Hl|].
      apply Forall_forall; intros y Hy; apply insert_name_In in Hy as [->|Hy].
      * rewrite String.compare_antisym, E; reflexivity.
      * exact (proj1 (Forall_forall _ _) Hm y Hy).
Qed.

Lemma sorted_names_NoDup (l : list string) :
  StronglySorted (fun a b => String.compare a b = Lt) l -> NoDup l.
Proof.
  induction 1 as [|x l _ IH Hx]; constructor; [|exact IH].
  intros Hin; assert (E := proj1 (Forall_forall _ _) Hx x Hin).
  cbv beta in E; rewrite string_compare_refl in E; discriminate.
Qed.

Lemma names_sorted (l : list string) :
  StronglySorted (fun a b => String.compare a b = Lt) (fold_right insert_name [] l).
Proof.
  induction l as [|x l IH]; simpl; [constructor|]; apply insert_name_sorted; exact IH.
Qed.

Lemma names_In (x : string) (l : list string) :
  In x (fold_right insert_name [] l) <-> In x l.
Proof.
  induction l as [|y l IH]; simpl; [tauto|].
  rewrite insert_name_In, IH; intuition.
Qed.

Lemma filter_flat_map {A B : Type} (p : B -> bool) (g : A -> list B) (l : list A) :
  filter p (flat_map g l) = flat_map (fun a => filter p (g a)) l.
Proof.
  induction l as [|a l IH]; simpl; [reflexivity|]; rewrite filter_app, IH; reflexivity.
Qed.

Lemma flat_map_single {B : Type} (g : string -> list B) (n : string) (l : list string) :
  NoDup l ->
  flat_map (fun m => if String.eqb m n then g m else []) l
  = if existsb (String.eqb n) l then g n else [].
Proof.
  induction l as [|m l IH]; intros Hnd; simpl; [reflexivity|].
  inversion Hnd as [|? ? Hm Hl]; subst.
  rewrite IH by exact Hl; rewrite String.eqb_sym.
  destruct (String.eqb n m) eqn:E; simpl.
  - apply String.eqb_eq in E; subst m.
    destruct (existsb (String.eqb n) l) eqn:E2; [|apply app_nil_r].
    apply existsb_exists in E2 as [y [Hy Ey]]; apply String.eqb_eq in Ey; subst y.
    contradiction.
  - reflexivity.
Qed.

Lemma name_block_fst (h : Headers) (n : string) (p : string * string) :
  In p (name_block h n) -> fst p = n.
Proof.
  unfold name_block; destruct (String.eqb n "set-cookie").
  - intros Hp; apply in_map_iff in Hp as [v [<- _]]; reflexivity.
  - destruct (combine_values (header_values n h)); simpl; [|tauto].
    intros [<-|[]]; reflexivity.
Qed.

Lemma header_values_nil (n : string) (h : Headers) :
  ~ In n (map fst h) -> header_values n h = [].
Proof.
  intros Hn; unfold header_values.
  induction h as [|[k v] h IH]; simpl in *; [reflexivity|].
  destruct (String.eqb k n) eqn:E.
  - apply String.eqb_eq in E; subst k; tauto.
  - apply IH; tauto.
Qed.

Lemma filter_all {A : Type} (f : A -> bool) (l : list A) :
  (forall x, In x l -> f x = true) -> filter f l = l.
Proof.
  induction l as [|x l IH]; intros H; simpl; [reflexivity|].
  rewrite (H x (or_introl eq_refl)), IH; [reflexivity|].
  intros y Hy; apply H; right; exact Hy.
Qed.

Lemma filter_none {A : Type} (f : A -> bool) (l : list A) :
  (forall x, In x l -> f x = false) -> filter f l = [].
Proof.
  induction l as [|x l IH]; intros H; simpl; [reflexivity|].
  rewrite (H x (or_introl eq_refl)); apply IH.
  intros y Hy; apply H; right; exact Hy.
Qed.

Lemma name_block_filter (h : Headers) (m n : string) :
  filter (fun p => String.eqb (fst p) n) (name_block h m)
  = if String.eqb m n then name_block h m else [].
Proof.
  destruct (String.eqb m n) eqn:E.
  - apply String.eqb_eq in E; subst m.
    apply filter_all; intros p Hp; apply String.eqb_eq; exact (name_block_fst _ _ _ Hp).
  - apply filter_none; intros p Hp; rewrite (name_block_fst _ _ _ Hp); exact E.
Qed.

Lemma sort_and_combine_filter (h : Headers) (n : string) :
  filter (fun p => String.eqb (fst p) n) (sort_and_combine h) = name_block h n.
Proof.
  unfold sort_and_combine; rewrite filter_flat_map.
  change (fun n0 => filter (fun p => String.eqb (fst p) n)
            (if String.eqb n0 "set-cookie"
             then map (fun v => (n0, v)) (header_values n0 h)
             else match combine_values (header_values n0 h) with
                  | Some v => [(n0, v)]
                  | None => []
                  end))
    with (fun m => filter (fun p => String.eqb (fst p) n) (name_block h m)).
  rewrite (flat_map_ext _ _ (fun m => name_block_filter h m n) _).
  rewrite flat_map_single by (apply sorted_names_NoDup, names_sorted).
  destruct (existsb (String.eqb n) (fold_right insert_name [] (map fst h))) eqn:E;
    [reflexivity|].
  assert (Hn : ~ In n (map fst h)).
  { intros Hin; apply names_In in Hin.
    assert (E' : existsb (String.eqb n) (fold_right insert_name [] (map fst h)) = true)
      by (apply existsb_exists; exists n; split; [exact Hin | apply String.eqb_refl]).
    congruence. }
  unfold name_block; rewrite header_values_nil by exact Hn.
  destruct (String.eqb n "set-cookie"); reflexivity.
Qed.

Lemma header_values_In (n v : string) (h : Headers) :
  In v (header_values n h) -> In (n, v) h.
Proof.
  unfold header_values; intros Hv; apply in_map_iff in Hv as [[k v'] [Ev Hp]].
  simpl in Ev; subst v'; apply filter_In in Hp as [Hp Ek].
  simpl in Ek; apply String.eqb_eq in Ek; subst k; exact Hp.
Qed.

Lemma sort_and_combine_In (h : Headers) (p : string * string) :
  In p (sort_and_combine h) ->
  In (fst p) (map fst h)
  /\ (In (snd p) (header_values (fst p) h)
      \/ combine_values (header_values (fst p) h) = Some (snd p)).
Proof.
  unfold sort_and_combine; intros Hp; apply in_flat_map in Hp as [m [Hm Hp]].
  apply (proj1 (names_In _ _)) in Hm.
  change (In p (name_block h m)) in Hp.
  assert (Hf := name_block_fst _ _ _ Hp).
  destruct p as [k v]; simpl in Hf |- *; subst m.
  split; [exact Hm|].
  unfold name_block in Hp; destruct (String.eqb k "set-cookie").
  - apply in_map_iff in Hp as [v' [E Hv]]; injection E as <-; left; exact Hv.
  - destruct (combine_values (header_values k h)) as [w|]; simpl in Hp; [|tauto].
    destruct Hp as [E|[]]; injection E as <-; right; reflexivity.
Qed.

Lemma lower_ascii_idem (c : ascii) : lower_ascii (lower_ascii c) = lower_ascii c.
Proof. destruct c as [[] [] [] [] [] [] [] []]; reflexivity. Qed.

Lemma lower_idem (s : string) : lower (lower s) = lower s.
Proof. induction s as [|c s IH]; simpl; [reflexivity|]; rewrite lower_ascii_idem, IH; reflexivity. Qed.

Lemma is_token_char_lower (c : ascii) : is_token_char (lower_ascii c) = is_token_char c.
Proof. destruct c as [[] [] [] [] [] [] [] []]; reflexivity. Qed.

Lemma valid_name_lower (s : string) : valid_name (lower s) = valid_name s.
Proof.
  unfold valid_name; f_equal; [destruct s; reflexivity|].
  induction s as [|c s IH]; simpl; [reflexivity|].
  rewrite is_token_char_lower, IH; reflexivity.
Qed.

Lemma list_ascii_of_string_app (a b : string) :
  list_ascii_of_string (a ++ b) = list_ascii_of_string a ++ list_ascii_of_string b.
Proof. induction a as [|c a IH]; simpl; [reflexivity|]; rewrite IH; reflexivity. Qed.

Lemma valid_value_app (a b : string) :
  valid_value (a ++ b) = valid_value a && valid_value b.
Proof. unfold valid_value; rewrite list_ascii_of_string_app, forallb_app; reflexivity. Qed.

Lemma combine_values_valid (vs : list string) (c : string) :
  forallb valid_value vs = true -> combine_values vs = Some c -> valid_value c = true.
Proof.
  destruct vs as [|v rest]; simpl; [discriminate|].
  intros Hv E; injection E as <-; apply andb_prop in Hv as [Hv Hrest].
  revert v Hv; induction rest as [|x rest IH]; intros v Hv; simpl; [exact Hv|].
  simpl in Hrest; apply andb_prop in Hrest as [Hx Hrest].
  apply IH; [exact Hrest|].
  rewrite valid_value_app, Hv; unfold valid_value in *; simpl; exact Hx.
Qed.

Lemma forallb_strip_leading (f : ascii -> bool) (s : string) :
  forallb f (list_ascii_of_string s) = true ->
  forallb f (list_ascii_of_string (strip_leading_ws s)) = true.
Proof.
  induction s as [|c s IH]; simpl; [reflexivity|]; intros H.
  destruct (is_http_ws c); [apply IH; apply andb_prop in H; tauto | exact H].
Qed.

Lemma forallb_strip_trailing (f : ascii -> bool) (s : string) :
  forallb f (list_ascii_of_string s) = true ->
  forallb f (list_ascii_of_string (strip_trailing_ws s)) = true.
Proof.
  induction s as [|c s IH]; simpl; [reflexivity|]; intros H.
  apply andb_prop in H as [Hc Hs].
  destruct (is_http_ws c && String.eqb (strip_trailing_ws s) ""); simpl;
    [reflexivity|rewrite Hc, IH by exact Hs; reflexivity].
Qed.

Lemma normalize_value_valid (v : string) :
  valid_value v = true -> valid_value (normalize_value v) = true.
Proof.
  intros H; apply forallb_strip_trailing, forallb_strip_leading; exact H.
Qed.

Lemma fold_left_inv {A B : Type} (P : A -> Prop) (f : A -> B -> A) (l : list B) (a : A) :
  P a -> (forall a x, In x l -> P a -> P (f a x)) -> P (fold_left f l a).
Proof.
  revert a; induction l as [|x l IH]; intros a Ha Hf; simpl; [exact Ha|].
  apply IH; [apply Hf; [left; reflexivity|exact Ha]|].
  intros a' y Hy; apply Hf; right; exact Hy.
Qed.

Lemma headers_wf_In (h : Headers) (p : string * string) :
  headers_wf h = true -> In p h -> entry_wf p = true.
Proof. unfold headers_wf; rewrite forallb_forall; auto. Qed.

Lemma headers_wf_set (h : Headers) (k v : string) :
  headers_wf h = true -> valid_name k = true -> valid_value v = true ->
  headers_wf (headers_set_lc (lower k) v h) = true.
Proof.
  intros Hh Hk Hv; unfold headers_wf; apply forallb_forall; intros p Hp.
  apply headers_set_lc_In in Hp as [->|Hp]; [|exact (headers_wf_In h p Hh Hp)].
  unfold entry_wf; simpl; rewrite valid_name_lower, lower_idem, String.eqb_refl, Hk, Hv.
  reflexivity.
Qed.

Lemma headers_wf_app (h : Headers) (k v : string) :
  headers_wf h = true -> valid_name k = true -> valid_value v = true ->
  headers_wf (h ++ [(lower k, v)]) = true.
Proof.
  intros Hh Hk Hv; unfold headers_wf; rewrite forallb_app; fold (headers_wf h).
  rewrite Hh; simpl.
  unfold entry_wf; simpl; rewrite valid_name_lower, lower_idem, String.eqb_refl, Hk, Hv.
  reflexivity.
Qed.

(** The entries [forEach] visits on a well-formed container are valid and
    carry lower-cased names. *)
Lemma sort_and_combine_valid (h : Headers) (p : string * string) :
  headers_wf h = true -> In p (sort_and_combine h) ->
  valid_name (fst p) = true /\ lower (fst p) = fst p /\ valid_value (snd p) = true.
Proof.
  intros Hh Hp; apply sort_and_combine_In in Hp as [Hk Hv].
  apply in_map_iff in Hk as [[k v] [Ek Hkv]]; simpl in Ek; subst k.
  assert (W := headers_wf_In h _ Hh Hkv); unfold entry_wf in W; simpl in W.
  apply andb_prop in W as [W Wv]; apply andb_prop in W as [Wn Wl].
  apply String.eqb_eq in Wl.
  split; [exact Wn|]; split; [exact Wl|].
  assert (Hall : forallb valid_value (header_values (fst p) h) = true).
  { apply forallb_forall; intros w Hw; apply header_values_In in Hw.
    assert (W' := headers_wf_In h _ Hh Hw); unfold entry_wf in W'; simpl in W'.
    apply andb_prop in W' as [_ W']; exact W'. }
  destruct Hv as [Hv|Hv].
  - exact (proj1 (forallb_forall _ _) Hall _ Hv).
  - exact (combine_values_valid _ _ Hall Hv).
Qed.

Lemma sort_and_combine_lower_filter (h : Headers) (n : string) :
  headers_wf h = true ->
  filter (fun x => String.eqb (lower (fst x)) n) (sort_and_combine h) = name_block h n.
Proof.
  intros Hh; rewrite <- sort_and_combine_filter; apply filter_ext_in.
  intros p Hp; destruct (sort_and_combine_valid h p Hh Hp) as [_ [-> _]]; reflexivity.
Qed.

Lemma fold_left_snoc {B : Type} (g : B -> string) (l : list B) (acc : list string) :
  fold_left (fun vs x => vs ++ [g x]) l acc = acc ++ map g l.
Proof.
  revert acc; induction l as [|x l IH]; intros acc; simpl; [symmetry; apply app_nil_r|].
  rewrite IH, <- app_assoc; reflexivity.
Qed.

Lemma record_view (n : string) (entries : list (string * option string))
    (acc : option string) :
  fold_left (fun vs (x : string * option string) =>
               match snd x with Some v => [normalize_value v] | None => vs end)
    (filter (fun x => String.eqb (lower (fst x)) n) entries)
    (opt_list (option_map normalize_value acc))
  = opt_list (option_map normalize_value
      (fold_left (fun acc '(k, v) =>
                    match v with
                    | Some v' => if String.eqb (lower k) n then Some v' else acc
                    | None => acc
                    end) entries acc)).
Proof.
  revert acc; induction entries as [|[k [v|]] entries IH]; intros acc; simpl;
    [reflexivity| |].
  - destruct (String.eqb (lower k) n); simpl; apply (IH (Some v)) || apply IH.
  - destruct (String.eqb (lower k) n); simpl; apply IH.
Qed.

Lemma last_view (n : string) (vs : list string) (acc : option string) :
  fold_left (fun _ (x : string * string) => [normalize_value (snd x)])
    (map (fun v => (n, v)) vs) (opt_list (option_map normalize_value acc))
  = opt_list (option_map normalize_value (fold_left (fun _ v => Some v) vs acc)).
Proof.
  revert acc; induction vs as [|v vs IH]; intros acc; simpl; [reflexivity|].
  apply (IH (Some v)).
Qed.

Lemma normalizeHeaders_ok (source : HeaderSource) :
  source_ok source = true ->
  (forall h, source = HHeaders h -> headers_wf h = true) ->
  exists ns, normalizeHeaders source = Ok ns /\ headers_wf ns = true
             /\ forall n, header_values n ns = given_values source n.
Proof.
  intros Hok Hsrc; destruct source as [|entries|pairs|h].
  - exists []; split; [reflexivity|]; split; [reflexivity|]; intros n; reflexivity.
  - set (f := fun r (x : string * option string) =>
                match snd x with
                | Some v => headers_set_lc (lower (fst x)) (normalize_value v) r
                | None => r
                end).
    exists (fold_left f entries []).
    split; [|split].
    + unfold normalizeHeaders.
      refine (fold_outcome_ok _ f _ entries [] _ Hok); intros a x _.
      destruct x as [k [v|]]; simpl; [|reflexivity].
      unfold Headers_set; intros H; rewrite H; reflexivity.
    + apply fold_left_inv; [reflexivity|].
      intros a [k [v|]] Hin Ha; simpl; [|exact Ha].
      assert (E := proj1 (forallb_forall _ _) Hok _ Hin); simpl in E.
      apply andb_prop in E as [Ek Ev].
      apply headers_wf_set; assumption.
    + intros n.
      rewrite (fold_view f (fun x => lower (fst x))
                 (fun vs x => match snd x with Some v => [normalize_value v] | None => vs end)).
      * exact (record_view n entries None).
      * intros r [k [v|]] _; simpl; [apply header_values_set|].
        destruct (String.eqb (lower k) n); reflexivity.
  - set (f := fun r (x : string * string) => r ++ [(lower (fst x), normalize_value (snd x))]).
    exists (fold_left f pairs []).
    split; [|split].
    + unfold normalizeHeaders.
      refine (fold_outcome_ok _ f _ pairs [] _ Hok); intros a x _.
      destruct x as [k v]; simpl.
      unfold Headers_append; intros H; rewrite H; reflexivity.
    + apply fold_left_inv; [reflexivity|].
      intros a [k v] Hin Ha; simpl.
      assert (E := proj1 (forallb_forall _ _) Hok _ Hin); simpl in E.
      apply andb_prop in E as [Ek Ev].
      apply headers_wf_app; assumption.
    + intros n.
      rewrite (fold_view f (fun x => lower (fst x))
                 (fun vs x => vs ++ [normalize_value (snd x)])).
      * rewrite fold_left_snoc; reflexivity.
      * intros r [k v] _; unfold f; simpl.
        rewrite header_values_app, header_values_cons.
        change (header_values n []) with (@nil string).
        destruct (String.eqb (lower k) n); [reflexivity|apply app_nil_r].
  - assert (Hh : headers_wf h = true) by (apply Hsrc; reflexivity).
    set (f := fun r (x : string * string) =>
                headers_set_lc (lower (fst x)) (normalize_value (snd x)) r).
    exists (fold_left f (sort_and_combine h) []).
    split; [|split].
    + unfold normalizeHeaders.
      refine (fold_outcome_ok _ f
               (fun '(k, v) => valid_name k && valid_value (normalize_value v))
               _ [] _ _).
      * intros a [k v] _; simpl.
        unfold Headers_set; intros H; rewrite H; reflexivity.
      * apply forallb_forall; intros [k v] Hin.
        destruct (sort_and_combine_valid h _ Hh Hin) as [Hk [_ Hv]]; simpl in *.
        rewrite Hk, normalize_value_valid by exact Hv; reflexivity.
    + apply fold_left_inv; [reflexivity|].
      intros a [k v] Hin Ha; simpl.
      destruct (sort_and_combine_valid h _ Hh Hin) as [Hk [_ Hv]]; simpl in *.
      apply headers_wf_set; [exact Ha|exact Hk|apply normalize_value_valid; exact Hv].
    + intros n.
      rewrite (fold_view f (fun x => lower (fst x))
                 (fun _ x => [normalize_value (snd x)])).
      * rewrite sort_and_combine_lower_filter by exact Hh.
        unfold name_block, given_values.
        destruct (String.eqb n "set-cookie").
        -- exact (last_view n (header_values n h) None).
        -- destruct (combine_values (header_values n h)); reflexivity.
      * intros r [k v] _; unfold f; simpl; rewrite header_values_set.
        destruct (String.eqb (lower k) n); reflexivity.
Qed.

Lemma normalizeHeaders_err (source : HeaderSource) :
  source_ok source = false -> normalizeHeaders source = Err header_type_error.
Proof.
  destruct source as [|entries|pairs|h]; simpl; try discriminate; intros Hok.
  - refine (fold_outcome_err _ _ _ entries [] _ _ Hok); intros a x _.
    + destruct x as [k [v|]]; simpl; [|intros _; exists a; reflexivity].
      unfold Headers_set; intros H; rewrite H; eexists; reflexivity.
    + destruct x as [k [v|]]; simpl; [|discriminate].
      unfold Headers_set; intros H; rewrite H; reflexivity.
  - refine (fold_outcome_err _ _ _ pairs [] _ _ Hok); intros a x _.
    + destruct x as [k v]; simpl.
      unfold Headers_append; intros H; rewrite H; eexists; reflexivity.
    + destruct x as [k v]; simpl.
      unfold Headers_append; intros H; rewrite H; reflexivity.
Qed.

(** One [forEach] pass of [mergeHeaders] over a normalized source. *)
Lemma merge_pass (ns r : Headers) (n : string) :
  headers_wf ns = true ->
  exists r', fold_outcome merge_entry (sort_and_combine ns) r = Ok r'
    /\ header_values n r'
       = fold_left (fun vs (x : string * string) =>
                      if String.eqb (snd x) "" then [] else [normalize_value (snd x)])
           (name_block ns n) (header_values n r).
Proof.
  intros Hns.
  set (f := fun r (x : string * string) =>
              if String.eqb (snd x) ""
              then filter (fun p => negb (String.eqb (fst p) (lower (fst x)))) r
              else headers_set_lc (lower (fst x)) (normalize_value (snd x)) r).
  exists (fold_left f (sort_and_combine ns) r); split.
  - refine (fold_outcome_ok _ f
              (fun '(k, v) => valid_name k && valid_value (normalize_value v)) _ _ _ _).
    + intros a [k v] _; simpl; unfold f; simpl; intros H.
      apply andb_prop in H as [Hk Hv].
      destruct (String.eqb v ""); unfold Headers_delete, Headers_set;
        [rewrite Hk | rewrite Hk, Hv]; reflexivity.
    + apply forallb_forall; intros [k v] Hin.
      destruct (sort_and_combine_valid ns _ Hns Hin) as [Hk [_ Hv]]; simpl in *.
      rewrite Hk, normalize_value_valid by exact Hv; reflexivity.
  - rewrite (fold_view f (fun x => lower (fst x))
               (fun vs (x : string * string) =>
                  if String.eqb (snd x) "" then [] else [normalize_value (snd x)])).
    + rewrite sort_and_combine_lower_filter by exact Hns; reflexivity.
    + intros r' [k v] _; unfold f; simpl.
      destruct (String.eqb v "");
        [rewrite header_values_filter_out | rewrite header_values_set];
        destruct (String.eqb (lower k) n); reflexivity.
Qed.

Lemma name_block_map (h : Headers) (n : string) :
  name_block h n
  = map (fun v => (n, v))
      (if String.eqb n "set-cookie" then header_values n h
       else opt_list (combine_values (header_values n h))).
Proof.
  unfold name_block; destruct (String.eqb n "set-cookie"); [reflexivity|].
  destruct (combine_values (header_values n h)); reflexivity.
Qed.

Lemma write_view (n : string) (l : list string) (o : option string) :
  fold_left (fun vs (x : string * string) =>
               if String.eqb (snd x) "" then [] else [normalize_value (snd x)])
    (map (fun v => (n, v)) l) (opt_list o)
  = opt_list (fold_left write_spec l o).
Proof.
  revert o; induction l as [|v l IH]; intros o; simpl; [reflexivity|].
  rewrite <- IH; unfold write_spec; destruct (String.eqb v ""); reflexivity.
Qed.

(** The step [mergeHeaders] takes on one source. *)
Lemma merge_step_eq (r : Headers) (source : HeaderSource) :
  (fun result source =>
     match source with
     | HUndefined => Ok result
     | _ => obind (normalizeHeaders source)
              (fun normalized => fold_outcome merge_entry (sort_and_combine normalized) result)
     end) r source
  = obind (normalizeHeaders source)
      (fun normalized => fold_outcome merge_entry (sort_and_combine normalized) r).
Proof. destruct source; reflexivity. Qed.

Lemma mergeHeaders_view (sources : list HeaderSource) (r : Headers) (o : option string)
    (n : string) :
  forallb source_ok sources = true ->
  (forall h, In (HHeaders h) sources -> headers_wf h = true) ->
  header_values n r = opt_list o ->
  exists r', fold_outcome (fun result source =>
                 match source with
                 | HUndefined => Ok result
                 | _ => obind (normalizeHeaders source)
                          (fun normalized =>
                             fold_outcome merge_entry (sort_and_combine normalized) result)
                 end) sources r = Ok r'
    /\ header_values n r'
       = opt_list (fold_left (fun acc source =>
                                fold_left write_spec (source_writes source n) acc)
                     sources o).
Proof.
  revert r o; induction sources as [|s sources IH]; intros r o Hok Hwf Hr.
  - exists r; split; [reflexivity|exact Hr].
  - simpl in Hok; apply andb_prop in Hok as [Hs Hok].
    simpl fold_outcome; rewrite merge_step_eq.
    destruct (normalizeHeaders_ok s Hs) as [ns [En [Wn Vn]]].
    { intros h ->; apply Hwf; left; reflexivity. }
    rewrite En; simpl obind.
    destruct (merge_pass ns r n Wn) as [r1 [E1 V1]].
    rewrite E1; simpl obind.
    apply IH; [exact Hok| intros h Hh; apply Hwf; right; exact Hh|].
    rewrite V1, Hr, name_block_map, Vn, write_view.
    reflexivity.
Qed.

Lemma mergeHeaders_fails (sources : list HeaderSource) :
  (forall h, In (HHeaders h) sources -> headers_wf h = true) ->
  forallb source_ok sources = false -> mergeHeaders sources = Err header_type_error.
Proof.
  intros Hwf Hok; unfold mergeHeaders.
  refine (fold_outcome_err _ source_ok _ sources [] _ _ Hok).
  - intros a s Hin Hs; rewrite merge_step_eq.
    destruct (normalizeHeaders_ok s Hs) as [ns [En [Wn _]]].
    { intros h ->; apply Hwf; exact Hin. }
    rewrite En; simpl obind.
    destruct (merge_pass ns a "" Wn) as [r1 [E1 _]].
    exists r1; exact E1.
  - intros a s _ Hs; rewrite merge_step_eq, normalizeHeaders_err by exact Hs.
    reflexivity.
Qed.

(** C7 (corrected): [mergeHeaders] folds the sources left to right.  Every
    value is trimmed of HTTP whitespace and names are compared
    case-insensitively.  A source writes, for each name, its values joined
    with [", "] (the values of [set-cookie] one by one); a written value
    that is empty deletes the name, and any other sets it.  A record or
    array source with an invalid name or value makes the call throw a
    [TypeError].  Merging [[{Authorization: 'X'}, {Authorization: ''}]]
    yields an empty container. *)
Theorem mergeHeaders_merge_spec (sources : list HeaderSource)
    (Hwf : forall h, In (HHeaders h) sources -> headers_wf h = true) :
  (forallb source_ok sources = true ->
     exists result, mergeHeaders sources = Ok result
       /\ forall k, headers_get k result = merge_spec sources k)
  /\ (forallb source_ok sources = false -> mergeHeaders sources = Err header_type_error)
  /\ mergeHeaders [HRecord [("Authorization"%string, Some "X"%string)];
                   HRecord [("Authorization"%string, Some ""%string)]] = Ok [].
Proof.
  split; [|split; [apply mergeHeaders_fails; exact Hwf | vm_compute; reflexivity]].
  intros Hok.
  destruct (mergeHeaders_view sources [] None "" Hok Hwf eq_refl) as [result [E _]].
  exists result; split; [exact E|].
  intros k; unfold headers_get, merge_spec.
  destruct (mergeHeaders_view sources [] None (lower k) Hok Hwf eq_refl) as [r' [E' V']].
  unfold mergeHeaders in E; rewrite E in E'; injection E' as <-.
  rewrite V'.
  destruct (fold_left _ sources None); reflexivity.
Qed.

Lemma mergeHeaders_merge_spec_witness :
  let sources := [HHeaders [("accept", "*/*"); ("set-cookie", "a=1"); ("set-cookie", "b=2")];
                  HRecord [("Accept", Some " text/html "); ("X-Id", None)];
                  HArray [("X-Trace", "1"); ("x-trace", "2")]]%string in
  (forall h, In (HHeaders h) sources -> headers_wf h = true)
  /\ forallb source_ok sources = true
  /\ exists result, mergeHeaders sources = Ok result
       /\ forall k, headers_get k result = merge_spec sources k.
Proof.
  cbv zeta.
  assert (Hwf : forall h, In (HHeaders h)
      [HHeaders [("accept", "*/*"); ("set-cookie", "a=1"); ("set-cookie", "b=2")];
       HRecord [("Accept", Some " text/html "); ("X-Id", None)];
       HArray [("X-Trace", "1"); ("x-trace", "2")]]%string -> headers_wf h = true).
  { intros h [E|[E|[E|[]]]]; try discriminate; injection E as <-; vm_compute; reflexivity. }
  split; [exact Hwf|]; split; [vm_compute; reflexivity|].
  apply (proj1 (mergeHeaders_merge_spec _ Hwf)); vm_compute; reflexivity.
Defined.

(** C7 counterexample: a value of a single space is not the empty string,
    yet it deletes the name: [mergeHeaders] trims it to [''] first.  An
    invalid name makes the call throw instead of folding. *)
Theorem mergeHeaders_whitespace_value_deletes :
  mergeHeaders [HRecord [("A"%string, Some "x"%string)];
                HRecord [("A"%string, Some " "%string)]] = Ok []
  /\ mergeHeaders [HRecord [("Bad Name"%string, Some "x"%string)]] = Err header_type_error.
Proof. split; vm_compute; reflexivity. Qed.

(** *** URL composition *)

Lemma strip_leading_slashes_spec (s : string) :
  exists m, s = (slashes m ++ strip_leading_slashes s)%string
            /\ ~ starts_with_slash (strip_leading_slashes s).
Proof.
  induction s as [|c s IH]; simpl.
  - exists O; split; [reflexivity|]; intros (s' & H); discriminate.
  - destruct (Ascii.eqb c slash) eqn:Ec.
    + apply Ascii.eqb_eq in Ec; subst c.
      destruct IH as (m & Hm & Hn); exists (S m); split; [simpl; f_equal; exact Hm|exact Hn].
    + exists O; split; [reflexivity|].
      intros (s' & H); injection H as Hc _; subst c; rewrite Ascii.eqb_refl in Ec; discriminate.
Qed.

Lemma append_slash_inv (b r : string) (c : ascii) :
  (b ++ "/")%string = String c r ->
  (b = EmptyString /\ c = slash /\ r = EmptyString)
  \/ exists b', b = String c b' /\ r = (b' ++ "/")%string.
Proof.
  destruct b as [|c' b']; simpl; intros H; injection H as H1 H2; subst.
  - left; repeat split.
  - right; exists b'; split; reflexivity.
Qed.

Lemma strip_trailing_slashes_spec (s : string) :
  exists n, s = (strip_trailing_slashes s ++ slashes n)%string
            /\ ~ ends_with_slash (strip_trailing_slashes s).
Proof.
  induction s as [|c s IH]; simpl.
  - exists O; split; [reflexivity|].
    intros ([|] & H); discriminate.
  - destruct IH as (n & Hn & Hnot).
    destruct (Ascii.eqb c slash && String.eqb (strip_trailing_slashes s) "") eqn:E.
    + apply andb_true_iff in E; destruct E as [Ec Er].
      apply Ascii.eqb_eq in Ec; apply String.eqb_eq in Er; subst c.
      rewrite Er in Hn; simpl in Hn.
      exists (S n); split; [simpl; f_equal; exact Hn|].
      intros ([|] & H); discriminate.
    + exists n; split; [simpl; f_equal; exact Hn|].
      intros (b & H); symmetry in H; apply append_slash_inv in H.
      destruct H as [(-> & -> & Hr) | (b' & -> & Hr)].
      * rewrite Hr in E; simpl in E; discriminate.
      * apply Hnot; exists b'; exact Hr.
Qed.

(** C8: [combineURLs base relative] is [relative] for an empty base, [base]
    for an empty relative, [relative] when it is absolute, and otherwise
    base without its trailing slashes, one ['/'], and relative without
    its leading slashes. *)
Theorem combineURLs_spec (base_URL relativeURL : string) :
  (base_URL = EmptyString -> combineURLs base_URL relativeURL = relativeURL)
  /\ (relativeURL = EmptyString -> combineURLs base_URL relativeURL = base_URL)
  /\ (isAbsoluteURL relativeURL = true -> combineURLs base_URL relativeURL = relativeURL)
  /\ (base_URL <> EmptyString -> relativeURL <> EmptyString ->
      isAbsoluteURL relativeURL = false ->
      exists b r n m,
        base_URL = (b ++ slashes n)%string /\ ~ ends_with_slash b
        /\ relativeURL = (slashes m ++ r)%string /\ ~ starts_with_slash r
        /\ combineURLs base_URL relativeURL = (b ++ "/" ++ r)%string).
Proof.
  unfold combineURLs; split; [|split; [|split]].
  - intros ->; reflexivity.
  - intros ->; destruct (String.eqb base_URL "") eqn:E; [|reflexivity].
    apply String.eqb_eq in E; symmetry; exact E.
  - intros Ha; rewrite Ha.
    destruct (String.eqb base_URL "") eqn:E1; [reflexivity|].
    destruct (String.eqb relativeURL "") eqn:E2; [|reflexivity].
    apply String.eqb_eq in E2; subst; discriminate.
  - intros Hb Hr Ha.
    apply String.eqb_neq in Hb, Hr; rewrite Hb, Hr, Ha.
    destruct (strip_trailing_slashes_spec base_URL) as (n & Hn & Hn').
    destruct (strip_leading_slashes_spec relativeURL) as (m & Hm & Hm').
    exists (strip_trailing_slashes base_URL), (strip_leading_slashes relativeURL), n, m.
    repeat split; assumption.
Qed.

(** The scheme test: [http://], [https://] and [//] prefixes are absolute,
    a path is not. *)
Example isAbsoluteURL_examples :
  isAbsoluteURL "http://a" = true /\ isAbsoluteURL "//cdn/x" = true
  /\ isAbsoluteURL "git+ssh://h" = true /\ isAbsoluteURL "/users" = false
  /\ isAbsoluteURL "1http://a" = false.
Proof. vm_compute; repeat split. Qed.

(** *** Response decoding *)

(** C9: with the default [json] response type, a 204 or 205 response, or
    one whose [Content-Length] is ['0'], decodes to [undefined] whatever
    its content type. *)
Theorem parseResponse_empty_json {Json : Type} (JSON_parse : string -> option Json)
    (response : Resp) (responseType : option ResponseType)
    (Hjson : responseType = None \/ responseType = Some RT_json)
    (Hempty : r_status response = 204 \/ r_status response = 205
              \/ headers_get "content-length" (r_headers response) = Some "0"%string) :
  parseResponse JSON_parse response responseType = Ok DUndefined.
Proof.
  unfold parseResponse.
  assert (Hrt : or_default responseType RT_json = RT_json)
    by (destruct Hjson as [-> | ->]; reflexivity).
  rewrite Hrt.
  destruct Hempty as [H | [H | H]]; rewrite H; [| |reflexivity];
    destruct (headers_get "content-length" (r_headers response)) as [l|];
    try destruct (String.eqb l "0"); reflexivity.
Qed.

Lemma parseResponse_empty_json_witness :
  (None = @None ResponseType \/ None = Some RT_json)
  /\ (r_status response204 = 204 \/ r_status response204 = 205
      \/ headers_get "content-length" (r_headers response204) = Some "0"%string)
  /\ parseResponse parse_nothing response204 None = Ok DUndefined.
Proof.
  split; [left; reflexivity|]. split; [left; reflexivity|].
  apply (parseResponse_empty_json parse_nothing response204 None);
    [left; reflexivity | left; reflexivity].
Defined.

(** *** Interceptor manager *)

Lemma ordered_sublist_nil_l {A} (l : list A) : ordered_sublist [] l.
Proof. induction l; constructor; assumption. Qed.

Lemma ordered_sublist_refl {A} (l : list A) : ordered_sublist l l.
Proof. induction l; constructor; assumption. Qed.

Lemma ordered_sublist_trans {A} (l1 l2 l3 : list A) :
  ordered_sublist l1 l2 -> ordered_sublist l2 l3 -> ordered_sublist l1 l3.
Proof.
  intros H12 H23; revert l1 H12; induction H23; intros l0 H0.
  - exact H0.
  - constructor; apply IHordered_sublist; exact H0.
  - inversion H0; subst.
    + constructor; apply IHordered_sublist; assumption.
    + constructor; apply IHordered_sublist; assumption.
Qed.

Lemma ordered_sublist_app {A} (l1 l2 l3 l4 : list A) :
  ordered_sublist l1 l2 -> ordered_sublist l3 l4 -> ordered_sublist (l1 ++ l3) (l2 ++ l4).
Proof.
  intros H H'; induction H; simpl.
  - exact H'.
  - constructor; exact IHordered_sublist.
  - constructor; exact IHordered_sublist.
Qed.

Lemma ordered_sublist_filter {A} (f : A -> bool) (l : list A) :
  ordered_sublist (filter f l) l.
Proof.
  induction l as [|x l IH]; simpl; [constructor|].
  destruct (f x); constructor; exact IH.
Qed.

Lemma ordered_sublist_app_r {A} (l1 l2 l3 : list A) :
  ordered_sublist l1 l3 -> ordered_sublist l1 (l2 ++ l3).
Proof. intros H; induction l2; simpl; [exact H | constructor; exact IHl2]. Qed.

Section ManagerProofs.
Context {T : Type}.

Lemma map_set_fresh (k : nat) (v : InterceptorHandler T) (l : list (nat * InterceptorHandler T)) :
  ~ In k (map fst l) -> map_set k v l = l ++ [(k, v)].
Proof.
  induction l as [|[k0 v0] l IH]; simpl; intros Hn; [reflexivity|].
  destruct (Nat.eqb k0 k) eqn:E; [apply Nat.eqb_eq in E; tauto|].
  rewrite IH by tauto; reflexivity.
Qed.

Lemma use_handlers (f : option (T -> Outcome T)) (r : option (Thrown -> Outcome (JsVal T)))
    (s : InterceptorManagerImpl T) :
  manager_inv s ->
  handlers (fst (use f r s)) = handlers s ++ [(nextId s, mkHandler f r)].
Proof.
  intros [_ Hlt]; simpl; apply map_set_fresh.
  intros Hin; specialize (Hlt _ Hin); lia.
Qed.

Lemma map_fst_filter_In (p : nat * InterceptorHandler T -> bool) l k :
  In k (map fst (filter p l)) -> In k (map fst l).
Proof.
  intros H; apply in_map_iff in H; destruct H as (x & <- & Hx).
  apply filter_In in Hx; apply in_map; tauto.
Qed.

Lemma NoDup_map_fst_filter (p : nat * InterceptorHandler T -> bool) l :
  NoDup (map fst l) -> NoDup (map fst (filter p l)).
Proof.
  induction l as [|x l IH]; simpl; intros H; [constructor|].
  inversion H; subst.
  destruct (p x); simpl; [constructor|]; auto.
  intros Hin; apply map_fst_filter_In in Hin; contradiction.
Qed.

Lemma run_ops_props (ops : list (ManagerOp T)) :
  forall s, manager_inv s ->
  let '(final, ids, regs) := run_ops ops s in
  manager_inv final
  /\ NoDup ids
  /\ (forall i, In i ids -> nextId s <= i < nextId final)%nat
  /\ (nextId s <= nextId final)%nat
  /\ ordered_sublist (handlers final) (handlers s ++ regs).
Proof.
  induction ops as [|op ops IH]; intros s Hinv; cbn [run_ops].
  - split; [exact Hinv|]. split; [constructor|].
    split; [simpl; tauto|]. split; [lia|].
    rewrite app_nil_r; apply ordered_sublist_refl.
  - destruct op as [f r|id|].
    + destruct (use f r s) as [s' id] eqn:Hu.
      assert (Hid : id = nextId s) by (injection Hu as _ <-; reflexivity).
      assert (Hs' : handlers s' = handlers s ++ [(nextId s, mkHandler f r)]).
      { rewrite <- (use_handlers f r s Hinv), Hu; reflexivity. }
      assert (Hn' : nextId s' = S (nextId s)) by (injection Hu as <- _; reflexivity).
      assert (Hinv' : manager_inv s').
      { destruct Hinv as [Hnd Hlt]; split.
        - rewrite Hs', map_app; simpl.
          apply NoDup_app; [exact Hnd | repeat constructor; simpl; tauto|].
          intros x Hx [Hy|[]]; subst x; specialize (Hlt _ Hx); lia.
        - intros k Hk; rewrite Hs', map_app in Hk; rewrite Hn'.
          apply in_app_or in Hk; destruct Hk as [Hk|[Hk|[]]];
            [specialize (Hlt _ Hk); lia | simpl in Hk; lia]. }
      specialize (IH s' Hinv').
      destruct (run_ops ops s') as [[final ids] regs].
      destruct IH as (Hf & Hnd & Hids & Hle & Hsub).
      subst id; rewrite Hn' in Hids, Hle.
      split; [exact Hf|]. split.
      { constructor; [|exact Hnd]. intros Hin; specialize (Hids _ Hin); lia. }
      split; [intros i [<-|Hi]; [lia | specialize (Hids _ Hi); lia]|].
      split; [lia|].
      rewrite Hs', <- app_assoc in Hsub; exact Hsub.
    + assert (Hinv' : manager_inv (eject id s)).
      { destruct Hinv as [Hnd Hlt]; split; simpl.
        - apply NoDup_map_fst_filter; exact Hnd.
        - intros k Hk; apply Hlt; apply map_fst_filter_In in Hk; exact Hk. }
      specialize (IH (eject id s) Hinv').
      destruct (run_ops ops (eject id s)) as [[final ids] regs].
      destruct IH as (Hf & Hnd & Hids & Hle & Hsub).
      split; [exact Hf|]. split; [exact Hnd|]. split; [exact Hids|]. split; [exact Hle|].
      eapply ordered_sublist_trans; [exact Hsub|].
      apply ordered_sublist_app; [apply ordered_sublist_filter | apply ordered_sublist_refl].
    + assert (Hinv' : manager_inv (clear s)) by (split; [constructor | simpl; tauto]).
      specialize (IH (clear s) Hinv').
      destruct (run_ops ops (clear s)) as [[final ids] regs].
      destruct IH as (Hf & Hnd & Hids & Hle & Hsub).
      split; [exact Hf|]. split; [exact Hnd|]. split; [exact Hids|]. split; [exact Hle|].
      apply ordered_sublist_app_r; exact Hsub.
Qed.
End ManagerProofs.

(** C10: along any sequence of [use], [eject] and [clear] calls from a new
    manager, the ids [use] returns are pairwise distinct and the next one
    is fresh too; the handlers are registrations in registration order,
    under distinct ids; [eject id] removes exactly the entry under [id]
    and keeps the others in their order; [clear] leaves no handler. *)
Theorem manager_use_eject_clear {T : Type} (ops : list (ManagerOp T)) :
  let '(m, ids, regs) := run_ops ops newManager in
  NoDup ids
  /\ (forall f r, ~ In (snd (use f r m)) ids)
  /\ NoDup (map fst (handlers m))
  /\ ordered_sublist (handlers m) regs
  /\ (forall id,
        handlers (eject id m) = filter (fun p => negb (Nat.eqb (fst p) id)) (handlers m)
        /\ getHandlers (eject id m)
           = map snd (filter (fun p => negb (Nat.eqb (fst p) id)) (handlers m))
        /\ (forall p, In p (handlers (eject id m)) <-> In p (handlers m) /\ fst p <> id)
        /\ ordered_sublist (handlers (eject id m)) regs)
  /\ getHandlers (clear m) = [] /\ size (clear m) = 0%nat.
Proof.
  assert (H0 : manager_inv (T := T) newManager) by (split; [constructor | simpl; tauto]).
  pose proof (run_ops_props ops newManager H0) as H.
  destruct (run_ops ops newManager) as [[m ids] regs].
  destruct H as ([Hnd Hlt] & Hids & Hrange & _ & Hsub); simpl in Hsub.
  split; [exact Hids|]. split.
  { intros f r Hin; specialize (Hrange _ Hin); simpl in Hrange; lia. }
  split; [exact Hnd|]. split; [exact Hsub|]. split; [|split; reflexivity].
  intros id; split; [reflexivity|]. split; [reflexivity|]. split.
  - intros p; simpl; unfold map_delete; rewrite filter_In, negb_true_iff, Nat.eqb_neq;
      tauto.
  - eapply ordered_sublist_trans; [apply ordered_sublist_filter | exact Hsub].
Qed.

(** *** Error construction and classification *)

(** X1: [createNetworkError] classifies by the [Error]'s name first, then by
    a [timeout] mention in its message; the result is a [RequestError]
    without status. *)
Theorem createNetworkError_classification (name message : string)
    (config : InternalRequestConfig) :
  let e := createNetworkError name message config in
  isRequestError e = true /\ getErrorStatus e = None
  /\ (isCancelError e = true <-> name = "AbortError"%string)
  /\ (isTimeoutError e = true <->
        name <> "AbortError"%string
        /\ (name = "TimeoutError"%string \/ includes "timeout" message = true))
  /\ (isNetworkError e = true <->
        name <> "AbortError"%string /\ name <> "TimeoutError"%string
        /\ includes "timeout" message = false).
Proof.
  cbv zeta; unfold createNetworkError.
  destruct (String.eqb_spec name "AbortError") as [->|H1].
  - cbn; intuition congruence.
  - destruct (String.eqb_spec name "TimeoutError") as [->|H2];
      destruct (includes "timeout" message) eqn:H3; cbn; intuition congruence.
Qed.

(** X2: [createResponseError] records the response status; the error is a
    server error exactly when the status is at least 500 and a client error
    otherwise (whatever the status, e.g. 3xx), never a cancel, timeout or
    network error. *)
Theorem createResponseError_classification (response : Resp) (statusText : string)
    (config : InternalRequestConfig) :
  let e := createResponseError response statusText config in
  getErrorStatus e = Some (r_status response)
  /\ (isServerError e = true <-> 500 <= r_status response)
  /\ (isClientError e = true <-> r_status response < 500)
  /\ isCancelError e = false /\ isNetworkError e = false /\ isTimeoutError e = false.
Proof.
  cbv zeta; unfold createResponseError.
  destruct (r_status response >=? 500) eqn:E;
    [rewrite Z.geb_le in E | rewrite Z.geb_leb, Z.leb_gt in E];
    cbn; intuition (try lia; try discriminate).
Qed.

(** X3: at most one of [isNetworkError], [isTimeoutError], [isCancelError],
    [isClientError] and [isServerError] holds of any thrown value. *)
Theorem error_classifiers_exclusive (e : Thrown) :
  (length (filter (fun b => b)
     [isNetworkError e; isTimeoutError e; isCancelError e;
      isClientError e; isServerError e]) <= 1)%nat.
Proof.
  destruct e as [r|r|n m| | |]; cbn; try lia.
  - destruct (err_code r) as [[]|]; cbn; lia.
  - destruct (String.eqb n "AbortError"); cbn; lia.
Qed.

(** *** Retry edge cases *)



(** X5: with a limit that is not at least 0 (a negative number, or NaN as
    from [{limit: undefined}]), [withRetry] never invokes [fn] and
    rejects with [new Error('Retry failed')]. *)
Theorem withRetry_negative_limit {A} (fuel : nat) (fn : nat -> Outcome A) (arg : RetryArg)
    (rc : InternalRequestConfig) (ab : nat -> bool)
    (Hneg : d_le (double_of_Z 0) (limit (normalizeRetryConfig arg)) = false) :
  withRetry fuel fn arg rc ab
  = Some (mkRetryRun (Err (TError "Error" "Retry failed")) 0%nat []).
Proof.
  unfold withRetry.
  destruct (d_eqb (limit (normalizeRetryConfig arg)) (double_of_Z 0)) eqn:E.
  - apply d_eqb_le in E; congruence.
  - destruct fuel; cbn [retry_loop]; rewrite Hneg; reflexivity.
Qed.

Lemma withRetry_negative_limit_witness :
  d_le (double_of_Z 0) (limit (normalizeRetryConfig (RetryNumber (double_of_Z (-1))))) = false
  /\ withRetry 10 (fun _ => Ok tt) (RetryNumber (double_of_Z (-1))) cfgGET neverAborted
     = Some (mkRetryRun (Err (TError "Error" "Retry failed")) 0%nat [])
  /\ d_le (double_of_Z 0)
       (limit (normalizeRetryConfig
                 (RetryObject (mkRetryOptions Undefined Absent Absent Absent
                                 Absent Absent Absent Absent)))) = false
  /\ withRetry 10 (fun _ => Ok tt)
       (RetryObject (mkRetryOptions Undefined Absent Absent Absent Absent Absent Absent Absent))
       cfgGET neverAborted
     = Some (mkRetryRun (Err (TError "Error" "Retry failed")) 0%nat []).
Proof.
  split; [vm_compute; reflexivity|].
  split; [apply (withRetry_negative_limit 10 (fun _ => Ok tt) (RetryNumber (double_of_Z (-1)))
                   cfgGET neverAborted); vm_compute; reflexivity|].
  split; [vm_compute; reflexivity|].
  apply (withRetry_negative_limit 10 (fun _ => Ok tt)
           (RetryObject (mkRetryOptions Undefined Absent Absent Absent Absent Absent Absent Absent))
           cfgGET neverAborted).
  vm_compute; reflexivity.
Defined.

(** X6: the normalized limit is 0 ([=== 0]) exactly for [undefined], a
    number equal to 0, and an object whose [limit] is missing or equal to
    0; then [fn] is invoked once and its outcome is returned, whatever the
    other options say and whatever the bound on invocations. *)
Theorem withRetry_retries_disabled {A} (fuel : nat) (fn : nat -> Outcome A) (arg : RetryArg)
    (rc : InternalRequestConfig) (ab : nat -> bool) :
  (d_eqb (limit (normalizeRetryConfig arg)) (double_of_Z 0) = true <->
     arg = RetryUndefined
     \/ (exists n, arg = RetryNumber n /\ d_eqb n (double_of_Z 0) = true)
     \/ (exists o, arg = RetryObject o
                   /\ (o_limit o = Absent
                       \/ exists n, o_limit o = Given n /\ d_eqb n (double_of_Z 0) = true)))
  /\ (d_eqb (limit (normalizeRetryConfig arg)) (double_of_Z 0) = true ->
      withRetry fuel fn arg rc ab = Some (mkRetryRun (fn O) 1%nat [])).
Proof.
  split.
  - destruct arg as [|n|o]; cbn [normalizeRetryConfig].
    + split; [intros _; left; reflexivity | intros _; reflexivity].
    + destruct (d_eqb n (double_of_Z 0)) eqn:En.
      * split; [intros _; right; left; exists n; split; [reflexivity | exact En]
               | intros _; reflexivity].
      * cbn [limit with_limit]; rewrite En; split; [discriminate|].
        intros [H|[(n' & H & H')|(o & H & _)]]; try discriminate.
        injection H as <-; congruence.
    + cbn [limit]; split.
      * intros H; right; right; exists o; split; [reflexivity|].
        destruct (o_limit o) as [| |n]; cbn [spread] in H.
        -- left; reflexivity.
        -- vm_compute in H; discriminate H.
        -- right; exists n; split; [reflexivity | exact H].
      * intros [H|[(n & H & _)|(o' & H & [Ho|(n & Ho & Hn)])]]; try discriminate;
          injection H as <-; rewrite Ho; first [reflexivity | exact Hn].
  - intros H; unfold withRetry; rewrite H; reflexivity.
Qed.

(** X7: a cancel error ([isCancelError]) from the first invocation is never
    retried when the limit is at least 0: one call, that error. *)
Theorem withRetry_cancel_not_retried {A} (fuel : nat) (fn : nat -> Outcome A) (arg : RetryArg)
    (rc : InternalRequestConfig) (ab : nat -> bool) (e : Thrown)
    (Hlim : d_le (double_of_Z 0) (limit (normalizeRetryConfig arg)) = true)
    (Hfn : fn O = Err e) (Hc : isCancelError e = true) :
  withRetry (S fuel) fn arg rc ab = Some (mkRetryRun (Err e) 1%nat []).
Proof.
  unfold withRetry.
  destruct (d_eqb _ _); [rewrite Hfn; reflexivity|].
  cbn [retry_loop]; rewrite Hlim, Hfn.
  unfold shouldRetry; rewrite Hc.
  destruct (d_ge _ _); reflexivity.
Qed.

Lemma withRetry_cancel_not_retried_witness :
  let e := createNetworkError "AbortError" "" cfgGET in
  d_le (double_of_Z 0) (limit (normalizeRetryConfig (RetryNumber (double_of_Z 3)))) = true
  /\ withRetry 10 (fun _ => @Err unit e) (RetryNumber (double_of_Z 3)) cfgGET neverAborted
     = Some (mkRetryRun (Err e) 1%nat []).
Proof.
  split; [vm_compute; reflexivity|].
  apply (withRetry_cancel_not_retried 9 (fun _ => @Err unit (createNetworkError "AbortError" "" cfgGET))
           (RetryNumber (double_of_Z 3)) cfgGET neverAborted
           (createNetworkError "AbortError" "" cfgGET));
    vm_compute; reflexivity.
Defined.




(** *** Cancellation *)

(** X8: [isCancellationError] accepts [Cancel] values and [AbortError]
    errors but no [RequestError]: on thrown values it is [isCancelError]
    without the [RequestError] case, so the [ERR_CANCELED] error that
    [createNetworkError] builds from an aborted fetch is a cancel error for
    [isCancelError] and not for [isCancellationError]. *)
Theorem isCancellationError_vs_isCancelError :
  (forall c, isCancellationError (VCancel c) = true)
  /\ (forall e, isCancellationError (VThrown e) = negb (isRequestError e) && isCancelError e)
  /\ (forall message config,
        isCancelError (createNetworkError "AbortError" message config) = true
        /\ isCancellationError (VThrown (createNetworkError "AbortError" message config)) = false).
Proof.
  split; [reflexivity|]. split.
  - intros [r|r|n m| | |]; reflexivity.
  - intros message config; split; reflexivity.
Qed.

(** *** Cancel tokens *)

Lemma abort_controller_prefix (r : Cancel) (k : nat) (l : list (option Cancel)) :
  abort_controller r k (repeat (Some r) k ++ None :: l) = repeat (Some r) (S k) ++ l.
Proof. induction k as [|k IH]; simpl; [reflexivity|rewrite IH; reflexivity]. Qed.

Lemma abort_controllers_all (r : Cancel) (m : nat) :
  forall k, fold_left (fun cs i => abort_controller r i cs) (seq k m)
              (repeat (Some r) k ++ repeat None m) = repeat (Some r) (k + m).
Proof.
  induction m as [|m IH]; intros k; simpl.
  - rewrite app_nil_r, Nat.add_0_r; reflexivity.
  - rewrite abort_controller_prefix, IH, Nat.add_succ_r; reflexivity.
Qed.

Lemma repeat_snoc {A} (x : A) (n : nat) : repeat x n ++ [x] = repeat x (S n).
Proof. induction n as [|n IH]; simpl; [reflexivity|rewrite IH; reflexivity]. Qed.

Lemma cancel_step_inv (op : CancelOp) (w : CancelWorld) :
  cancel_inv w ->
  cancel_inv (match op with
              | CCancel m => cancel_token m w
              | CBridge => cancelTokenToAbortController w
              end).
Proof.
  unfold cancel_inv; destruct op as [m|]; destruct w as [[r|] res cs rs]; simpl.
  - tauto.
  - intros (Hc & Hr & Hres); subst rs res.
    pose proof (abort_controllers_all (mkCancel m) (length cs) 0) as H; simpl in H.
    rewrite <- Hc in H; rewrite H.
    split; [rewrite repeat_length; reflexivity | reflexivity].
  - intros (Hc & Hres); split; [|exact Hres].
    rewrite length_app; simpl; rewrite Nat.add_1_r, <- repeat_snoc, <- Hc; reflexivity.
  - intros (Hc & Hr & Hres); rewrite length_app; simpl; rewrite Nat.add_1_r.
    split; [rewrite <- repeat_snoc, <- Hc; reflexivity|].
    split; [rewrite seq_S, Hr; reflexivity | exact Hres].
Qed.

Lemma run_cancel_ops_inv (ops : list CancelOp) :
  forall w, cancel_inv w -> cancel_inv (run_cancel_ops ops w).
Proof.
  induction ops as [|op ops IH]; intros w Hw; simpl; [exact Hw|].
  apply IH, cancel_step_inv, Hw.
Qed.

Lemma run_cancel_ops_reason (ops : list CancelOp) :
  forall w, reason (run_cancel_ops ops w)
            = match reason w with
              | Some r => Some r
              | None => option_map mkCancel (first_cancel ops)
              end.
Proof.
  induction ops as [|[m|] ops IH]; intros w; simpl.
  - destruct (reason w); reflexivity.
  - rewrite IH; unfold cancel_token; destruct (reason w) eqn:E; simpl;
      [rewrite E|]; reflexivity.
  - rewrite IH; unfold cancelTokenToAbortController; destruct (reason w); reflexivity.
Qed.

(** X9: along any sequence of [cancel] calls and
    [cancelTokenToAbortController] calls on a fresh token source, the
    token's reason is the [CancelImpl] of the first [cancel] call (later
    calls change nothing), its promise is resolved at most once and with
    that reason, [throwIfRequested] throws exactly when some [cancel] call
    happened, and every controller made from the token (before or after
    the cancel) is aborted with the token's reason, or not aborted while
    the token is not canceled. *)
Theorem cancel_token_first_cancel_wins (ops : list CancelOp) :
  let w := run_cancel_ops ops cancel_source in
  reason w = option_map mkCancel (first_cancel ops)
  /\ resolutions w = match reason w with Some r => [r] | None => [] end
  /\ (throwIfRequested w = inl tt <-> first_cancel ops = None)
  /\ Forall (fun c => c = reason w) (controllers w).
Proof.
  cbv zeta.
  pose proof (run_cancel_ops_reason ops cancel_source) as Hr; simpl in Hr.
  assert (Hi : cancel_inv (run_cancel_ops ops cancel_source))
    by (apply run_cancel_ops_inv; unfold cancel_inv; simpl; tauto).
  unfold cancel_inv, throwIfRequested in *.
  rewrite Hr in *.
  destruct (first_cancel ops) as [m|]; simpl in *.
  - destruct Hi as [Hc Hres].
    split; [reflexivity|]. split; [exact Hres|]. split; [split; discriminate|].
    rewrite Hc; apply Forall_forall; intros x Hx; apply repeat_spec in Hx; exact Hx.
  - destruct Hi as (Hc & _ & Hres).
    split; [reflexivity|]. split; [exact Hres|]. split; [tauto|].
    rewrite Hc; apply Forall_forall; intros x Hx; apply repeat_spec in Hx; exact Hx.
Qed.

(** *** Error interceptors *)

Lemma error_loop_outcome (config : InternalRequestConfig) (hs : list (InterceptorHandler Resp)) :
  forall error,
    match error_loop config hs error with
    | Ok r => exists h rej e, In h hs /\ rejected h = Some rej /\ recover_value (rej e) = Ok (Some r)
    | Err e => e = error \/ isRequestError e = true
    end.
Proof.
  induction hs as [|h hs IH]; intros error; simpl; [left; reflexivity|].
  destruct (rejected h) as [rej|] eqn:Hr.
  - destruct (recover_value (rej error)) as [[r|]|re] eqn:Hv.
    + exists h, rej, error; auto.
    + specialize (IH error); destruct (error_loop config hs error); [|exact IH].
      destruct IH as (h' & rej' & e' & Hin & H1 & H2); exists h', rej', e'; auto.
    + set (e1 := if isRequestError re then re else createErrorInterceptorError re config).
      assert (He1 : isRequestError e1 = true)
        by (subst e1; destruct (isRequestError re) eqn:E; [exact E | reflexivity]).
      specialize (IH e1); destruct (error_loop config hs e1).
      * destruct IH as (h' & rej' & e' & Hin & H1 & H2); exists h', rej', e'; auto.
      * right; destruct IH as [->|IH]; assumption.
  - specialize (IH error); destruct (error_loop config hs error); [|exact IH].
    destruct IH as (h' & rej' & e' & Hin & H1 & H2); exists h', rej', e'; auto.
Qed.

(** X10: [applyErrorInterceptors] resolves only with a response that some
    registered handler's reject function produced (directly or through a
    promise); when it rejects, the error is the original one or a
    [RequestError] (a reject function that throws anything else is
    wrapped by [createInterceptorError]). *)
Theorem applyErrorInterceptors_outcome (error : Thrown) (m : InterceptorManagerImpl Resp)
    (config : InternalRequestConfig) :
  match applyErrorInterceptors error m config with
  | Ok r => exists h rej e, In h (getHandlers m) /\ rejected h = Some rej
                            /\ recover_value (rej e) = Ok (Some r)
  | Err e => e = error \/ isRequestError e = true
  end.
Proof.
  unfold applyErrorInterceptors.
  pose proof (error_loop_outcome config (rev (getHandlers m)) error) as H.
  destruct (error_loop config (rev (getHandlers m)) error); [|exact H].
  destruct H as (h & rej & e & Hin & H1 & H2); exists h, rej, e.
  split; [apply in_rev; exact Hin | auto].
Qed.

Lemma error_loop_app (config : InternalRequestConfig) (l1 l2 : list (InterceptorHandler Resp)) :
  forall e, error_loop config (l1 ++ l2) e
            = match error_loop config l1 e with
              | Ok r => Ok r
              | Err e' => error_loop config l2 e'
              end.
Proof.
  induction l1 as [|h l1 IH]; intros e; simpl; [reflexivity|].
  destruct (rejected h) as [rej|]; [|apply IH].
  destruct (recover_value (rej e)) as [[r|]|re]; [reflexivity | apply IH | apply IH].
Qed.

(** X11: error interceptors are consulted from the last registered to the
    first: with the handlers [hs1 ++ hs2], those of [hs2] run first; a
    response they produce is the result, otherwise the handlers of [hs1]
    continue with the error as [hs2] left it. *)
Theorem applyErrorInterceptors_order (error : Thrown)
    (hs1 hs2 : list (nat * InterceptorHandler Resp)) (n : nat)
    (config : InternalRequestConfig) :
  applyErrorInterceptors error (mkManager (hs1 ++ hs2) n) config
  = match applyErrorInterceptors error (mkManager hs2 n) config with
    | Ok r => Ok r
    | Err e => applyErrorInterceptors e (mkManager hs1 n) config
    end.
Proof.
  unfold applyErrorInterceptors, getHandlers; simpl.
  rewrite map_app, rev_app_distr, error_loop_app; reflexivity.
Qed.

Lemma error_loop_unrecovered (config : InternalRequestConfig) (hs : list (InterceptorHandler Resp))
    (H : forall h rej e, In h hs -> rejected h = Some rej -> recover_value (rej e) = Ok None) :
  forall error, error_loop config hs error = Err error.
Proof.
  induction hs as [|h hs IH]; intros error; simpl; [reflexivity|].
  assert (IH' : forall error, error_loop config hs error = Err error)
    by (apply IH; intros h' rej e Hin; apply H; right; exact Hin).
  destruct (rejected h) as [rej|] eqn:Hr; [|apply IH'].
  rewrite (H h rej error (or_introl eq_refl) Hr); apply IH'.
Qed.

(** X12: when every registered reject function returns without throwing
    and without a response, [applyErrorInterceptors] rethrows the original
    error unchanged. *)
Theorem applyErrorInterceptors_unrecovered (error : Thrown) (m : InterceptorManagerImpl Resp)
    (config : InternalRequestConfig)
    (H : forall h rej e, In h (getHandlers m) -> rejected h = Some rej ->
                         recover_value (rej e) = Ok None) :
  applyErrorInterceptors error m config = Err error.
Proof.
  unfold applyErrorInterceptors; apply error_loop_unrecovered.
  intros h rej e Hin; apply H; apply in_rev; exact Hin.
Qed.

Lemma applyErrorInterceptors_unrecovered_witness :
  applyErrorInterceptors error500
    (mkManager [(0%nat, mkHandler None (Some (fun _ : Thrown => Ok (@JOther Resp))))] 1)
    cfgGET = Err error500.
Proof.
  apply applyErrorInterceptors_unrecovered.
  intros h rej e Hin Hr; simpl in Hin; destruct Hin as [<-|[]].
  simpl in Hr; injection Hr as <-; reflexivity.
Defined.

(** *** Request and response interceptor pipelines *)

Lemma request_loop_err_shape (L : list (nat * InterceptorHandler InternalRequestConfig)) :
  forall cur log e, fst (request_loop L cur log) = Err e ->
    isRequestError e = true
    \/ exists r, e = TRecord r /\ err_code r = Some ERR_BAD_REQUEST /\ err_status r = None.
Proof.
  assert (Hn : forall e0 cur,
             let n := if isRequestError e0 then e0 else createRequestInterceptorError e0 cur in
             isRequestError n = true
             \/ exists r, n = TRecord r /\ err_code r = Some ERR_BAD_REQUEST /\ err_status r = None).
  { intros e0 cur; cbv zeta; destruct (isRequestError e0) eqn:E; [left; exact E|].
    right; eexists; split; [reflexivity | split; reflexivity]. }
  induction L as [|[i h] L IH]; intros cur log e H; simpl in H; [discriminate|].
  destruct (fulfilled h) as [f|]; [|eapply IH; exact H].
  destruct (f cur) as [c|e0]; [eapply IH; exact H|].
  destruct (rejected h) as [rej|].
  - destruct (recover_value (rej _)) as [[c|]|re].
    + eapply IH; exact H.
    + injection H as <-; apply Hn.
    + injection H as <-; apply Hn.
  - injection H as <-; apply Hn.
Qed.

(** X13: when the request phase rejects, the error is a [RequestError]
    thrown by a handler, or else the plain object [createInterceptorError]
    builds, with code [ERR_BAD_REQUEST] and no status, which
    [isRequestError] does not recognise. *)
Theorem applyRequestInterceptors_error_shape (config : InternalRequestConfig)
    (m : InterceptorManagerImpl InternalRequestConfig) (e : Thrown)
    (H : fst (applyRequestInterceptors config m) = Err e) :
  isRequestError e = true
  \/ exists r, e = TRecord r /\ err_code r = Some ERR_BAD_REQUEST /\ err_status r = None.
Proof. exact (request_loop_err_shape _ config [] e H). Qed.

Lemma applyRequestInterceptors_error_shape_witness :
  isRequestError (createRequestInterceptorError boom cfgGET) = true
  \/ exists r, createRequestInterceptorError boom cfgGET = TRecord r
               /\ err_code r = Some ERR_BAD_REQUEST /\ err_status r = None.
Proof.
  apply (applyRequestInterceptors_error_shape cfgGET
           (mkManager [(0%nat, mkHandler (Some throwing_fulfilled) None)] 1)).
  vm_compute; reflexivity.
Defined.

Lemma response_loop_err (config : InternalRequestConfig) (L : list (nat * InterceptorHandler Resp)) :
  forall cur log e, fst (response_loop config L cur log) = Err e -> isRequestError e = true.
Proof.
  assert (Hn : forall e0 cur,
             isRequestError (if isRequestError e0 then e0
                             else createResponseInterceptorError e0 config cur) = true).
  { intros e0 cur; destruct (isRequestError e0) eqn:E; [exact E | reflexivity]. }
  induction L as [|[i h] L IH]; intros cur log e H; simpl in H; [discriminate|].
  destruct (fulfilled h) as [f|]; [|eapply IH; exact H].
  destruct (f cur) as [c|e0]; [eapply IH; exact H|].
  destruct (rejected h) as [rej|].
  - destruct (recover_value (rej _)) as [[c|]|re].
    + eapply IH; exact H.
    + injection H as <-; apply Hn.
    + injection H as <-; apply Hn.
  - injection H as <-; apply Hn.
Qed.

(** X14: when the response phase rejects, the error is always a
    [RequestError] ([createInterceptorError] there builds one with
    [createError]). *)
Theorem applyResponseInterceptors_error_is_RequestError (response : Resp)
    (m : InterceptorManagerImpl Resp) (config : InternalRequestConfig) (e : Thrown)
    (H : fst (applyResponseInterceptors response m config) = Err e) :
  isRequestError e = true.
Proof. exact (response_loop_err config _ response [] e H). Qed.

Lemma applyResponseInterceptors_error_is_RequestError_witness :
  isRequestError (createResponseInterceptorError boom cfgGET response204) = true.
Proof.
  apply (applyResponseInterceptors_error_is_RequestError response204
           (mkManager [(0%nat, mkHandler (Some throwing_response_fulfilled) None)] 1) cfgGET).
  vm_compute; reflexivity.
Defined.

Lemma request_loop_run (L : list (nat * InterceptorHandler InternalRequestConfig)) :
  forall c c' log, run_fulfilled (map snd L) c = Ok c' -> fst (request_loop L c log) = Ok c'.
Proof.
  induction L as [|[i h] L IH]; intros c c' log H; simpl in *.
  - exact H.
  - destruct (fulfilled h) as [f|]; [|apply IH; exact H].
    destruct (f c) as [y|e]; [apply IH; exact H | discriminate].
Qed.

Lemma response_loop_run (config : InternalRequestConfig) (L : list (nat * InterceptorHandler Resp)) :
  forall c c' log, run_fulfilled (map snd L) c = Ok c' -> fst (response_loop config L c log) = Ok c'.
Proof.
  induction L as [|[i h] L IH]; intros c c' log H; simpl in *.
  - exact H.
  - destruct (fulfilled h) as [f|]; [|apply IH; exact H].
    destruct (f c) as [y|e]; [apply IH; exact H | discriminate].
Qed.

(** X15: when no fulfill function throws, the reject functions play no part:
    the request phase returns the composition of the fulfill functions in
    registration order, the response phase in reverse registration
    order. *)
Theorem interceptors_compose_when_nothing_throws :
  (forall (c c' : InternalRequestConfig) (m : InterceptorManagerImpl InternalRequestConfig),
     run_fulfilled (getHandlers m) c = Ok c' -> fst (applyRequestInterceptors c m) = Ok c')
  /\ (forall (r r' : Resp) (m : InterceptorManagerImpl Resp) (config : InternalRequestConfig),
     run_fulfilled (rev (getHandlers m)) r = Ok r' ->
     fst (applyResponseInterceptors r m config) = Ok r').
Proof.
  split.
  - intros c c' m H; unfold applyRequestInterceptors.
    apply request_loop_run; rewrite map_snd_index_handlers; exact H.
  - intros r r' m config H; unfold applyResponseInterceptors.
    apply response_loop_run; rewrite map_rev, map_snd_index_handlers; exact H.
Qed.

(** *** Copying interceptors ([extend], [clone]) *)

Lemma use_inv {T} (f : option (T -> Outcome T)) (r : option (Thrown -> Outcome (JsVal T)))
    (s : InterceptorManagerImpl T) :
  manager_inv s -> manager_inv (fst (use f r s)).
Proof.
  intros Hinv; pose proof (use_handlers f r s Hinv) as Hs.
  destruct Hinv as [Hnd Hlt]; split.
  - rewrite Hs, map_app; simpl.
    apply NoDup_app; [exact Hnd | repeat constructor; simpl; tauto|].
    intros x Hx [Hy|[]]; subst x; specialize (Hlt _ Hx); lia.
  - intros k Hk; rewrite Hs, map_app in Hk; simpl.
    apply in_app_or in Hk; destruct Hk as [Hk|[Hk|[]]];
      [specialize (Hlt _ Hk); lia | simpl in Hk; lia].
Qed.

Lemma copy_fold {T} (hs : list (InterceptorHandler T)) :
  forall dst, manager_inv dst ->
    handlers (fold_left (fun d handler => fst (use (fulfilled handler) (rejected handler) d)) hs dst)
    = handlers dst ++ combine (seq (nextId dst) (length hs)) hs.
Proof.
  induction hs as [|h hs IH]; intros dst Hinv; cbn [fold_left].
  - rewrite app_nil_r; reflexivity.
  - rewrite IH by (apply use_inv; exact Hinv).
    rewrite (use_handlers _ _ _ Hinv); simpl.
    rewrite <- app_assoc; destruct h; reflexivity.
Qed.

(** X16: the interceptors [extend()] and [clone()] copy into the new
    client's fresh manager are the same handlers in the same order, but
    re-registered under the ids 0, 1, 2, ...: the ids of the original
    manager are not kept. *)
Theorem copy_interceptors_renumbers {T} (src : InterceptorManagerImpl T) :
  handlers (copy_interceptors src newManager) = index_handlers (getHandlers src)
  /\ getHandlers (copy_interceptors src newManager) = getHandlers src.
Proof.
  assert (H : handlers (copy_interceptors src newManager) = index_handlers (getHandlers src)).
  { unfold copy_interceptors; rewrite copy_fold by (split; [constructor | simpl; tauto]).
    reflexivity. }
  split; [exact H|].
  unfold getHandlers at 1; rewrite H; apply map_snd_index_handlers.
Qed.

(** *** Header lookup *)


Lemma token_char_ascii (c : ascii) : is_token_char c = true -> (nat_of_ascii c < 128)%nat.
Proof.
  intros H; apply Nat.ltb_lt.
  assert (E : implb (is_token_char c) (nat_of_ascii c <? 128)%nat = true)
    by (destruct c as [[] [] [] [] [] [] [] []]; reflexivity).
  rewrite H in E; exact E.
Qed.

Lemma valid_name_ascii (s : string) : valid_name s = true -> ascii_string s = true.
Proof.
  unfold valid_name, ascii_string; intros H; apply andb_prop in H as [_ H].
  rewrite forallb_forall in *; intros c Hc.
  apply Nat.ltb_lt, token_char_ascii, H, Hc.
Qed.

Lemma record_last_nomatch (n : string) (l : list (string * option string))
    (acc : option string) :
  (forall e, In e l -> String.eqb (lower (fst e)) n = false) ->
  fold_left (fun acc '(k, v) =>
               match v with
               | Some v' => if String.eqb (lower k) n then Some v' else acc
               | None => acc
               end) l acc = acc.
Proof.
  revert acc; induction l as [|[k0 v0] l IH]; intros acc Hn; simpl; [reflexivity|].
  assert (E := Hn (k0, v0) (or_introl eq_refl)); simpl in E.
  destruct v0; [rewrite E|]; apply IH; intros e He; apply Hn; right; exact He.
Qed.

Lemma record_last_first (toLowerCase : string -> string) (key : string)
    (entries : list (string * option string)) (acc : option string) :
  (forall s, ascii_string s = true -> toLowerCase s = lower s) ->
  ascii_string key = true ->
  Forall (fun e => ascii_string (fst e) = true) entries ->
  NoDup (map (fun e => lower (fst e)) entries) ->
  fold_left (fun acc '(k, v) =>
               match v with
               | Some v' => if String.eqb (lower k) (lower key) then Some v' else acc
               | None => acc
               end) entries acc
  = match getHeader toLowerCase (HRecord entries) key with
    | Ok (Some v) => Some v
    | _ => acc
    end.
Proof.
  intros Hlc Hkey; revert acc; induction entries as [|[k0 v0] entries IH];
    intros acc Hnames Hnd; [reflexivity|].
  inversion Hnd as [|? ? Hn Hnd']; subst.
  inversion Hnames as [|? ? Hk0 Hnames']; subst.
  simpl fold_left; cbn [getHeader find fst]; rewrite !Hlc by assumption.
  destruct (String.eqb (lower k0) (lower key)) eqn:E.
  - apply String.eqb_eq in E.
    rewrite record_last_nomatch.
    + destruct v0; reflexivity.
    + intros [k1 v1] He; simpl; apply String.eqb_neq; intros E1.
      apply Hn; rewrite E, <- E1.
      apply (in_map (fun e => lower (fst e)) _ (k1, v1) He).
  - specialize (IH (match v0 with Some v' => acc | None => acc end) Hnames' Hnd').
    destruct v0; simpl in IH |- *; rewrite IH; cbn [getHeader];
      rewrite Hlc by assumption; reflexivity.
Qed.

(** X18: on a header record with valid entries whose names are distinct up
    to case, and a valid name [key], [getHeader] on the record returns the
    value [normalizeHeaders] of the record holds, before trimming: the
    latter is the former trimmed ([toLowerCase] is [lower] on ASCII
    strings). *)
Theorem getHeader_record_normalized (toLowerCase : string -> string)
    (entries : list (string * option string)) (key : string)
    (Hlc : forall s, ascii_string s = true -> toLowerCase s = lower s)
    (Hnd : NoDup (map (fun e => lower (fst e)) entries))
    (Hnames : Forall (fun e => ascii_string (fst e) = true) entries)
    (Hok : source_ok (HRecord entries) = true)
    (Hkey : valid_name key = true) :
  exists ns v, normalizeHeaders (HRecord entries) = Ok ns
    /\ getHeader toLowerCase (HRecord entries) key = Ok v
    /\ Headers_get key ns = Ok (option_map normalize_value v).
Proof.
  destruct (normalizeHeaders_ok (HRecord entries) Hok) as [ns [En [_ Vn]]];
    [intros h E; discriminate|].
  assert (Hg : exists v, getHeader toLowerCase (HRecord entries) key = Ok v).
  { simpl; destruct (find _ entries) as [[k v]|]; eexists; reflexivity. }
  destruct Hg as [v Hg].
  exists ns, v; split; [exact En|]; split; [exact Hg|].
  unfold Headers_get; rewrite Hkey; unfold headers_get; rewrite Vn; simpl given_values.
  unfold record_last.
  rewrite (record_last_first toLowerCase key entries None Hlc (valid_name_ascii _ Hkey)
             Hnames Hnd), Hg.
  destruct v; reflexivity.
Qed.

Lemma getHeader_record_normalized_witness :
  let entries := [("Content-Type", Some " application/json "); ("X-Id", None);
                  ("accept", Some "*/*")]%string in
  (forall s, ascii_string s = true -> lower s = lower s)
  /\ NoDup (map (fun e => lower (fst e)) entries)
  /\ Forall (fun e => ascii_string (fst e) = true) entries
  /\ source_ok (HRecord entries) = true /\ valid_name "content-type" = true
  /\ exists ns v, normalizeHeaders (HRecord entries) = Ok ns
       /\ getHeader lower (HRecord entries) "content-type" = Ok v
       /\ Headers_get "content-type" ns = Ok (option_map normalize_value v).
Proof.
  cbv zeta.
  assert (Hnd : NoDup (map (fun e => lower (fst e))
            [("Content-Type", Some " application/json "); ("X-Id", None);
             ("accept", Some "*/*")]%string)).
  { simpl; repeat constructor; simpl; intuition discriminate. }
  assert (Hn : Forall (fun e => ascii_string (fst e) = true)
            [("Content-Type", Some " application/json "); ("X-Id", None);
             ("accept", Some "*/*")]%string) by (repeat constructor).
  split; [intros; reflexivity|]; split; [exact Hnd|]; split; [exact Hn|].
  split; [reflexivity|]; split; [reflexivity|].
  apply (getHeader_record_normalized lower); [intros; reflexivity|exact Hnd|exact Hn
                                             |reflexivity|reflexivity].
Defined.
(** *** Query strings *)

Lemma str_app_assoc (a b c : string) : ((a ++ b) ++ c)%string = (a ++ b ++ c)%string.
Proof. induction a as [|x a IH]; simpl; [reflexivity|]; rewrite IH; reflexivity. Qed.

Lemma str_app_nil_r (a : string) : (a ++ "")%string = a.
Proof. induction a as [|x a IH]; simpl; [reflexivity|]; rewrite IH; reflexivity. Qed.

Lemma has_char_app (c : ascii) (x y : string) :
  has_char c (x ++ y) = has_char c x || has_char c y.
Proof.
  induction x as [|c' x IH]; simpl; [reflexivity|].
  rewrite IH, orb_assoc; reflexivity.
Qed.

Lemma split_at_hash_app_self (s : string) :
  (fst (split_at_hash s) ++ snd (split_at_hash s))%string = s.
Proof.
  induction s as [|c s IH]; simpl; [reflexivity|].
  destruct (Ascii.eqb c "#"); [reflexivity|].
  destruct (split_at_hash s) as [b h]; simpl in *; rewrite IH; reflexivity.
Qed.

Lemma split_at_hash_fst_no_hash (s : string) : has_char "#" (fst (split_at_hash s)) = false.
Proof.
  induction s as [|c s IH]; simpl; [reflexivity|].
  destruct (Ascii.eqb c "#") eqn:E; [reflexivity|].
  destruct (split_at_hash s) as [b h]; simpl in *; rewrite E, IH; reflexivity.
Qed.

Lemma split_at_hash_snd (s : string) :
  split_at_hash (snd (split_at_hash s)) = (EmptyString, snd (split_at_hash s)).
Proof.
  induction s as [|c s IH]; simpl; [reflexivity|].
  destruct (Ascii.eqb c "#") eqn:E; simpl; [rewrite E; reflexivity|].
  destruct (split_at_hash s) as [b h]; simpl in *; exact IH.
Qed.

Lemma split_at_hash_app (x y : string) :
  has_char "#" x = false ->
  split_at_hash (x ++ y) = ((x ++ fst (split_at_hash y))%string, snd (split_at_hash y)).
Proof.
  induction x as [|c x IH]; simpl; intros H.
  - destruct (split_at_hash y); reflexivity.
  - apply orb_false_iff in H as [H1 H2]; rewrite H1, IH by exact H2; reflexivity.
Qed.

Lemma prefix_app (p x y : string) : prefix p x = true -> prefix p (x ++ y) = true.
Proof.
  revert p; induction x as [|c x IH]; intros p H.
  - destruct p; [destruct y; reflexivity|discriminate].
  - destruct p as [|a p]; [reflexivity|].
    simpl in H |- *; destruct (ascii_dec a c); [apply IH; exact H|discriminate].
Qed.

Lemma prefix_includes (sub s : string) : prefix sub s = true -> includes sub s = true.
Proof. destruct s; simpl; intros H; rewrite H; reflexivity. Qed.

Lemma includes_app (sub x y : string) : includes sub x = true -> includes sub (x ++ y) = true.
Proof.
  induction x as [|c x IH]; intros H.
  - simpl in H; apply orb_true_iff in H as [H|H]; [|discriminate].
    apply prefix_includes, (prefix_app sub "" y H).
  - change (includes sub (String c x)) with (prefix sub (String c x) || includes sub x) in H.
    change (includes sub (String c x ++ y)) with (prefix sub (String c (x ++ y)) || includes sub (x ++ y)).
    apply orb_true_iff in H as [H|H].
    + pose proof (prefix_app sub (String c x) y H) as H'; cbn [append] in H'.
      rewrite H'; reflexivity.
    + rewrite IH by exact H; apply orb_true_r.
Qed.

Lemma hex_digit_not_hash (n : nat) : (n < 16)%nat -> Ascii.eqb (hex_digit n) "#" = false.
Proof. intros H; do 16 (destruct n as [|n]; [reflexivity|]); lia. Qed.

Lemma uri_unreserved_not_hash (c : ascii) : uri_unreserved c = true -> Ascii.eqb c "#" = false.
Proof. destruct c as [[] [] [] [] [] [] [] []]; intros H; first [reflexivity | discriminate]. Qed.

Lemma encodeURIComponent_no_hash (s : string) : has_char "#" (encodeURIComponent s) = false.
Proof.
  induction s as [|c s IH]; cbn [encodeURIComponent]; [reflexivity|].
  destruct (uri_unreserved c) eqn:U; cbn [has_char].
  - rewrite uri_unreserved_not_hash, IH by exact U; reflexivity.
  - rewrite !hex_digit_not_hash, IH; [reflexivity| |].
    + apply Nat.mod_upper_bound; discriminate.
    + apply Nat.Div0.div_lt_upper_bound; pose proof (nat_ascii_bounded c); lia.
Qed.

Lemma join_no_char (c : ascii) (sep : string) (l : list string) :
  has_char c sep = false -> (forall x, In x l -> has_char c x = false) ->
  has_char c (join sep l) = false.
Proof.
  intros Hs; induction l as [|x [|y l] IH]; intros Hl; [reflexivity| |].
  - apply Hl; left; reflexivity.
  - change (join sep (x :: y :: l)) with (x ++ sep ++ join sep (y :: l))%string.
    rewrite !has_char_app, Hs, IH, Hl; [reflexivity|left; reflexivity|].
    intros z Hz; apply Hl; right; exact Hz.
Qed.

Lemma param_pair_no_hash (key v : string) : has_char "#" (param_pair key v) = false.
Proof.
  unfold param_pair; rewrite !has_char_app, !encodeURIComponent_no_hash; reflexivity.
Qed.

Lemma array_entries_no_hash (key : string) (items : list (option (Outcome string)))
    (l : list string) :
  array_entries key items = Ok l -> forall x, In x l -> has_char "#" x = false.
Proof.
  revert l; induction items as [|[item|] items IH]; intros l E; simpl in E.
  - injection E as <-; intros x [].
  - destruct item as [s|e]; simpl in E; [|discriminate].
    destruct (array_entries key items) as [l'|e] eqn:E'; simpl in E; [|discriminate].
    injection E as <-; intros x [<-|Hx]; [apply param_pair_no_hash|exact (IH l' eq_refl x Hx)].
  - exact (IH l E).
Qed.

Lemma param_entries_no_hash (es : list (string * ParamValue)) (l : list string) :
  param_entries es = Ok l -> has_char "#" (join "&" l) = false.
Proof.
  intros E; apply join_no_char; [reflexivity|].
  revert l E; induction es as [|[key value] es IH]; intros l E; simpl in E.
  - injection E as <-; intros x [].
  - destruct (value_entries key value) as [l1|e] eqn:Ev; simpl in E; [|discriminate].
    destruct (param_entries es) as [l2|e] eqn:Er; simpl in E; [|discriminate].
    injection E as <-; intros x Hx; apply in_app_or in Hx as [Hx|Hx];
      [|exact (IH l2 eq_refl x Hx)].
    destruct value as [|items|[iso|e]|[j|e]|[v|e]]; simpl in Ev; try discriminate.
    + injection Ev as <-; destruct Hx.
    + exact (array_entries_no_hash key items l1 Ev x Hx).
    + injection Ev as <-; destruct Hx as [<-|[]]; apply param_pair_no_hash.
    + injection Ev as <-; destruct Hx as [<-|[]]; apply param_pair_no_hash.
    + injection Ev as <-; destruct Hx as [<-|[]]; apply param_pair_no_hash.
Qed.

(** X19: query parameters given as a record are inserted before the URL's
    fragment: when [buildURL] returns, its result is the URL's text before
    its first ['#'], then a part without ['#'], then the URL's fragment;
    when it throws, it is with the exception of a parameter conversion. *)
Theorem buildURL_record_keeps_fragment (u : string) (es : list (string * ParamValue)) :
  match buildURL u (PRecord es) with
  | Ok r => exists q, has_char "#" q = false
              /\ r = (fst (split_at_hash u) ++ q ++ snd (split_at_hash u))%string
  | Err e => param_entries es = Err e
  end.
Proof.
  unfold buildURL.
  destruct (param_entries es) as [l|e] eqn:El; simpl obind; [|reflexivity].
  pose proof (param_entries_no_hash es l El) as Hq.
  destruct (String.eqb (join "&" l) "") eqn:E.
  - exists EmptyString; split; [reflexivity|].
    simpl; symmetry; apply split_at_hash_app_self.
  - destruct (split_at_hash u) as [b h]; simpl.
    exists ((if includes "?" b then "&" else "?") ++ join "&" l)%string.
    split.
    + rewrite has_char_app, Hq; destruct (includes "?" b); reflexivity.
    + rewrite str_app_assoc; reflexivity.
Qed.

(** X20: a parameter record whose values are all [null]/[undefined], or
    arrays of such values, leaves the URL unchanged. *)
Theorem buildURL_record_all_nullish (u : string) (es : list (string * ParamValue))
    (H : forall key v, In (key, v) es ->
         v = PNullish \/ exists items, v = PArray items /\ forall i, In i items -> i = None) :
  buildURL u (PRecord es) = Ok u.
Proof.
  assert (E : param_entries es = Ok []).
  { induction es as [|[key v] es IH]; [reflexivity|].
    simpl; rewrite IH by (intros k' v' Hin; apply (H k' v'); right; exact Hin).
    destruct (H key v (or_introl eq_refl)) as [->|[items [-> Hi]]]; [reflexivity|].
    simpl; clear H IH.
    assert (Ea : array_entries key items = Ok []).
    { induction items as [|i items IHi]; [reflexivity|].
      rewrite (Hi i (or_introl eq_refl)); apply IHi.
      intros j Hj; apply Hi; right; exact Hj. }
    rewrite Ea; reflexivity. }
  unfold buildURL; rewrite E; reflexivity.
Qed.

Lemma buildURL_record_all_nullish_witness :
  (forall key v, In (key, v) [("page"%string, PNullish); ("tag"%string, PArray [None; None])] ->
     v = PNullish \/ exists items, v = PArray items /\ forall i, In i items -> i = None)
  /\ buildURL "/items#top" (PRecord [("page"%string, PNullish); ("tag"%string, PArray [None; None])])
     = Ok "/items#top"%string.
Proof.
  assert (H : forall key v, In (key, v) [("page"%string, PNullish); ("tag"%string, PArray [None; None])] ->
     v = PNullish \/ exists items, v = PArray items /\ forall i, In i items -> i = None).
  { intros key v [E|[E|[]]]; injection E as _ <-; [left; reflexivity|].
    right; exists [None; None]; split; [reflexivity|].
    intros i [<-|[<-|[]]]; reflexivity. }
  split; [exact H|].
  apply buildURL_record_all_nullish; exact H.
Defined.

(** X21: with string parameters, two successive [buildURL] calls give the
    same URL as one call with the two query strings joined by ['&'],
    when the first one is non-empty and has no ['#'] and the second is
    non-empty. *)
Theorem buildURL_string_compose (u p1 p2 : string)
    (Hh : has_char "#" p1 = false) (H1 : p1 <> EmptyString) (H2 : p2 <> EmptyString) :
  obind (buildURL u (PString p1)) (fun u1 => buildURL u1 (PString p2))
  = buildURL u (PString (p1 ++ "&" ++ p2)).
Proof.
  assert (E1 : String.eqb p1 "" = false) by (apply String.eqb_neq; exact H1).
  assert (E2 : String.eqb p2 "" = false) by (apply String.eqb_neq; exact H2).
  assert (E12 : String.eqb (p1 ++ "&" ++ p2) "" = false)
    by (destruct p1; [contradiction|reflexivity]).
  unfold buildURL; cbn [obind]; rewrite E1, E12.
  pose proof (split_at_hash_fst_no_hash u) as Hb.
  pose proof (split_at_hash_snd u) as Hs.
  destruct (split_at_hash u) as [b h]; simpl in Hb, Hs; cbn [obind]; rewrite E2.
  set (sep := if includes "?" b then "&"%string else "?"%string).
  assert (Hsep : has_char "#" sep = false) by (unfold sep; destruct (includes "?" b); reflexivity).
  assert (Hq : includes "?" (b ++ sep ++ p1) = true).
  { unfold sep; destruct (includes "?" b) eqn:Ei.
    - apply includes_app; exact Ei.
    - clear Ei Hb Hsep. induction b as [|c b IH].
      + apply prefix_includes; destruct p1; reflexivity.
      + change (includes "?" (String c (b ++ "?" ++ p1)) = true).
        change (prefix "?" (String c (b ++ "?" ++ p1)) || includes "?" (b ++ "?" ++ p1) = true).
        rewrite IH; apply orb_true_r. }
  rewrite <- (str_app_assoc sep p1 h), <- (str_app_assoc b (sep ++ p1) h).
  rewrite split_at_hash_app by (rewrite !has_char_app, Hb, Hsep, Hh; reflexivity).
  rewrite Hs; simpl fst; simpl snd.
  rewrite str_app_nil_r, Hq, !str_app_assoc; reflexivity.
Qed.

Lemma buildURL_string_compose_witness :
  has_char "#" "page=2" = false /\ "page=2"%string <> EmptyString
  /\ "sort=asc"%string <> EmptyString
  /\ obind (buildURL "/items?x=1#top" (PString "page=2")) (fun u1 => buildURL u1 (PString "sort=asc"))
     = buildURL "/items?x=1#top" (PString ("page=2" ++ "&" ++ "sort=asc")).
Proof.
  split; [reflexivity|]; split; [discriminate|]; split; [discriminate|].
  apply buildURL_string_compose; [reflexivity|discriminate|discriminate].
Defined.

(** *** Integer parsing *)

Lemma str_length_app (x y : string) :
  String.length (x ++ y) = (String.length x + String.length y)%nat.
Proof. induction x as [|c x IH]; simpl; [reflexivity|]; rewrite IH; reflexivity. Qed.

Lemma digits_value_acc_app (x y : string) (a : Z) :
  digits_value_acc (x ++ y) a = digits_value_acc y (digits_value_acc x a).
Proof. revert a; induction x as [|c x IH]; intros a; simpl; [reflexivity|]; apply IH. Qed.

Lemma digit_char_spec (m : Z) :
  let d := ascii_of_nat (48 + Z.to_nat (m mod 10)) in
  is_digit d = true
  /\ (forall t, digit_prefix (String d t) = String d (digit_prefix t))
  /\ (forall a, digits_value_acc (String d EmptyString) a = 10 * a + m mod 10).
Proof.
  intros d.
  assert (Hr : 0 <= m mod 10 < 10) by (apply Z.mod_pos_bound; lia).
  assert (Hd : nat_of_ascii d = (48 + Z.to_nat (m mod 10))%nat)
    by (apply nat_ascii_embedding; lia).
  assert (Hdig : is_digit d = true).
  { unfold is_digit; rewrite Hd; apply andb_true_iff; split; apply Nat.leb_le; lia. }
  clearbody d.
  split; [exact Hdig|split].
  - intros t; cbn [digit_prefix]; rewrite Hdig; reflexivity.
  - intros a; cbn [digits_value_acc]; rewrite Hd; lia.
Qed.

Lemma digits_aux_S (f : nat) (m : Z) (acc : string) :
  digits_aux (S f) m acc
  = if m <? 10 then String (ascii_of_nat (48 + Z.to_nat (m mod 10))) acc
    else digits_aux f (m / 10) (String (ascii_of_nat (48 + Z.to_nat (m mod 10))) acc).
Proof. reflexivity. Qed.

Lemma digits_aux_spec (f : nat) : forall (m : Z) (acc : string),
  0 <= m -> m < 10 ^ Z.of_nat (S f) ->
  exists D, digits_aux (S f) m acc = (D ++ acc)%string /\ D <> EmptyString
    /\ (forall t, digit_prefix (D ++ t) = (D ++ digit_prefix t)%string)
    /\ (forall a, digits_value_acc D a = a * 10 ^ Z.of_nat (String.length D) + m).
Proof.
  induction f as [|f IH]; intros m acc Hm Hlt; rewrite digits_aux_S;
    destruct (digit_char_spec m) as [_ [Hp1 Hv1]];
    generalize dependent (ascii_of_nat (48 + Z.to_nat (m mod 10))); intros d Hp1 Hv1;
    assert (Hr : 0 <= m mod 10 < 10) by (apply Z.mod_pos_bound; lia).
  - assert (Hm10 : m < 10) by (simpl in Hlt; lia).
    rewrite (proj2 (Z.ltb_lt m 10) Hm10).
    exists (String d EmptyString); split; [reflexivity|]; split; [discriminate|]; split.
    + intros t; apply Hp1.
    + intros a; rewrite Hv1. rewrite (Z.mod_small m 10) by lia. cbn [String.length Z.of_nat]. rewrite Z.pow_1_r. lia.
  - destruct (m <? 10) eqn:E.
    + apply Z.ltb_lt in E.
      exists (String d EmptyString); split; [reflexivity|]; split; [discriminate|]; split.
      * intros t; apply Hp1.
      * intros a; rewrite Hv1. rewrite (Z.mod_small m 10) by lia. cbn [String.length Z.of_nat]. rewrite Z.pow_1_r. lia.
    + apply Z.ltb_ge in E.
      destruct (IH (m / 10) (String d acc)) as [D' [E' [Hne [Hp Hv]]]].
      * apply Z.div_pos; lia.
      * apply Z.div_lt_upper_bound; [lia|].
        rewrite Nat2Z.inj_succ, Z.pow_succ_r in Hlt by lia; lia.
      * exists (D' ++ String d EmptyString)%string; split; [|split; [|split]].
        -- rewrite E', str_app_assoc; reflexivity.
        -- destruct D'; [contradiction|discriminate].
        -- intros t; rewrite !str_app_assoc, Hp; cbn [append]; rewrite Hp1; reflexivity.
        -- intros a; rewrite digits_value_acc_app, Hv, Hv1, str_length_app.
           rewrite Nat2Z.inj_add, Z.pow_add_r by lia; cbn [String.length Z.of_nat].
           pose proof (Z.div_mod m 10 ltac:(lia)); lia.
Qed.

Lemma Z_to_string_fuel (m : Z) : 0 <= m -> m < 10 ^ Z.of_nat (S (Z.to_nat (Z.log2 m))).
Proof.
  intros Hm.
  rewrite Nat2Z.inj_succ, Z2Nat.id by apply Z.log2_nonneg.
  destruct (Z.eq_dec m 0) as [->|Hne]; [simpl; lia|].
  destruct (Z.log2_spec m ltac:(lia)) as [_ H2].
  eapply Z.lt_le_trans; [exact H2|].
  apply Z.pow_le_mono_l; lia.
Qed.

Lemma digit_prefix_head (D : string) :
  D <> EmptyString -> digit_prefix D = D ->
  exists c D1, D = String c D1 /\ is_digit c = true.
Proof.
  destruct D as [|c D1]; intros Hne Hp; [contradiction|].
  exists c, D1; split; [reflexivity|].
  simpl in Hp; destruct (is_digit c); [reflexivity|discriminate].
Qed.

Lemma digit_not_sign (c : ascii) :
  is_digit c = true -> Ascii.eqb c "-" = false /\ Ascii.eqb c "+" = false.
Proof. destruct c as [[] [] [] [] [] [] [] []]; intros H; first [split; reflexivity | discriminate]. Qed.

Lemma trim_start_stop (f : nat) (c : ascii) (r : string) :
  is_digit c = true \/ c = "-"%char -> trim_start f (String c r) = String c r.
Proof.
  destruct f as [|f]; intros H; [reflexivity|].
  cbn [trim_start].
  replace (find (fun w => prefix w (String c r)) js_white_space) with (@None string);
    [reflexivity|].
  destruct c as [[] [] [] [] [] [] [] []];
    destruct H as [H|H]; try discriminate; reflexivity.
Qed.

Lemma parseInt10_Z_to_string_app_aux (n : Z) (rest : string) :
  digit_prefix rest = EmptyString ->
  parseInt10 (Z_to_string n ++ rest) = if n =? 0 then JInt 0 else Number_value n.
Proof.
  intros Hrest.
  destruct (digits_aux_spec (Z.to_nat (Z.log2 (Z.abs n))) (Z.abs n) EmptyString
              ltac:(lia) (Z_to_string_fuel (Z.abs n) ltac:(lia)))
    as [D [E [Hne [Hp Hv]]]].
  rewrite str_app_nil_r in E.
  assert (HD : digit_prefix D = D)
    by (specialize (Hp EmptyString); rewrite !str_app_nil_r in Hp; exact Hp).
  destruct (digit_prefix_head D Hne HD) as [c [D1 [HcD Hc]]].
  assert (Hpr : digit_prefix (D ++ rest) = D)
    by (rewrite Hp, Hrest, str_app_nil_r; reflexivity).
  assert (HDe : String.eqb D "" = false) by (apply String.eqb_neq; exact Hne).
  assert (Hv0 : digits_value_acc D 0 = Z.abs n) by (rewrite Hv; lia).
  destruct (digit_not_sign c Hc) as [Hm Hpl].
  unfold parseInt10, Z_to_string.
  destruct (n <? 0) eqn:En.
  - apply Z.ltb_lt in En.
    rewrite Z.abs_neq in E by lia; rewrite E.
    cbn [append]; rewrite trim_start_stop by (right; reflexivity).
    change (("-" =? "-")%char) with true; cbn beta iota.
    rewrite Hpr, HDe, Hv0.
    rewrite (proj2 (Z.eqb_neq (Z.abs n) 0)) by lia.
    rewrite (proj2 (Z.eqb_neq n 0)) by lia.
    f_equal; lia.
  - apply Z.ltb_ge in En.
    rewrite Z.abs_eq in E by lia; rewrite E; clear E HD.
    subst D; cbn [append] in *.
    rewrite trim_start_stop by (left; exact Hc).
    rewrite Hm, Hpl; cbn beta iota.
    rewrite Hpr, HDe, Hv0, Z.abs_eq by lia.
    destruct (n =? 0); [reflexivity|].
    f_equal; lia.
Qed.

Lemma Number_value_small (z : Z) : Z.abs z <= 2 ^ 53 -> Number_value z = JInt z.
Proof. intros H; unfold Number_value; rewrite (proj2 (Z.leb_le _ _) H); reflexivity. Qed.

Lemma parseInt10_Z_to_string_small (n : Z) (rest : string) :
  Z.abs n <= 2 ^ 53 -> digit_prefix rest = EmptyString ->
  parseInt10 (Z_to_string n ++ rest) = JInt n.
Proof.
  intros Hn Hr; rewrite parseInt10_Z_to_string_app_aux by exact Hr.
  destruct (n =? 0) eqn:E; [apply Z.eqb_eq in E; subst n; reflexivity|].
  apply Number_value_small; exact Hn.
Qed.



Lemma substring_0_full (s : string) (m : nat) :
  (String.length s <= m)%nat -> substring 0 m s = s.
Proof.
  revert m; induction s as [|c s IH]; intros m H; destruct m as [|m]; simpl in *;
    [reflexivity|reflexivity|lia|].
  rewrite IH by lia; reflexivity.
Qed.

Lemma substring_app (w s : string) (m : nat) :
  (String.length s <= m)%nat -> substring (String.length w) m (w ++ s) = s.
Proof.
  intros H; induction w as [|c w IH]; [apply substring_0_full; exact H|].
  simpl; destruct m; exact IH.
Qed.

Lemma substring_length (n m : nat) (s : string) :
  (String.length (substring n m s) <= String.length s - n)%nat.
Proof.
  revert n m; induction s as [|c s IH]; intros n m; destruct n as [|n], m as [|m];
    simpl; try lia.
  - specialize (IH 0%nat m); lia.
  - apply IH.
  - apply IH.
Qed.

Lemma js_white_space_nonempty (w : string) : In w js_white_space -> (1 <= String.length w)%nat.
Proof.
  intros H; unfold js_white_space in H; apply in_map_iff in H as [l [<- H]].
  repeat (destruct H as [<-|H]; [simpl; lia|]); contradiction.
Qed.

Lemma trim_start_empty (f : nat) : trim_start f EmptyString = EmptyString.
Proof. destruct f; reflexivity. Qed.

Lemma trim_start_fuel (f : nat) : forall (g : nat) (s : string),
  (String.length s <= f)%nat -> (String.length s <= g)%nat -> trim_start f s = trim_start g s.
Proof.
  induction f as [|f IH]; intros g s Hf Hg.
  - destruct s; [rewrite !trim_start_empty; reflexivity|simpl in Hf; lia].
  - destruct g as [|g]; [destruct s; [reflexivity|simpl in Hg; lia]|].
    cbn [trim_start].
    destruct (find (fun w => prefix w s) js_white_space) as [w|] eqn:E; [|reflexivity].
    apply find_some in E as [Hin _].
    pose proof (js_white_space_nonempty w Hin).
    pose proof (substring_length (String.length w) (String.length s) s).
    apply IH; lia.
Qed.

Lemma find_white_space (w s : string) :
  In w js_white_space -> find (fun w' => prefix w' (w ++ s)) js_white_space = Some w.
Proof.
  intros H; unfold js_white_space in H; apply in_map_iff in H as [l [<- H]].
  repeat (destruct H as [<-|H]; [destruct s; reflexivity|]); contradiction.
Qed.

(** X23: [parseInt(s, 10)] skips leading white space: a white-space or
    line-terminator character in front of the text does not change the
    result. *)
Theorem parseInt10_skips_white_space (w s : string) (Hw : In w js_white_space) :
  parseInt10 (w ++ s) = parseInt10 s.
Proof.
  assert (E : trim_start (String.length (w ++ s)) (w ++ s)
              = trim_start (String.length s) s).
  { pose proof (js_white_space_nonempty w Hw) as Hl.
    assert (Hs : substring (String.length w) (String.length (w ++ s)) (w ++ s) = s)
      by (apply substring_app; rewrite str_length_app; lia).
    assert (EL : String.length (w ++ s) = S (String.length w - 1 + String.length s))
      by (rewrite str_length_app; lia).
    rewrite EL at 1.
    cbn [trim_start]; rewrite find_white_space, Hs by exact Hw.
    apply trim_start_fuel; lia. }
  unfold parseInt10; rewrite E; reflexivity.
Qed.

Lemma parseInt10_skips_white_space_witness :
  In (bytes [194; 160]%nat) js_white_space
  /\ parseInt10 (bytes [194; 160]%nat ++ "+7") = parseInt10 "+7".
Proof.
  assert (H : In (bytes [194; 160]%nat) js_white_space)
    by (unfold js_white_space; apply in_map; simpl; tauto).
  split; [exact H|]; apply parseInt10_skips_white_space; exact H.
Defined.

Lemma Z_to_string_app_nonempty (n : Z) (rest : string) :
  String.eqb (Z_to_string n ++ rest) "" = false.
Proof.
  assert (G : forall f m a, a <> EmptyString -> digits_aux f m a <> EmptyString).
  { induction f as [|f IH]; intros m a Ha; simpl; [exact Ha|].
    destruct (m <? 10); [discriminate|apply IH; discriminate]. }
  apply String.eqb_neq; unfold Z_to_string; destruct (n <? 0); [discriminate|].
  rewrite digits_aux_S.
  destruct (n <? 10); [discriminate|].
  destruct (digits_aux _ (n / 10) _) eqn:E; [|discriminate].
  exfalso; revert E; apply G; discriminate.
Qed.

(** X24: [getResponseSize] is [0] when the response has no [content-length]
    header, and is [n] when the header is the decimal text of an integer
    [n] of magnitude at most [2^53] (possibly followed by non-digits). *)
Theorem getResponseSize_spec (r : Resp) :
  (headers_get "content-length" (r_headers r) = None -> getResponseSize r = JInt 0)
  /\ (forall n rest, Z.abs n <= 2 ^ 53 -> digit_prefix rest = EmptyString ->
        headers_get "content-length" (r_headers r) = Some (Z_to_string n ++ rest)%string ->
        getResponseSize r = JInt n).
Proof.
  unfold getResponseSize; split.
  - intros H; rewrite H; reflexivity.
  - intros n rest Hn Hr H; rewrite H, Z_to_string_app_nonempty.
    apply parseInt10_Z_to_string_small; assumption.
Qed.

(** X25: [getRetryAfterDelay] gives [undefined] without a [Retry-After]
    header; a header that starts with the decimal text of an integer [n]
    gives [n * 1000] (exactly when its magnitude is at most [2^53]),
    negative values included; any other defined result comes from the
    date branch and is positive. *)
Theorem getRetryAfterDelay_spec (Date_parse : string -> option Z) (now : Z) (r : Resp) :
  (headers_get "Retry-After" (r_headers r) = None ->
     getRetryAfterDelay Date_parse now r = None)
  /\ (forall n rest, Z.abs (n * 1000) <= 2 ^ 53 -> digit_prefix rest = EmptyString ->
        headers_get "Retry-After" (r_headers r) = Some (Z_to_string n ++ rest)%string ->
        getRetryAfterDelay Date_parse now r = Some (JInt (n * 1000)))
  /\ (forall d, getRetryAfterDelay Date_parse now r = Some d ->
        js_positive d = true
        \/ exists v s, headers_get "Retry-After" (r_headers r) = Some v
                      /\ parseInt10 v = s /\ s <> JNaN /\ d = times_1000 s).
Proof.
  unfold getRetryAfterDelay; split; [|split].
  - intros H; rewrite H; reflexivity.
  - intros n rest Hn Hr H; rewrite H, Z_to_string_app_nonempty.
    rewrite parseInt10_Z_to_string_small by (lia || exact Hr).
    cbn [times_1000]; rewrite Number_value_small by exact Hn; reflexivity.
  - intros d.
    destruct (headers_get "Retry-After" (r_headers r)) as [v|]; [|discriminate].
    destruct (String.eqb v ""); [discriminate|].
    destruct (parseInt10 v) as [| | | |z] eqn:Ep;
      try (intros E; injection E as <-; right; exists v; eexists;
           split; [reflexivity|]; split; [exact Ep|]; split; [discriminate|reflexivity]).
    destruct (Date_parse v) as [t|]; [|discriminate].
    destruct (js_positive (Number_value (t - now))) eqn:Eg; [|discriminate].
    intros E; injection E as <-; left; exact Eg.
Qed.

(** *** Request configuration *)

(** X26: when [mergeConfig] returns, the URL is the request's ([''] when
    absent), the method is the request's upper-cased ([GET] when absent),
    the base URL is always the client's (a per-request [baseURL] changes
    nothing), and the headers are the client's merged with the request's
    as [mergeHeaders] merges two sources. *)
Theorem mergeConfig_fields (toUpperCase : string -> string)
    (deepMerge : ClientConfig -> RequestOptions -> Outcome unit)
    (d : ClientConfig) (o : RequestOptions) (c : MergedConfig)
    (Hwf : forall h, In (HHeaders h) [cc_headers d; ro_headers o] -> headers_wf h = true)
    (H : mergeConfig toUpperCase deepMerge d o = Ok c) :
  mc_url c = or_default (ro_url o) ""%string
  /\ mc_method c = toUpperCase (or_default (ro_method o) "GET"%string)
  /\ mc_baseURL c = cc_baseURL d
  /\ (forall k, headers_get k (mc_headers c) = merge_spec [cc_headers d; ro_headers o] k).
Proof.
  unfold mergeConfig in H.
  destruct (deepMerge d o) as [[]|e]; simpl in H; [|discriminate].
  destruct (mergeHeaders [cc_headers d; ro_headers o]) as [hs|e] eqn:Em;
    simpl in H; [|discriminate].
  injection H as <-; cbn [mc_url mc_method mc_baseURL mc_headers].
  split; [reflexivity|]; split; [reflexivity|]; split; [reflexivity|].
  destruct (forallb source_ok [cc_headers d; ro_headers o]) eqn:Hok.
  - intros k.
    destruct (mergeHeaders_view [cc_headers d; ro_headers o] [] None (lower k) Hok Hwf eq_refl)
      as [r' [E' V']].
    unfold mergeHeaders in Em; rewrite Em in E'; injection E' as <-.
    unfold headers_get, merge_spec; rewrite V'.
    destruct (fold_left _ _ None); reflexivity.
  - rewrite mergeHeaders_fails in Em by assumption; discriminate.
Qed.

Lemma mergeConfig_fields_witness :
  let d := mkClientConfig (Some "https://api.example.com"%string)
             (HRecord [("Authorization"%string, Some "Bearer t"%string)]) in
  let o := mkRequestOptions (Some "/users"%string) (Some "post"%string)
             (Some "https://other.example.com"%string)
             (HRecord [("authorization"%string, Some ""%string)]) in
  (forall h, In (HHeaders h) [cc_headers d; ro_headers o] -> headers_wf h = true)
  /\ mergeConfig (fun _ => "POST"%string) (fun _ _ => Ok tt) d o
     = Ok (mkMergedConfig "/users" "POST" [] (Some "https://api.example.com"%string))
  /\ mc_baseURL (mkMergedConfig "/users" "POST" [] (Some "https://api.example.com"%string))
     = cc_baseURL d.
Proof.
  cbv zeta.
  assert (Hwf : forall h, In (HHeaders h)
     [cc_headers (mkClientConfig (Some "https://api.example.com"%string)
             (HRecord [("Authorization"%string, Some "Bearer t"%string)]));
      ro_headers (mkRequestOptions (Some "/users"%string) (Some "post"%string)
             (Some "https://other.example.com"%string)
             (HRecord [("authorization"%string, Some ""%string)]))]
     -> headers_wf h = true).
  { simpl; intros h [E|[E|[]]]; discriminate. }
  assert (H : mergeConfig (fun _ => "POST"%string) (fun _ _ => Ok tt)
    (mkClientConfig (Some "https://api.example.com"%string)
       (HRecord [("Authorization"%string, Some "Bearer t"%string)]))
    (mkRequestOptions (Some "/users"%string) (Some "post"%string)
       (Some "https://other.example.com"%string)
       (HRecord [("authorization"%string, Some ""%string)]))
    = Ok (mkMergedConfig "/users" "POST" [] (Some "https://api.example.com"%string)))
    by (vm_compute; reflexivity).
  split; [exact Hwf|]; split; [exact H|].
  exact (proj1 (proj2 (proj2 (mergeConfig_fields _ _ _ _ _ Hwf H)))).
Defined.
